(** * Contact reconciliation service: the [/identify] endpoint

    A shallow embedding of the Express/SQLite server of the repository
    (the file declaring [getAllContactsInChain],
    [findContactsByEmailOrPhone] and the [/identify] handler).

    - The [Contact] table is a list of rows in rowid order together with
      the AUTOINCREMENT counter.
    - Every SQL statement is a pure function on that table.  Statements of
      one request run one after another, each seeing the effects of the
      previous ones; the promises of a merge run in the order of
      [updatePromises], each with its two statements (running all
      demotions first gives the same table, [queued_row_run_row]);
      [CURRENT_TIMESTAMP] is the same value [now] for all statements of a
      request.
    - Requests are handled one at a time.
    - Every database call of the handler may fail: the handler takes an
      oracle [fails : Stmt -> bool] telling which calls hand an error to
      their callback.  A call is known by the place of the handler that
      issues it and by its parameters.
    - A [SELECT] without [ORDER BY] returns the rows in the order in which
      SQLite finds them: by rowid when it searches one index, and index
      after index when it answers an [OR] of two indexed columns.  An
      [ORDER BY] and [Array.prototype.sort] are stable sorts.
    - Ids are integers; the handler holds them as JavaScript numbers, which
      are exact up to 2^53 ([exact_ids]).
    - A JavaScript [TypeError] thrown inside a database callback ends the
      request without a reply ([Crash]); a recursive query that never
      finishes is [Hang]. *)

From Stdlib Require Import String ZArith List Bool Lia Permutation.
Import ListNotations.
Set Warnings "-register-all".
Open Scope Z_scope.

(** ** Data model *)

Inductive LinkPrecedence := primary | secondary.

(** The TEXT stored in the [linkPrecedence] column. *)
Definition precedence_text (p : LinkPrecedence) : string :=
  match p with
  | primary => "primary"
  | secondary => "secondary"
  end.

Definition is_primary (p : LinkPrecedence) : bool :=
  match p with primary => true | secondary => false end.

Definition is_secondary (p : LinkPrecedence) : bool :=
  match p with primary => false | secondary => true end.

(** One row of the [Contact] table; [None] is SQL NULL. *)
Record Contact := mkContact {
  id : Z;
  phoneNumber : option string;
  email : option string;
  linkedId : option Z;
  linkPrecedence : LinkPrecedence;
  createdAt : Z;
  updatedAt : Z;
  deletedAt : option Z
}.

(** The table in rowid order and the largest rowid ever handed out. *)
Record Store := mkStore {
  rows : list Contact;
  seq : Z
}.

Definition empty_store : Store := mkStore [] 0.

(** The body of a request, with string-valued properties: a missing or
    null property is [None]. *)
Record Request := mkRequest {
  req_email : option string;
  req_phoneNumber : option string
}.

(** The database calls of a request: the search for the matching
    contacts, the chain query of the [forEach] loop (one per matching
    contact), the three statements issued through [db.run], and the chain
    query sent again once the writes are done. *)
Inductive Stmt :=
| FindContacts
| ChainLookup (chainId : option Z)
| InsertContact
| UpdatePrecedence (target : Z)
| UpdateChildren (parent : Z)
| ChainReload (contactId : Z).

(** A store on which every call succeeds. *)
Definition never_fails (_ : Stmt) : bool := false.

Inductive json :=
| JNum (n : Z)
| JStr (s : string)
| JArr (items : list json)
| JObj (fields : list (string * json)).

Inductive Outcome :=
| Reply (status : Z) (body : json)
| Crash
| Hang.

(** ** JavaScript and SQL value tests *)

(** [if (v)] on a string-or-missing value: missing, null and the empty
    string are falsy. *)
Definition truthy (v : option string) : bool :=
  match v with
  | Some s => negb (s =? "")%string
  | None => false
  end.

(** [v || null] *)
Definition or_null (v : option string) : option string :=
  if truthy v then v else None.

(** [column = ?] in SQL and [c.column === v] in JavaScript, for a string
    [v]: a NULL column never matches. *)
Definition column_is (v : option string) (column : option string) : bool :=
  match v, column with
  | Some s, Some t => (t =? s)%string
  | _, _ => false
  end.

(** [deletedAt IS NULL] *)
Definition live (c : Contact) : bool :=
  match deletedAt c with
  | None => true
  | Some _ => false
  end.

(** [linkedId = ?] *)
Definition linked_to (k : Z) (c : Contact) : bool :=
  match linkedId c with
  | Some l => l =? k
  | None => false
  end.

(** ** Stable sorting *)

Section Sorting.
Context {A : Type} (le : A -> A -> bool).

Fixpoint insert_by (x : A) (l : list A) : list A :=
  match l with
  | [] => [x]
  | y :: t => if le x y then x :: y :: t else y :: insert_by x t
  end.

Definition sort_by (l : list A) : list A := fold_right insert_by [] l.
End Sorting.

(** ** Queries *)

(** [ORDER BY linkPrecedence DESC, createdAt ASC]: [chain_order a b] holds
    when row [a] may stand before row [b].  The first key compares the
    stored TEXT, largest first. *)
Definition chain_order (a b : Contact) : bool :=
  match String.compare (precedence_text (linkPrecedence b))
                       (precedence_text (linkPrecedence a)) with
  | Lt => true
  | Eq => createdAt a <=? createdAt b
  | Gt => false
  end.

(** Initial select of the recursive query. *)
Definition chain_roots (contactId : option Z) (st : Store) : list Contact :=
  match contactId with
  | None => []
  | Some k =>
      filter (fun c => ((id c =? k) || linked_to k c) && live c
                       && is_primary (linkPrecedence c)) (rows st)
  end.

(** Recursive select, for one row [cc] of [contact_chain]. *)
Definition chain_children (st : Store) (cc : Contact) : list Contact :=
  filter (fun c => linked_to (id cc) c && live c) (rows st).

(** The rows of [contact_chain], generation by generation.  [None] when
    [fuel] generations do not exhaust the recursion. *)
Fixpoint contact_chain (fuel : nat) (st : Store) (frontier : list Contact)
  : option (list Contact) :=
  match frontier with
  | [] => Some []
  | _ :: _ =>
      match fuel with
      | O => None
      | S fuel' =>
          match contact_chain fuel' st (flat_map (chain_children st) frontier) with
          | Some rest => Some (frontier ++ rest)
          | None => None
          end
      end
  end.

(** [getAllContactsInChain(contactId, callback)].  A generation is empty
    after at most one generation per row unless the [linkedId] links form a
    cycle, in which case the query does not finish ([None]).  The query
    does not select [deletedAt]; every row it returns has it NULL. *)
Definition getAllContactsInChain (contactId : option Z) (st : Store)
  : option (list Contact) :=
  match contact_chain (S (length (rows st))) st (chain_roots contactId st) with
  | Some l => Some (sort_by chain_order l)
  | None => None
  end.

(** [findContactsByEmailOrPhone(email, phoneNumber, callback)], called with
    at least one truthy argument.  Each condition of the query is on an
    indexed column ([idx_email], [idx_phone]); with both conditions SQLite
    searches the two indexes in turn, so the contacts with the email come
    first and those found by the phone number alone after them, each group
    by rowid.  With one condition the second or the first group is
    empty. *)
Definition findContactsByEmailOrPhone (em ph : option string) (st : Store)
  : list Contact :=
  let by_email c := truthy em && column_is em (email c) in
  let by_phone c := truthy ph && column_is ph (phoneNumber c) in
  filter (fun c => live c && by_email c) (rows st) ++
  filter (fun c => live c && (by_phone c && negb (by_email c))) (rows st).

(** ** Write statements *)

Definition max_rowid (l : list Contact) : Z :=
  fold_right (fun c m => Z.max (id c) m) 0 l.

(** [this.lastID] of the next INSERT: AUTOINCREMENT hands out one more
    than the largest rowid that ever existed. *)
Definition next_id (st : Store) : Z :=
  1 + Z.max (seq st) (max_rowid (rows st)).

(** [INSERT INTO Contact (phoneNumber, email, linkedId, linkPrecedence,
    createdAt, updatedAt) VALUES (?, ?, ?, ..., CURRENT_TIMESTAMP,
    CURRENT_TIMESTAMP)] *)
Definition insert_contact (now : Z) (ph em : option string)
  (link : option Z) (prec : LinkPrecedence) (st : Store) : Store :=
  let i := next_id st in
  mkStore (rows st ++ [mkContact i ph em link prec now now None]) i.

(** [UPDATE Contact SET linkPrecedence = 'secondary', linkedId = ?,
    updatedAt = CURRENT_TIMESTAMP WHERE id = ?], on one row. *)
Definition demote_row (now survivor target : Z) (c : Contact) : Contact :=
  if id c =? target
  then mkContact (id c) (phoneNumber c) (email c) (Some survivor) secondary
                 (createdAt c) now (deletedAt c)
  else c.

(** [UPDATE Contact SET linkedId = ?, updatedAt = CURRENT_TIMESTAMP
    WHERE linkedId = ? AND id != ?], on one row. *)
Definition reparent_row (now survivor parent : Z) (c : Contact) : Contact :=
  if linked_to parent c && negb (id c =? parent)
  then mkContact (id c) (phoneNumber c) (email c) (Some survivor)
                 (linkPrecedence c) (createdAt c) now (deletedAt c)
  else c.

Definition update_rows (f : Contact -> Contact) (st : Store) : Store :=
  mkStore (map f (rows st)) (seq st).

(** ** The response *)

(** [[...new Set(values)]]: first occurrences, in insertion order. *)
Definition set_add (s : list string) (x : string) : list string :=
  if existsb (String.eqb x) s then s else s ++ [x].

Definition new_Set (values : list string) : list string :=
  fold_left set_add values [].

(** [values.filter(Boolean)] on string-or-null values. *)
Fixpoint filter_Boolean (values : list (option string)) : list string :=
  match values with
  | [] => []
  | Some s :: t => if (s =? "")%string then filter_Boolean t
                   else s :: filter_Boolean t
  | None :: t => filter_Boolean t
  end.

(** The object literal handed to [res.json], under the key [contact]. *)
Record ContactBody := mkBody {
  primaryContatctId : Z;
  emails : list string;
  phoneNumbers : list string;
  secondaryContactIds : list Z
}.

(** The JSON text of [{ contact: { ... } }]: keys in the order written. *)
Definition contact_json (b : ContactBody) : json :=
  JObj [("contact",
         JObj [("primaryContatctId", JNum (primaryContatctId b));
               ("emails", JArr (map JStr (emails b)));
               ("phoneNumbers", JArr (map JStr (phoneNumbers b)));
               ("secondaryContactIds", JArr (map JNum (secondaryContactIds b)))])]%string.

Definition error_json (msg : string) : json := JObj [("error", JStr msg)]%string.

(** The body built by [returnResponse(contacts)]; [None] when no contact
    is primary, where reading [primary.email] throws. *)
Definition response_body (contacts : list Contact) : option ContactBody :=
  match find (fun c => is_primary (linkPrecedence c)) contacts with
  | None => None
  | Some primary_ =>
      let secondaries := filter (fun c => is_secondary (linkPrecedence c)) contacts in
      Some (mkBody (id primary_)
              (new_Set (filter_Boolean (email primary_ :: map email secondaries)))
              (new_Set (filter_Boolean (phoneNumber primary_ :: map phoneNumber secondaries)))
              (map id secondaries))
  end.

(** [returnResponse(contacts)] *)
Definition returnResponse (contacts : list Contact) : Outcome :=
  match response_body contacts with
  | None => Crash
  | Some b => Reply 200 (contact_json b)
  end.

(** ** The [/identify] handler *)

(** [contact.linkPrecedence === 'primary' ? contact.id : contact.linkedId] *)
Definition chainId_of (c : Contact) : option Z :=
  if is_primary (linkPrecedence c) then Some (id c) else linkedId c.

(** The [contactChains] Map: keys in insertion order. *)
Definition ChainMap := list (option Z * list Contact).

Definition key_eqb (a b : option Z) : bool :=
  match a, b with
  | Some x, Some y => x =? y
  | None, None => true
  | _, _ => false
  end.

(** [contactChains.set(k, v)] *)
Fixpoint map_set (k : option Z) (v : list Contact) (m : ChainMap) : ChainMap :=
  match m with
  | [] => [(k, v)]
  | (k', v') :: t =>
      if key_eqb k k' then (k, v) :: t else (k', v') :: map_set k v t
  end.

(** Where the [existingContacts.forEach] loop leads: every callback has
    stored its chain and [processContactChains()] is called; or a callback
    got an error and answered; or a query never returns. *)
Inductive Collection :=
| Collected (contactChains : ChainMap)
| LookupError
| LookupPending.

(** The [existingContacts.forEach] loop: one chain lookup per matching
    contact, stored under its chain id.  After an error the counter
    [processedContacts] never reaches the number of contacts. *)
Fixpoint collectChains (fails : Stmt -> bool) (st : Store)
  (existingContacts : list Contact) (contactChains : ChainMap) : Collection :=
  match existingContacts with
  | [] => Collected contactChains
  | contact :: t =>
      if fails (ChainLookup (chainId_of contact)) then LookupError
      else
        match getAllContactsInChain (chainId_of contact) st with
        | None => LookupPending
        | Some chainContacts =>
            collectChains fails st t
              (map_set (chainId_of contact) chainContacts contactChains)
        end
  end.

(** [v && contacts.some(c => c.field === v)] *)
Definition has_value (v : option string) (field : Contact -> option string)
  (contacts : list Contact) : bool :=
  truthy v && existsb (fun c => column_is v (field c)) contacts.

(** [v ? [v] : []] *)
Definition singleton_if (v : option string) : list string :=
  match v with
  | Some s => if truthy v then [s] else []
  | None => []
  end.

(** One promise of [updatePromises]: demote [contact], then re-link the
    contacts that pointed at it.  The boolean is [true] when the promise
    resolves and [false] when it rejects. *)
Definition demote_contact (fails : Stmt -> bool) (now survivor : Z)
  (contact : Contact) (st : Store) : Store * bool :=
  if fails (UpdatePrecedence (id contact)) then (st, false)
  else
    let st1 := update_rows (demote_row now survivor (id contact)) st in
    if fails (UpdateChildren (id contact)) then (st1, false)
    else (update_rows (reparent_row now survivor (id contact)) st1, true).

(** [Promise.all(updatePromises)]: every promise runs to its end; the
    result is [true] when all of them resolve. *)
Fixpoint run_updates (fails : Stmt -> bool) (now survivor : Z)
  (contacts : list Contact) (st : Store) : Store * bool :=
  match contacts with
  | [] => (st, true)
  | contact :: t =>
      let '(st1, ok1) := demote_contact fails now survivor contact st in
      let '(st2, ok2) := run_updates fails now survivor t st1 in
      (st2, ok1 && ok2)
  end.

(** [primaryContacts] after [sort((a, b) => new Date(a.createdAt) - new
    Date(b.createdAt))]. *)
Definition sorted_primaries (allContacts : list Contact) : list Contact :=
  sort_by (fun a b => createdAt a <=? createdAt b)
          (filter (fun c => is_primary (linkPrecedence c)) allContacts).

(** The chain query sent again after the writes, with its callback:
    [getAllContactsInChain(contactId, (err, contacts) => ...)], which
    answers the error [msg] or calls [returnResponse(contacts)]. *)
Definition respond_chain (fails : Stmt -> bool) (msg : string) (contactId : Z)
  (st : Store) : Store * Outcome :=
  if fails (ChainReload contactId) then (st, Reply 500 (error_json msg))
  else
    match getAllContactsInChain (Some contactId) st with
    | None => (st, Hang)
    | Some contacts => (st, returnResponse contacts)
    end.

(** The multiple-chains branch of [processContactChains], from the
    demotions on. *)
Definition merge_chains (fails : Stmt -> bool) (now : Z)
  (em ph : option string) (allContacts : list Contact)
  (oldestPrimary : Contact) (others : list Contact) (st : Store)
  : Store * Outcome :=
  let '(st1, ok) := run_updates fails now (id oldestPrimary) others st in
  if negb ok
  then (st1, Reply 500 (error_json "Failed to merge contacts"))
  else
    let hasEmail := has_value em email allContacts in
    let hasPhone := has_value ph phoneNumber allContacts in
    if (negb (truthy em) || hasEmail) && (negb (truthy ph) || hasPhone)
    then respond_chain fails "Failed to get merged contacts"
                       (id oldestPrimary) st1
    else if fails InsertContact
    then (st1, Reply 500 (error_json "Failed to create secondary contact"))
    else respond_chain fails "Failed to get final contacts" (id oldestPrimary)
           (insert_contact now (or_null ph) (or_null em)
                           (Some (id oldestPrimary)) secondary st1).

(** [processContactChains()].  With no chain at all neither branch runs
    and the request is never answered; with several chains and no primary
    among them, reading [oldestPrimary.id] throws inside [.then] and the
    [.catch] handler answers. *)
Definition processContactChains (fails : Stmt -> bool) (now : Z)
  (em ph : option string) (contactChains : ChainMap) (st : Store)
  : Store * Outcome :=
  match contactChains with
  | [] => (st, Hang)
  | [(chainId, contacts)] =>
      let hasEmail := has_value em email contacts in
      let hasPhone := has_value ph phoneNumber contacts in
      if negb hasEmail || negb hasPhone then
        match find (fun c => is_primary (linkPrecedence c)) contacts with
        | None => (st, Crash)
        | Some primaryContact =>
            if fails InsertContact
            then (st, Reply 500 (error_json "Failed to create secondary contact"))
            else respond_chain fails "Failed to refresh contacts"
                   (id primaryContact)
                   (insert_contact now (or_null ph) (or_null em)
                                   (Some (id primaryContact)) secondary st)
        end
      else (st, returnResponse contacts)
  | _ :: _ :: _ =>
      let allContacts := concat (map snd contactChains) in
      match sorted_primaries allContacts with
      | [] => (st, Reply 500 (error_json "Failed to merge contacts"))
      | oldestPrimary :: others =>
          merge_chains fails now em ph allContacts oldestPrimary others st
      end
  end.

(** [app.post('/identify', ...)]: the store after the request and what
    the client receives. *)
Definition identify (fails : Stmt -> bool) (now : Z) (req : Request)
  (st : Store) : Store * Outcome :=
  let em := req_email req in
  let ph := req_phoneNumber req in
  if negb (truthy em) && negb (truthy ph)
  then (st, Reply 400 (error_json "Either email or phoneNumber must be provided"))
  else if fails FindContacts
  then (st, Reply 500 (error_json "Internal server error"))
  else
    match findContactsByEmailOrPhone em ph st with
    | [] =>
        if fails InsertContact
        then (st, Reply 500 (error_json "Failed to create contact"))
        else
          let st1 := insert_contact now (or_null ph) (or_null em) None primary st in
          (st1, Reply 200 (contact_json (mkBody (seq st1) (singleton_if em)
                                                (singleton_if ph) [])))
    | existingContacts =>
        match collectChains fails st existingContacts [] with
        | LookupError => (st, Reply 500 (error_json "Failed to process contacts"))
        | LookupPending => (st, Hang)
        | Collected contactChains =>
            processContactChains fails now em ph contactChains st
        end
    end.

(** ** Notions used in the statements *)

(** The chains a request touches: the [contactChains] Map once every
    lookup has returned its chain. *)
Definition implicated_chains (em ph : option string) (st : Store)
  : option ChainMap :=
  match collectChains never_fails st (findContactsByEmailOrPhone em ph st) [] with
  | Collected m => Some m
  | _ => None
  end.

(** [allContacts.filter(c => c.linkPrecedence === 'primary')] *)
Definition implicated_primaries (m : ChainMap) : list Contact :=
  filter (fun c => is_primary (linkPrecedence c)) (concat (map snd m)).

(** When the request touches two chains or more: [oldestPrimary] and
    [primaryContacts.slice(1)]. *)
Definition merge_plan (em ph : option string) (st : Store)
  : option (Contact * list Contact) :=
  match implicated_chains em ph st with
  | Some ((_ :: _ :: _) as m) =>
      match sorted_primaries (concat (map snd m)) with
      | oldestPrimary :: others => Some (oldestPrimary, others)
      | [] => None
      end
  | _ => None
  end.

(** What one promise of [updatePromises] does to one row. *)
Definition step_row (fails : Stmt -> bool) (now survivor : Z) (d c : Contact)
  : Contact :=
  if fails (UpdatePrecedence (id d)) then c
  else
    let c1 := demote_row now survivor (id d) c in
    if fails (UpdateChildren (id d)) then c1
    else reparent_row now survivor (id d) c1.

(** What the update statements of a merge do to one row. *)
Definition run_row (fails : Stmt -> bool) (now survivor : Z)
  (demoted : list Contact) (c : Contact) : Contact :=
  fold_left (fun c d => step_row fails now survivor d c) demoted c.

(** The same statements in the order of a queue: every demotion first,
    then every re-linking. *)
Definition queued_row (now survivor : Z) (demoted : list Contact) (c : Contact)
  : Contact :=
  fold_left (fun c d => reparent_row now survivor (id d) c) demoted
    (fold_left (fun c d => demote_row now survivor (id d) c) demoted c).

(** A promise resolves when both of its statements succeed. *)
Definition resolves (fails : Stmt -> bool) (d : Contact) : bool :=
  negb (fails (UpdatePrecedence (id d))) && negb (fails (UpdateChildren (id d))).

(** The same in closed form when every statement succeeds, for a survivor
    that is not itself demoted. *)
Definition merged_row (now survivor : Z) (ids : list Z) (c : Contact) : Contact :=
  if existsb (Z.eqb (id c)) ids
  then mkContact (id c) (phoneNumber c) (email c) (Some survivor) secondary
                 (createdAt c) now (deletedAt c)
  else if existsb (fun k => linked_to k c) ids
  then mkContact (id c) (phoneNumber c) (email c) (Some survivor)
                 (linkPrecedence c) (createdAt c) now (deletedAt c)
  else c.

(** A row demoted to a secondary of [survivor]. *)
Definition demoted_to (survivor : Z) (c : Contact) : Prop :=
  linkPrecedence c = secondary /\ linkedId c = Some survivor.

(** A row that a statement of the merge has rewritten. *)
Definition relinked (now survivor : Z) (c : Contact) : Prop :=
  linkedId c = Some survivor /\ updatedAt c = now.

(** The stored facts of a row that no statement of the handler changes. *)
Definition same_facts (c c' : Contact) : Prop :=
  id c' = id c /\ email c' = email c /\ phoneNumber c' = phoneNumber c /\
  createdAt c' = createdAt c /\ deletedAt c' = deletedAt c.

(** The shape of the table that the handler relies on: unique ids,
    primaries without a link, secondaries linked to a primary row (a live
    one when the secondary is live), no empty-string fields. *)
Record WF (st : Store) : Prop := mkWF {
  wf_ids : NoDup (map id (rows st));
  wf_primary : forall c, In c (rows st) ->
      linkPrecedence c = primary -> linkedId c = None;
  wf_secondary : forall c, In c (rows st) ->
      linkPrecedence c = secondary ->
      exists p, In p (rows st) /\ linkedId c = Some (id p) /\
                linkPrecedence p = primary /\ (live c = true -> live p = true);
  wf_fields : forall c, In c (rows st) ->
      email c <> Some ""%string /\ phoneNumber c <> Some ""%string
}.

(** No [linkedId] references a secondary contact. *)
Definition flat (st : Store) : Prop :=
  forall c p, In c (rows st) -> In p (rows st) ->
    linkedId c = Some (id p) -> linkPrecedence p = primary.

(** The reads that come before [processContactChains()] hand no error to
    their callbacks. *)
Definition lookups_succeed (fails : Stmt -> bool) : Prop :=
  fails FindContacts = false /\ forall k, fails (ChainLookup k) = false.

(** The reply to a request whose merge stopped partway. *)
Definition merge_failed (out : Outcome) : Prop :=
  out = Reply 500 (error_json "Failed to merge contacts").

(** The two errors answered when the chain query fails after the INSERT. *)
Definition reload_error (body : json) : Prop :=
  body = error_json "Failed to refresh contacts" \/
  body = error_json "Failed to get final contacts".

(** The ids of the table, and the next one to be handed out, are numbers
    that JavaScript holds exactly. *)
Definition exact_ids (st : Store) : Prop :=
  (forall c, In c (rows st) -> - 2 ^ 53 <= id c) /\ next_id st <= 2 ^ 53.

(** Empty strings stored as NULL. *)
Definition without_empty_strings (c : Contact) : Contact :=
  mkContact (id c) (or_null (phoneNumber c)) (or_null (email c)) (linkedId c)
            (linkPrecedence c) (createdAt c) (updatedAt c) (deletedAt c).

(** The keys of a JSON object, in order. *)
Definition json_keys (j : json) : list string :=
  match j with
  | JObj fields => map fst fields
  | _ => []
  end.

Definition json_field (k : string) (j : json) : option json :=
  match j with
  | JObj fields =>
      match find (fun kv => (fst kv =? k)%string) fields with
      | Some kv => Some (snd kv)
      | None => None
      end
  | _ => None
  end.

(** ** Example tables *)

Definition doc : Contact :=
  mkContact 1 (Some "555-0123"%string) (Some "doc@hillvalley.edu"%string)
            None primary 100 100 None.

Definition doc2 : Contact :=
  mkContact 2 (Some "555-0456"%string) (Some "doc@hillvalley.edu"%string)
            (Some 1) secondary 200 200 None.

Definition marty : Contact :=
  mkContact 3 (Some "marty-phone"%string) None None primary 300 300 None.

Definition marty2 : Contact :=
  mkContact 4 (Some "marty-phone"%string) (Some "marty@hillvalley.edu"%string)
            (Some 3) secondary 400 400 None.

(** A secondary of [marty] that an administrator has soft-deleted. *)
Definition marty_gone : Contact :=
  mkContact 5 (Some "marty-old"%string) None (Some 3) secondary 450 450 (Some 460).

Definition store_doc : Store := mkStore [doc] 1.
Definition store_doc_chain : Store := mkStore [doc; doc2] 2.
Definition store_two_chains : Store := mkStore [doc; doc2; marty; marty2; marty_gone] 5.

(** The table after four requests: [doc], a second phone number for
    [doc], [marty], and an email for [marty]. *)
Definition store_reached : Store := mkStore [doc; doc2; marty; marty2] 4.

(** A store on which re-linking the contacts of [marty] fails. *)
Definition fails_relinking_marty (s : Stmt) : bool :=
  match s with
  | UpdateChildren 3 => true
  | _ => false
  end.

(** Two primaries created within the same second. *)
Definition tie_a : Contact :=
  mkContact 1 (Some "x"%string) (Some "a"%string) None primary 0 0 None.
Definition tie_b : Contact :=
  mkContact 2 (Some "y"%string) (Some "b"%string) None primary 0 0 None.
Definition store_tie : Store := mkStore [tie_a; tie_b] 2.

(** [tie_a] after the request that merges the two. *)
Definition tie_a_demoted : Contact :=
  mkContact 1 (Some "x"%string) (Some "a"%string) (Some 2) secondary 0 5 None.

(** ** The other endpoints and the helper of the server *)

(** The scalar subquery [SELECT COALESCE(linkedId, id) FROM Contact WHERE
    id = ? AND deletedAt IS NULL]: the value of the first such row, NULL
    when there is none. *)
Definition chain_key_of_id (contactId : Z) (st : Store) : option Z :=
  match find (fun c => (id c =? contactId) && live c) (rows st) with
  | Some c => Some (match linkedId c with Some l => l | None => id c end)
  | None => None
  end.

(** [getPrimaryContact(contactId, callback)]: the first row of the
    ordered selection, [None] where [db.get] yields [undefined]. *)
Definition getPrimaryContact (contactId : Z) (st : Store) : option Contact :=
  hd_error
    (sort_by chain_order
       (filter (fun c =>
                  live c &&
                  (((id c =? contactId) && is_primary (linkPrecedence c)) ||
                   match chain_key_of_id contactId st with
                   | Some k => id c =? k
                   | None => false
                   end))
               (rows st))).

(** The [contacts] array of [GET /contacts]. *)
Definition listContacts (st : Store) : list Contact :=
  sort_by chain_order (filter live (rows st)).

(** [DELETE /contacts]: [failed] tells whether the statement reports an
    error.  The table is emptied; the AUTOINCREMENT counter keeps the
    largest rowid that ever existed.  The second component is
    [this.changes], the number of rows deleted, when the statement
    succeeds. *)
Definition clearContacts (failed : bool) (st : Store) : Store * option Z :=
  if failed then (st, None)
  else (mkStore [] (Z.max (seq st) (max_rowid (rows st))),
        Some (Z.of_nat (length (rows st)))).

(** ** The admin page *)

(** [handleIdentify]: the body posted for the two text fields of the
    form, [None] when the guard [!email && !phoneNumber] stops the call.
    [JSON.stringify] leaves out the properties that are [undefined]. *)
Definition or_undefined (v : string) : option string :=
  if (v =? "")%string then None else Some v.

Definition handleIdentify_body (emailField phoneField : string)
  : option Request :=
  if (emailField =? "")%string && (phoneField =? "")%string then None
  else Some (mkRequest (or_undefined emailField) (or_undefined phoneField)).

(** [if (!chains.has(chainId)) chains.set(chainId, []);
    chains.get(chainId).push(contact)] *)
Fixpoint chains_push (k : option Z) (c : Contact) (m : ChainMap) : ChainMap :=
  match m with
  | [] => [(k, [c])]
  | (k', v) :: t =>
      if key_eqb k k' then (k', v ++ [c]) :: t else (k', v) :: chains_push k c t
  end.

(** The comparator of [chain.sort]: [client_order a b] holds when it
    returns a number that is not positive. *)
Definition client_order (a b : Contact) : bool :=
  match linkPrecedence a, linkPrecedence b with
  | primary, secondary => true
  | secondary, primary => false
  | _, _ => createdAt a <=? createdAt b
  end.

(** [getContactChains()] on the [contacts] the page holds. *)
Definition getContactChains (contacts : list Contact) : list (list Contact) :=
  map (fun kv => sort_by client_order (snd kv))
      (fold_left (fun m c => chains_push (chainId_of c) c m) contacts []).

(** ** Further notions used in the statements *)

(** The row an INSERT of the handler adds for a request. *)
Definition inserted_row (now : Z) (em ph : option string) (st : Store)
  (c : Contact) : Prop :=
  id c = next_id st /\ email c = or_null em /\ phoneNumber c = or_null ph /\
  createdAt c = now /\ updatedAt c = now /\ deletedAt c = None.

(** Non-decreasing [createdAt]. *)
Fixpoint by_createdAt (l : list Contact) : Prop :=
  match l with
  | [] => True
  | x :: t => (forall y, In y t -> createdAt x <= createdAt y) /\ by_createdAt t
  end.

(** No secondary is older than the primary it is linked to. *)
Definition primary_oldest (st : Store) : Prop :=
  forall c p, In c (rows st) -> In p (rows st) ->
    linkedId c = Some (id p) -> createdAt p <= createdAt c.

(** Two rows share an email or a phone number. *)
Definition share_value (a b : Contact) : Prop :=
  (exists e, email a = Some e /\ email b = Some e) \/
  (exists n, phoneNumber a = Some n /\ phoneNumber b = Some n).

(** Rows that share a value are in the same chain. *)
Definition linked_up (st : Store) : Prop :=
  forall a b, In a (rows st) -> In b (rows st) ->
    share_value a b -> chainId_of a = chainId_of b.

(** What the writes of a request with a usable field do to a well-formed
    table when they all succeed: [st'] is the table after them, [p] the
    primary of the chain the request belongs to, [G] what happened to each
    stored row and [extra] the rows added. *)
Record rearranges (now : Z) (em ph : option string) (st st' : Store)
  (p : Contact) (G : Contact -> Contact) (extra : list Contact) : Prop :=
mkRearranges {
  ra_rows : rows st' = map G (rows st) ++ extra;
  ra_facts : forall c, same_facts c (G c);
  ra_wf : WF st';
  ra_primary : In p (rows st') /\ linkPrecedence p = primary /\ live p = true;
  ra_matches : forall c, In c (findContactsByEmailOrPhone em ph st) ->
      chainId_of (G c) = Some (id p);
  ra_uniform : forall a b, In a (rows st) -> In b (rows st) ->
      chainId_of a = chainId_of b -> chainId_of (G a) = chainId_of (G b);
  ra_moved : forall c, In c (rows st) ->
      G c = c \/
      (demoted_to (id p) (G c) /\ In p (rows st) /\
       exists d, In d (rows st) /\ linkPrecedence d = primary /\
                 chainId_of c = Some (id d) /\ createdAt p <= createdAt d);
  ra_extra : extra = [] \/
      exists c, extra = [c] /\ inserted_row now em ph st c /\
                chainId_of c = Some (id p) /\
                (c = p \/ linkedId c = Some (id p))
}.

(** What such a request does when no call fails at all: the table is
    rearranged as above, the reply [out] is the view of the chain of [p],
    and the values of the request are in that chain. *)
Record consolidates (now : Z) (em ph : option string) (st st' : Store)
  (out : Outcome) (p : Contact) (G : Contact -> Contact)
  (extra : list Contact) : Prop := mkConsolidates {
  cs_table : rearranges now em ph st st' p G extra;
  cs_reply : exists b,
      out = Reply 200 (contact_json b) /\
      response_body (sort_by chain_order (p :: chain_children st' p)) = Some b;
  cs_email : truthy em = true ->
      exists c, In c (rows st') /\ live c = true /\
                chainId_of c = Some (id p) /\ column_is em (email c) = true;
  cs_phone : truthy ph = true ->
      exists c, In c (rows st') /\ live c = true /\
                chainId_of c = Some (id p) /\ column_is ph (phoneNumber c) = true
}.

(** What the Map of the page holds after the contacts [seen]: under each
    chain id that occurs, the contacts with that chain id, in order. *)
Definition groups_of (seen : list Contact) (m : ChainMap) : Prop :=
  (forall k v, In (k, v) m ->
     v = filter (fun c => key_eqb (chainId_of c) k) seen /\ v <> []) /\
  NoDup (map fst m) /\
  (forall c, In c seen -> In (chainId_of c) (map fst m)).

(** The states the service can be in: those produced from the empty
    table by [/identify] requests and by the admin page's
    [DELETE /contacts], whatever the store does to their statements. *)
Inductive reachable : Store -> Prop :=
| reachable_empty : reachable empty_store
| reachable_identify st fails now req :
    reachable st -> reachable (fst (identify fails now req st))
| reachable_clear st failed :
    reachable st -> reachable (fst (clearContacts failed st)).

(** The same when no merge stopped partway: no request was answered with
    the error of a failed merge.  Every other failure is allowed. *)
Inductive reachable_intact : Store -> Prop :=
| reachable_intact_empty : reachable_intact empty_store
| reachable_intact_identify st fails now req :
    reachable_intact st ->
    ~ merge_failed (snd (identify fails now req st)) ->
    reachable_intact (fst (identify fails now req st))
| reachable_intact_clear st failed :
    reachable_intact st -> reachable_intact (fst (clearContacts failed st)).

(** The same when, moreover, the timestamps of the requests never go
    back: [reachable_at t st] when [st] is reached and no request was
    later than [t]. *)
Inductive reachable_at : Z -> Store -> Prop :=
| reachable_at_empty t : reachable_at t empty_store
| reachable_at_identify t st fails now req :
    reachable_at t st -> t <= now ->
    ~ merge_failed (snd (identify fails now req st)) ->
    reachable_at now (fst (identify fails now req st))
| reachable_at_clear t st failed :
    reachable_at t st -> reachable_at t (fst (clearContacts failed st)).

(** [store_reached] after the request that merges its two chains. *)
Definition marty_demoted : Contact :=
  mkContact 3 (Some "marty-phone"%string) None (Some 1) secondary 300 500 None.

(** The same request when re-linking the contacts of [marty] fails:
    [marty2] is left as it was. *)
Definition store_half_merged : Store :=
  mkStore [doc; doc2; marty_demoted; marty2] 4.

Definition marty2_moved : Contact :=
  mkContact 4 (Some "marty-phone"%string) (Some "marty@hillvalley.edu"%string)
            (Some 1) secondary 400 500 None.

Definition store_merged : Store :=
  mkStore [doc; doc2; marty_demoted; marty2_moved] 4.

(** * Properties *)

(** ** Lists *)

Lemma filter_perm {A : Type} (f : A -> bool) (l l' : list A) :
  Permutation l l' -> Permutation (filter f l) (filter f l').
Proof.
  induction 1 as [|x l l' _ IH|x y l|l l' l'' _ IH1 _ IH2]; simpl.
  - constructor.
  - destruct (f x); [apply perm_skip|]; exact IH.
  - destruct (f x), (f y); try apply Permutation_refl. apply perm_swap.
  - eapply perm_trans; eassumption.
Qed.

Lemma filter_none {A : Type} (f : A -> bool) (l : list A) :
  (forall x, In x l -> f x = false) -> filter f l = [].
Proof.
  induction l as [|x t IH]; intros H; simpl; [reflexivity|].
  rewrite (H x (or_introl eq_refl)). apply IH. intros y Hy. apply H. now right.
Qed.

Lemma filter_single {A : Type} (f : A -> bool) (l : list A) (p : A) :
  NoDup l -> In p l -> f p = true ->
  (forall x, In x l -> f x = true -> x = p) ->
  filter f l = [p].
Proof.
  induction l as [|x t IH]; intros Hnd Hin Hp Hu; [destruct Hin|].
  inversion Hnd as [|? ? Hx Ht]; subst. simpl.
  destruct Hin as [-> | Hin].
  - rewrite Hp. f_equal. apply filter_none. intros y Hy.
    destruct (f y) eqn:E; [|reflexivity].
    assert (y = p) by (apply Hu; [now right | exact E]). subst y. contradiction.
  - destruct (f x) eqn:E.
    + assert (x = p) by (apply Hu; [now left | exact E]). subst x. contradiction.
    + apply IH; auto. intros y Hy. apply Hu. now right.
Qed.

Lemma flat_map_none {A B : Type} (f : A -> list B) (l : list A) :
  (forall x, In x l -> f x = []) -> flat_map f l = [].
Proof.
  induction l as [|x t IH]; intros H; simpl; [reflexivity|].
  rewrite (H x (or_introl eq_refl)). apply IH. intros y Hy. apply H. now right.
Qed.

Lemma find_unique {A : Type} (f : A -> bool) (l : list A) (p : A) :
  In p l -> f p = true -> (forall x, In x l -> f x = true -> x = p) ->
  find f l = Some p.
Proof.
  intros Hin Hp Hu. destruct (find f l) as [x|] eqn:E.
  - apply find_some in E. destruct E as [Hx Hfx]. f_equal. now apply Hu.
  - rewrite (find_none _ _ E p Hin) in Hp. discriminate.
Qed.

Lemma same_id_same_row (l : list Contact) (a b : Contact) :
  NoDup (map id l) -> In a l -> In b l -> id a = id b -> a = b.
Proof.
  induction l as [|x t IH]; intros Hnd Ha Hb Hid; [destruct Ha|].
  simpl in Hnd. inversion Hnd as [|? ? Hx Ht]; subst.
  destruct Ha as [-> | Ha], Hb as [-> | Hb]; auto.
  - exfalso. apply Hx. rewrite Hid. now apply in_map.
  - exfalso. apply Hx. rewrite <- Hid. now apply in_map.
Qed.

Lemma max_rowid_ge (l : list Contact) (c : Contact) :
  In c l -> id c <= max_rowid l.
Proof.
  induction l as [|x t IH]; intros H; [destruct H|]. simpl.
  destruct H as [-> | H]; [lia|]. specialize (IH H). lia.
Qed.

Lemma next_id_fresh (st : Store) : ~ In (next_id st) (map id (rows st)).
Proof.
  intros H. apply in_map_iff in H. destruct H as (c & Hid & Hc).
  apply max_rowid_ge in Hc. unfold next_id in Hid. lia.
Qed.

Lemma or_null_nonempty (v : option string) : or_null v <> Some ""%string.
Proof.
  unfold or_null. destruct v as [s|]; simpl; [|discriminate].
  destruct (String.eqb_spec s ""); simpl; [discriminate | congruence].
Qed.

Lemma linked_to_iff (k : Z) (c : Contact) :
  linked_to k c = true <-> linkedId c = Some k.
Proof.
  unfold linked_to. destruct (linkedId c) as [l|]; [|split; discriminate].
  rewrite Z.eqb_eq. split; congruence.
Qed.

Lemma is_primary_iff (c : Contact) :
  is_primary (linkPrecedence c) = true <-> linkPrecedence c = primary.
Proof. destruct (linkPrecedence c); simpl; split; congruence. Qed.

Lemma is_secondary_iff (c : Contact) :
  is_secondary (linkPrecedence c) = true <-> linkPrecedence c = secondary.
Proof. destruct (linkPrecedence c); simpl; split; congruence. Qed.

(** ** Sorting *)

Section SortingFacts.
Context {A : Type} (le : A -> A -> bool).

Lemma insert_by_perm (x : A) (l : list A) :
  Permutation (insert_by le x l) (x :: l).
Proof.
  induction l as [|y t IH]; simpl.
  - apply Permutation_refl.
  - destruct (le x y).
    + apply Permutation_refl.
    + eapply perm_trans; [apply perm_skip, IH | apply perm_swap].
Qed.

Lemma sort_by_perm (l : list A) : Permutation (sort_by le l) l.
Proof.
  induction l as [|x t IH]; simpl.
  - constructor.
  - eapply perm_trans; [apply insert_by_perm | apply perm_skip, IH].
Qed.

Lemma sort_by_In (l : list A) (x : A) : In x (sort_by le l) <-> In x l.
Proof.
  split; apply Permutation_in;
    [apply sort_by_perm | apply Permutation_sym, sort_by_perm].
Qed.

Lemma sort_by_nil (l : list A) : sort_by le l = [] -> l = [].
Proof.
  intros H. apply Permutation_nil.
  rewrite <- H. apply sort_by_perm.
Qed.
End SortingFacts.

(** The head of a list sorted on [createdAt] is the first of the oldest
    elements of the original list. *)
Lemma sort_createdAt_head (l : list Contact) (o : Contact) (rest : list Contact) :
  sort_by (fun a b => createdAt a <=? createdAt b) l = o :: rest ->
  exists before after,
    l = before ++ o :: after /\
    (forall p, In p before -> createdAt o < createdAt p) /\
    (forall p, In p after -> createdAt o <= createdAt p).
Proof.
  revert o rest. induction l as [|x t IH]; intros o rest H; simpl in H.
  - discriminate.
  - destruct (sort_by (fun a b => createdAt a <=? createdAt b) t)
      as [|y s] eqn:Ht.
    + apply sort_by_nil in Ht. subst t. simpl in H. inversion H; subst.
      exists [], []. simpl. repeat split; intros p [].
    + destruct (IH y s eq_refl) as (b & a & Hl & Hb & Ha).
      simpl in H. destruct (createdAt x <=? createdAt y) eqn:Hxy.
      * inversion H; subst o rest. apply Z.leb_le in Hxy.
        exists [], t. simpl. repeat split; [intros p [] |].
        intros p Hp. rewrite Hl in Hp. apply in_app_or in Hp.
        destruct Hp as [Hp | [Hp | Hp]].
        -- specialize (Hb p Hp). lia.
        -- subst p. lia.
        -- specialize (Ha p Hp). lia.
      * inversion H; subst o rest. apply Z.leb_gt in Hxy.
        exists (x :: b), a. simpl. rewrite Hl. repeat split.
        -- intros p [Hp | Hp]; [subst p; lia | auto].
        -- exact Ha.
  Qed.

(** ** The response builder *)

Lemma set_add_NoDup (s : list string) (x : string) :
  NoDup s -> NoDup (set_add s x).
Proof.
  intros Hs. unfold set_add. destruct (existsb (String.eqb x) s) eqn:E; [exact Hs|].
  apply NoDup_app; [exact Hs | repeat constructor; intros [] | ].
  intros y Hy [<- | []].
  assert (existsb (String.eqb x) s = true); [|congruence].
  apply existsb_exists. exists x. split; [exact Hy | apply String.eqb_refl].
Qed.

Lemma fold_set_add_NoDup (l s : list string) :
  NoDup s -> NoDup (fold_left set_add l s).
Proof.
  revert s. induction l as [|x t IH]; intros s Hs; simpl; [exact Hs|].
  apply IH, set_add_NoDup, Hs.
Qed.

Lemma new_Set_NoDup (l : list string) : NoDup (new_Set l).
Proof. apply fold_set_add_NoDup. constructor. Qed.

Lemma fold_set_add_head (l s : list string) (a : string) :
  hd_error s = Some a -> hd_error (fold_left set_add l s) = Some a.
Proof.
  revert s. induction l as [|x t IH]; intros s Hs; simpl; [exact Hs|].
  apply IH. unfold set_add. destruct (existsb (String.eqb x) s); [exact Hs|].
  destruct s; [discriminate | exact Hs].
Qed.

Lemma new_Set_head (a : string) (l : list string) :
  hd_error (new_Set (a :: l)) = Some a.
Proof. unfold new_Set. simpl. apply fold_set_add_head. reflexivity. Qed.

Lemma fold_set_add_In (l s : list string) (x : string) :
  In x (fold_left set_add l s) -> In x s \/ In x l.
Proof.
  revert s. induction l as [|y t IH]; intros s H; simpl in *; [auto|].
  apply IH in H. destruct H as [H | H]; [|auto].
  unfold set_add in H. destruct (existsb (String.eqb y) s); [auto|].
  apply in_app_or in H. destruct H as [H | [H | []]]; auto.
Qed.

Lemma new_Set_In (l : list string) (x : string) : In x (new_Set l) -> In x l.
Proof.
  intros H. apply fold_set_add_In in H. destruct H as [[] | H]. exact H.
Qed.

Lemma filter_Boolean_nonempty (l : list (option string)) :
  ~ In ""%string (filter_Boolean l).
Proof.
  induction l as [|[s|] t IH]; simpl; auto.
  destruct (String.eqb_spec s ""); [exact IH|].
  simpl. intros [H | H]; [congruence | auto].
Qed.

Lemma filter_Boolean_or_null (v : option string) (l : list (option string)) :
  filter_Boolean (or_null v :: l) = filter_Boolean (v :: l).
Proof.
  unfold or_null. destruct v as [s|]; simpl; [|reflexivity].
  destruct (s =? "")%string eqn:E; simpl; [reflexivity | now rewrite E].
Qed.

Lemma filter_Boolean_map_or_null (l : list (option string)) :
  filter_Boolean (map or_null l) = filter_Boolean l.
Proof.
  induction l as [|v t IH]; [reflexivity|].
  change (map or_null (v :: t)) with (or_null v :: map or_null t).
  rewrite filter_Boolean_or_null. destruct v as [s|]; simpl; rewrite IH; reflexivity.
Qed.

Lemma filter_Boolean_fields (f : Contact -> option string) (p : Contact)
  (l : list Contact) :
  filter_Boolean (or_null (f p) :: map (fun x => or_null (f x)) l) =
  filter_Boolean (f p :: map f l).
Proof.
  rewrite <- (map_map f or_null).
  exact (filter_Boolean_map_or_null (f p :: map f l)).
Qed.

Lemma find_map {A B : Type} (f : B -> bool) (g : A -> B) (l : list A) :
  find f (map g l) = option_map g (find (fun x => f (g x)) l).
Proof.
  induction l as [|x t IH]; simpl; [reflexivity|].
  destruct (f (g x)); [reflexivity | exact IH].
Qed.

Lemma filter_map_comm {A B : Type} (f : B -> bool) (g : A -> B) (l : list A) :
  filter f (map g l) = map g (filter (fun x => f (g x)) l).
Proof.
  induction l as [|x t IH]; simpl; [reflexivity|].
  destruct (f (g x)); simpl; now rewrite IH.
Qed.

(** In the body built from a chain, [emails] and [phoneNumbers] hold no
    value twice, and the primary's email (phone number) comes first
    whenever it is a non-empty string. *)
Lemma response_lists (contacts : list Contact) (b : ContactBody) :
  response_body contacts = Some b ->
  NoDup (emails b) /\ NoDup (phoneNumbers b) /\
  exists p,
    find (fun c => is_primary (linkPrecedence c)) contacts = Some p /\
    primaryContatctId b = id p /\
    (forall e, email p = Some e -> e <> ""%string ->
               hd_error (emails b) = Some e) /\
    (forall n, phoneNumber p = Some n -> n <> ""%string ->
               hd_error (phoneNumbers b) = Some n).
Proof.
  unfold response_body.
  destruct (find (fun c => is_primary (linkPrecedence c)) contacts) as [p|];
    [|discriminate].
  intros H. inversion H; subst b; clear H. simpl.
  split; [apply new_Set_NoDup|]. split; [apply new_Set_NoDup|].
  exists p. repeat split.
  - intros e He Hne. rewrite He.
    apply String.eqb_neq in Hne. rewrite Hne. apply new_Set_head.
  - intros n Hn Hne. rewrite Hn.
    apply String.eqb_neq in Hne. rewrite Hne. apply new_Set_head.
Qed.

(** C9: empty-string emails and phone numbers contribute nothing to the
    response: the body is the one built from the same contacts with those
    fields NULL, and the empty string is in neither list. *)
Theorem empty_strings_omitted_like_nulls (contacts : list Contact) :
  response_body (map without_empty_strings contacts) = response_body contacts /\
  forall b, response_body contacts = Some b ->
            ~ In ""%string (emails b) /\ ~ In ""%string (phoneNumbers b).
Proof.
  split.
  - unfold response_body.
    rewrite find_map, filter_map_comm. simpl.
    destruct (find (fun c => is_primary (linkPrecedence c)) contacts) as [p|];
      simpl; [|reflexivity].
    rewrite !map_map. simpl.
    set (secs := filter (fun c => is_secondary (linkPrecedence c)) contacts).
    f_equal. f_equal.
    + exact (f_equal new_Set (filter_Boolean_fields email p secs)).
    + exact (f_equal new_Set (filter_Boolean_fields phoneNumber p secs)).
  - unfold response_body.
    destruct (find (fun c => is_primary (linkPrecedence c)) contacts) as [p|];
      [|discriminate].
    intros b H. inversion H; subst b; clear H. cbn [emails phoneNumbers].
    set (secs := filter (fun c => is_secondary (linkPrecedence c)) contacts).
    split; intros Hin; apply new_Set_In in Hin.
    + exact (filter_Boolean_nonempty (email p :: map email secs) Hin).
    + exact (filter_Boolean_nonempty (phoneNumber p :: map phoneNumber secs) Hin).
Qed.

Lemma empty_strings_omitted_like_nulls_witness :
  response_body [doc; mkContact 2 (Some ""%string) (Some ""%string) (Some 1)
                                secondary 200 200 None] =
  Some (mkBody 1 ["doc@hillvalley.edu"%string] ["555-0123"%string] [2]) /\
  response_body (map without_empty_strings
                   [doc; mkContact 2 (Some ""%string) (Some ""%string) (Some 1)
                                   secondary 200 200 None]) =
  Some (mkBody 1 ["doc@hillvalley.edu"%string] ["555-0123"%string] [2]).
Proof.
  destruct (empty_strings_omitted_like_nulls
              [doc; mkContact 2 (Some ""%string) (Some ""%string) (Some 1)
                              secondary 200 200 None]) as [H _].
  split; [reflexivity | rewrite H; reflexivity].
Defined.

(** C1 fails on the code: with [doc] stored, a request carrying only
    [doc]'s email (no phoneNumber) inserts a secondary contact. *)
Theorem email_only_request_inserts :
  identify never_fails 500
           (mkRequest (Some "doc@hillvalley.edu"%string) None) store_doc =
  (mkStore [doc; mkContact 2 None (Some "doc@hillvalley.edu"%string) (Some 1)
                           secondary 500 500 None] 2,
   Reply 200 (contact_json (mkBody 1 ["doc@hillvalley.edu"%string]
                                   ["555-0123"%string] [2]))).
Proof. vm_compute. reflexivity. Qed.

(** C3 fails on the code: the chain of [doc] comes back with the
    secondary first and the primary last. *)
Theorem chain_lists_primary_last :
  getAllContactsInChain (Some 1) store_doc_chain = Some [doc2; doc].
Proof. vm_compute. reflexivity. Qed.

(** ** The shape of a successful reply *)

Lemma returnResponse_shape (contacts : list Contact) (status : Z) (body : json) :
  returnResponse contacts = Reply status body ->
  status = 200 /\ exists b, response_body contacts = Some b /\ body = contact_json b.
Proof.
  unfold returnResponse. destruct (response_body contacts) as [b|]; [|discriminate].
  intros H. inversion H. split; [reflexivity|]. exists b. split; reflexivity.
Qed.

Lemma respond_chain_shape (fails : Stmt -> bool) (msg : string) (k : Z)
  (st st' : Store) (body : json) :
  respond_chain fails msg k st = (st', Reply 200 body) ->
  exists b, body = contact_json b.
Proof.
  unfold respond_chain. destruct (fails (ChainReload k)); [discriminate|].
  destruct (getAllContactsInChain (Some k) st); [|discriminate].
  intros H. inversion H as [[Hst Hr]].
  apply returnResponse_shape in Hr. destruct Hr as (_ & b & _ & Hb). now exists b.
Qed.

Lemma processContactChains_shape (fails : Stmt -> bool) (now : Z)
  (em ph : option string) (m : ChainMap) (st st' : Store) (body : json) :
  processContactChains fails now em ph m st = (st', Reply 200 body) ->
  exists b, body = contact_json b.
Proof.
  unfold processContactChains.
  destruct m as [|[k contacts] [|e2 m']]; [discriminate| |].
  - destruct (negb _ || negb _).
    + destruct (find _ contacts) as [p|]; [|discriminate].
      destruct (fails InsertContact); [discriminate|].
      apply respond_chain_shape.
    + intros H. inversion H as [[Hst Hr]].
      apply returnResponse_shape in Hr. destruct Hr as (_ & b & _ & Hb). now exists b.
  - destruct (sorted_primaries _) as [|o others]; [discriminate|].
    unfold merge_chains.
    destruct (run_updates fails now (id o) others st) as [st1 ok].
    destruct ok; simpl; [|discriminate].
    destruct (_ && _); [apply respond_chain_shape|].
    destruct (fails InsertContact); [discriminate|].
    apply respond_chain_shape.
Qed.

(** C8, as the code has it: the body of every successful reply is an
    object with the single key [contact], whose value has exactly the keys
    [primaryContatctId] (a number), [emails] and [phoneNumbers] (arrays of
    strings) and [secondaryContactIds] (an array of numbers). *)
Theorem successful_reply_keys (fails : Stmt -> bool) (now : Z) (req : Request)
  (st st' : Store) (body : json) :
  identify fails now req st = (st', Reply 200 body) ->
  exists (pid : Z) (es ps : list string) (sids : list Z),
    body = JObj [("contact"%string,
                  JObj [("primaryContatctId"%string, JNum pid);
                        ("emails"%string, JArr (map JStr es));
                        ("phoneNumbers"%string, JArr (map JStr ps));
                        ("secondaryContactIds"%string, JArr (map JNum sids))])].
Proof.
  intros H.
  assert (Hb : exists b, body = contact_json b).
  { revert H. unfold identify.
    destruct (negb _ && negb _); [discriminate|].
    destruct (fails FindContacts); [discriminate|].
    destruct (findContactsByEmailOrPhone _ _ st) as [|c0 cs].
    - destruct (fails InsertContact); [discriminate|].
      intros H. inversion H. eexists. reflexivity.
    - destruct (collectChains fails st (c0 :: cs) []) as [m| |];
        [|discriminate|discriminate].
      apply processContactChains_shape. }
  destruct Hb as [b ->].
  exists (primaryContatctId b), (emails b), (phoneNumbers b), (secondaryContactIds b).
  reflexivity.
Qed.

Lemma successful_reply_keys_witness :
  let req := mkRequest (Some "doc@hillvalley.edu"%string)
                       (Some "555-0123"%string) in
  let body := contact_json (mkBody 1 ["doc@hillvalley.edu"%string]
                                   ["555-0123"%string] []) in
  identify never_fails 100 req empty_store = (store_doc, Reply 200 body) /\
  exists (pid : Z) (es ps : list string) (sids : list Z),
    body =
    JObj [("contact"%string,
           JObj [("primaryContatctId"%string, JNum pid);
                 ("emails"%string, JArr (map JStr es));
                 ("phoneNumbers"%string, JArr (map JStr ps));
                 ("secondaryContactIds"%string, JArr (map JNum sids))])].
Proof.
  cbv zeta.
  assert (H : identify never_fails 100
                (mkRequest (Some "doc@hillvalley.edu"%string)
                           (Some "555-0123"%string)) empty_store =
              (store_doc,
               Reply 200 (contact_json (mkBody 1 ["doc@hillvalley.edu"%string]
                                               ["555-0123"%string] []))))
    by (vm_compute; reflexivity).
  split; [exact H|].
  exact (successful_reply_keys never_fails 100 _ empty_store store_doc _ H).
Defined.

(** C8 as stated fails: the reply to the first request on an empty table
    has no key [primaryContactId]; the id is under [primaryContatctId]. *)
Lemma reply_has_no_primaryContactId_key :
  exists body inner,
    identify never_fails 100
      (mkRequest (Some "doc@hillvalley.edu"%string) (Some "555-0123"%string))
      empty_store = (store_doc, Reply 200 body) /\
    json_field "contact" body = Some inner /\
    json_keys inner = ["primaryContatctId"; "emails"; "phoneNumbers";
                       "secondaryContactIds"]%string /\
    json_field "primaryContactId" inner = None /\
    json_field "primaryContatctId" inner = Some (JNum 1).
Proof.
  eexists. eexists. split; [vm_compute; reflexivity|].
  split; [vm_compute; reflexivity|].
  vm_compute. repeat split; reflexivity.
Qed.

(** ** Update statements of a merge, row by row *)

Lemma update_rows_compose (f g : Contact -> Contact) (st : Store) :
  update_rows f (update_rows g st) = update_rows (fun c => f (g c)) st.
Proof. unfold update_rows. simpl. now rewrite map_map. Qed.

Lemma update_rows_ext (f g : Contact -> Contact) (st : Store) :
  (forall c, f c = g c) -> update_rows f st = update_rows g st.
Proof. intros H. unfold update_rows. f_equal. apply map_ext, H. Qed.

Lemma update_rows_id (st : Store) : update_rows (fun c => c) st = st.
Proof. unfold update_rows. rewrite map_id. now destruct st. Qed.

Lemma demote_contact_rows (fails : Stmt -> bool) (now o : Z) (d : Contact)
  (st : Store) :
  demote_contact fails now o d st =
  (update_rows (step_row fails now o d) st, resolves fails d).
Proof.
  unfold demote_contact, step_row, resolves.
  destruct (fails (UpdatePrecedence (id d))); simpl.
  - now rewrite update_rows_id.
  - destruct (fails (UpdateChildren (id d))); simpl; [reflexivity|].
    now rewrite update_rows_compose.
Qed.

Lemma run_updates_rows (fails : Stmt -> bool) (now o : Z) (ds : list Contact)
  (st : Store) :
  run_updates fails now o ds st =
  (update_rows (run_row fails now o ds) st, forallb (resolves fails) ds).
Proof.
  revert st. induction ds as [|d t IH]; intros st; simpl.
  - now rewrite update_rows_id.
  - rewrite demote_contact_rows, IH, update_rows_compose. reflexivity.
Qed.

Section RowFacts.
Variables (fails : Stmt -> bool) (now o : Z).

Lemma demote_row_facts (k : Z) (c : Contact) :
  same_facts c (demote_row now o k c).
Proof.
  unfold demote_row, same_facts. destruct (id c =? k); simpl; repeat split.
Qed.

Lemma reparent_row_facts (k : Z) (c : Contact) :
  same_facts c (reparent_row now o k c).
Proof.
  unfold reparent_row, same_facts.
  destruct (linked_to k c && negb (id c =? k)); simpl; repeat split.
Qed.

Lemma same_facts_trans (a b c : Contact) :
  same_facts a b -> same_facts b c -> same_facts a c.
Proof. unfold same_facts. intuition congruence. Qed.

Lemma same_facts_refl (a : Contact) : same_facts a a.
Proof. unfold same_facts. intuition. Qed.

Lemma step_row_facts (d c : Contact) : same_facts c (step_row fails now o d c).
Proof.
  unfold step_row. destruct (fails (UpdatePrecedence (id d)));
    [apply same_facts_refl|].
  destruct (fails (UpdateChildren (id d))); [apply demote_row_facts|].
  eapply same_facts_trans; [apply demote_row_facts | apply reparent_row_facts].
Qed.

Lemma run_row_facts (ds : list Contact) (c : Contact) :
  same_facts c (run_row fails now o ds c).
Proof.
  revert c. induction ds as [|d t IH]; intros c; simpl;
    [apply same_facts_refl|].
  eapply same_facts_trans; [apply step_row_facts | apply IH].
Qed.

Lemma step_row_keeps_demoted (d c : Contact) :
  demoted_to o c -> demoted_to o (step_row fails now o d c).
Proof.
  unfold demoted_to, step_row, demote_row, reparent_row. intros [Hp Hl].
  destruct (fails (UpdatePrecedence (id d))); [auto|].
  destruct (fails (UpdateChildren (id d)));
    destruct (id c =? id d); simpl; auto.
  - destruct (linked_to _ _ && _); simpl; auto.
  - destruct (linked_to _ _ && _); simpl; auto.
Qed.

Lemma run_row_keeps_demoted (ds : list Contact) (c : Contact) :
  demoted_to o c -> demoted_to o (run_row fails now o ds c).
Proof.
  revert c. induction ds as [|d t IH]; intros c H; simpl; [exact H|].
  apply IH, step_row_keeps_demoted, H.
Qed.

Lemma step_row_demotes (d c : Contact) :
  fails (UpdatePrecedence (id d)) = false -> id c = id d ->
  demoted_to o (step_row fails now o d c).
Proof.
  intros Hf Hid. unfold demoted_to, step_row, demote_row, reparent_row.
  rewrite Hf. rewrite Hid, Z.eqb_refl.
  destruct (fails (UpdateChildren (id d))); simpl; [auto|].
  destruct (linked_to _ _ && _); simpl; auto.
Qed.

Lemma run_row_demotes (ds : list Contact) (d c : Contact) :
  In d ds -> fails (UpdatePrecedence (id d)) = false -> id c = id d ->
  demoted_to o (run_row fails now o ds c).
Proof.
  revert c. induction ds as [|d0 t IH]; intros c Hin Hf Hid; [destruct Hin|].
  simpl. destruct Hin as [-> | Hin].
  - apply run_row_keeps_demoted, step_row_demotes; assumption.
  - apply IH; [assumption | assumption |].
    destruct (step_row_facts d0 c) as (H & _). congruence.
Qed.
End RowFacts.

Section RelinkFacts.
Variables (now o : Z).

Lemma step_row_cases (d c : Contact) :
  step_row never_fails now o d c = c \/
  relinked now o (step_row never_fails now o d c).
Proof.
  unfold step_row, never_fails, demote_row, reparent_row, relinked.
  destruct (id c =? id d); simpl.
  - right. destruct (linked_to _ _ && _); simpl; auto.
  - destruct (linked_to _ _ && _); simpl; auto.
Qed.

Lemma step_row_keeps_relinked (d c : Contact) :
  relinked now o c -> relinked now o (step_row never_fails now o d c).
Proof.
  intros H. destruct (step_row_cases d c) as [-> | H']; assumption.
Qed.

Lemma run_row_keeps_relinked (ds : list Contact) (c : Contact) :
  relinked now o c -> relinked now o (run_row never_fails now o ds c).
Proof.
  revert c. induction ds as [|d t IH]; intros c H; simpl; [exact H|].
  apply IH, step_row_keeps_relinked, H.
Qed.

Lemma step_row_relinks (d c : Contact) :
  linkedId c = Some (id d) ->
  relinked now o (step_row never_fails now o d c).
Proof.
  intros Hl. unfold step_row, never_fails, demote_row, reparent_row, relinked.
  destruct (id c =? id d) eqn:Hid.
  - cbn [id]. rewrite Hid, andb_false_r. simpl. auto.
  - rewrite Hid. unfold linked_to. rewrite Hl, Z.eqb_refl. simpl. auto.
Qed.

Lemma run_row_relinks (ds : list Contact) (d c : Contact) :
  In d ds -> linkedId c = Some (id d) ->
  relinked now o (run_row never_fails now o ds c).
Proof.
  revert c. induction ds as [|d0 t IH]; intros c Hin Hl; [destruct Hin|].
  simpl. destruct Hin as [-> | Hin].
  - apply run_row_keeps_relinked, step_row_relinks; assumption.
  - destruct (step_row_cases d0 c) as [-> | H].
    + apply IH; assumption.
    + apply run_row_keeps_relinked, H.
Qed.
End RelinkFacts.

(** ** The merge branch of the handler *)

Lemma respond_chain_store (fails : Stmt -> bool) (msg : string) (k : Z)
  (st : Store) :
  fst (respond_chain fails msg k st) = st.
Proof.
  unfold respond_chain. destruct (fails (ChainReload k)); [reflexivity|].
  now destruct (getAllContactsInChain (Some k) st).
Qed.

Lemma never_fails_lookups : lookups_succeed never_fails.
Proof. split; [reflexivity | intros k; reflexivity]. Qed.

(** When no lookup fails the loop does what it does on a store that never
    fails; and it collects the same chains whenever it collects them. *)
Lemma collectChains_succeed (fails : Stmt -> bool) (st : Store)
  (l : list Contact) (m0 : ChainMap) :
  (forall k, fails (ChainLookup k) = false) ->
  collectChains fails st l m0 = collectChains never_fails st l m0.
Proof.
  intros Hf. revert m0. induction l as [|c t IH]; intros m0; simpl;
    [reflexivity|].
  rewrite Hf. destruct (getAllContactsInChain (chainId_of c) st); auto.
Qed.

Lemma collectChains_collected (fails : Stmt -> bool) (st : Store)
  (l : list Contact) (m0 m : ChainMap) :
  collectChains fails st l m0 = Collected m ->
  collectChains never_fails st l m0 = Collected m.
Proof.
  revert m0. induction l as [|c t IH]; intros m0; simpl; [auto|].
  destruct (fails (ChainLookup (chainId_of c))); [discriminate|].
  destruct (getAllContactsInChain (chainId_of c) st); auto.
Qed.

(** Without a usable field the query has no condition that holds. *)
Lemma findContacts_invalid (em ph : option string) (st : Store) :
  truthy em = false -> truthy ph = false ->
  findContactsByEmailOrPhone em ph st = [].
Proof.
  intros H1 H2. unfold findContactsByEmailOrPhone. rewrite H1, H2.
  rewrite !filter_none; [reflexivity | |]; intros c _; apply andb_false_r.
Qed.

Lemma merge_plan_truthy (em ph : option string) (st : Store)
  (plan : Contact * list Contact) :
  merge_plan em ph st = Some plan -> truthy em || truthy ph = true.
Proof.
  unfold merge_plan, implicated_chains.
  destruct (truthy em) eqn:H1, (truthy ph) eqn:H2; try reflexivity.
  rewrite (findContacts_invalid em ph st H1 H2). simpl. discriminate.
Qed.

(** A request with a merge plan reaches the merge when its lookups
    succeed. *)
Lemma identify_merge (fails : Stmt -> bool) (now : Z) (em ph : option string)
  (st : Store) (o : Contact) (others : list Contact) :
  lookups_succeed fails ->
  merge_plan em ph st = Some (o, others) ->
  exists m,
    implicated_chains em ph st = Some m /\
    sorted_primaries (concat (map snd m)) = o :: others /\
    identify fails now (mkRequest em ph) st =
    merge_chains fails now em ph (concat (map snd m)) o others st.
Proof.
  intros [Hfind Hlook] Hplan.
  pose proof (merge_plan_truthy em ph st _ Hplan) as Htruthy.
  revert Hplan. unfold merge_plan, implicated_chains. intros Hplan.
  destruct (collectChains never_fails st (findContactsByEmailOrPhone em ph st) [])
    as [m| |] eqn:Hm; try discriminate.
  destruct m as [|e1 [|e2 m']]; try discriminate.
  destruct (sorted_primaries _) as [|o' others'] eqn:Hs; [discriminate|].
  inversion Hplan; subst o' others'; clear Hplan.
  destruct e1 as [k1 v1].
  exists ((k1, v1) :: e2 :: m'). split; [reflexivity|]. split; [exact Hs|].
  unfold identify. cbn [req_email req_phoneNumber].
  replace (negb (truthy em) && negb (truthy ph)) with false
    by (destruct (truthy em), (truthy ph); simpl in *; congruence).
  rewrite Hfind.
  destruct (findContactsByEmailOrPhone em ph st) as [|c0 cs] eqn:Hf.
  - simpl in Hm. discriminate.
  - rewrite (collectChains_succeed fails st _ _ Hlook), Hm.
    unfold processContactChains. rewrite Hs. reflexivity.
Qed.

Lemma merge_chains_rows (fails : Stmt -> bool) (now : Z) (em ph : option string)
  (all : list Contact) (o : Contact) (others : list Contact) (st : Store) :
  exists extra,
    rows (fst (merge_chains fails now em ph all o others st)) =
    map (run_row fails now (id o) others) (rows st) ++ extra /\
    forall x, In x extra -> ~ In (id x) (map id (rows st)).
Proof.
  assert (Hnil : forall l : list Contact, l = l ++ [] /\
            forall x, In x [] -> ~ In (id x) (map id (rows st))).
  { intros l. rewrite app_nil_r. split; [reflexivity | intros x []]. }
  unfold merge_chains. rewrite run_updates_rows.
  destruct (negb _); [exists []; apply Hnil|].
  destruct (_ && _).
  - rewrite respond_chain_store. exists []. apply Hnil.
  - destruct (fails InsertContact).
    + exists []. apply Hnil.
    + rewrite respond_chain_store. eexists. split; [reflexivity|].
      intros x [<- | []]. cbn [id]. intros Hin.
      apply (next_id_fresh (update_rows (run_row fails now (id o) others) st)).
      unfold update_rows at 2. cbn [rows]. rewrite map_map.
      erewrite map_ext; [exact Hin|].
      intros c. apply (run_row_facts fails now (id o) others c).
Qed.

Lemma merge_chains_rejected (fails : Stmt -> bool) (now : Z)
  (em ph : option string) (all : list Contact) (o : Contact)
  (others : list Contact) (st : Store) :
  forallb (resolves fails) others = false ->
  merge_chains fails now em ph all o others st =
  (update_rows (run_row fails now (id o) others) st,
   Reply 500 (error_json "Failed to merge contacts")).
Proof.
  intros H. unfold merge_chains. rewrite run_updates_rows, H. reflexivity.
Qed.

(** C4, as the code has it: when the reads of a request succeed and a
    statement of its merge fails, the client gets status 500 and no
    contact is inserted, but nothing is rolled back: every row keeps its
    id, and each demotion whose statement succeeded stays in the table. *)
Theorem failed_merge_keeps_partial_updates (fails : Stmt -> bool) (now : Z)
  (em ph : option string) (st : Store) (o : Contact) (others : list Contact) :
  lookups_succeed fails ->
  merge_plan em ph st = Some (o, others) ->
  forallb (resolves fails) others = false ->
  let r := identify fails now (mkRequest em ph) st in
  snd r = Reply 500 (error_json "Failed to merge contacts") /\
  map id (rows (fst r)) = map id (rows st) /\
  forall d c', In d others -> fails (UpdatePrecedence (id d)) = false ->
               In c' (rows (fst r)) -> id c' = id d ->
               linkPrecedence c' = secondary /\ linkedId c' = Some (id o).
Proof.
  intros Hread Hplan Hrej r. subst r.
  destruct (identify_merge fails now em ph st o others Hread Hplan)
    as (m & _ & _ & ->).
  rewrite merge_chains_rejected by exact Hrej. cbn [fst snd].
  split; [reflexivity|]. split.
  - unfold update_rows. cbn [rows]. rewrite map_map. apply map_ext.
    intros c. apply (run_row_facts fails now (id o) others c).
  - intros d c' Hd Hf Hin Hid. unfold update_rows in Hin. cbn [rows] in Hin.
    apply in_map_iff in Hin. destruct Hin as (c & <- & Hc).
    apply (run_row_demotes fails now (id o) others d c Hd Hf).
    destruct (run_row_facts fails now (id o) others c) as (H & _). congruence.
Qed.

Lemma failed_merge_keeps_partial_updates_witness :
  let em := Some "doc@hillvalley.edu"%string in
  let ph := Some "marty-phone"%string in
  let r := identify fails_relinking_marty 500 (mkRequest em ph) store_reached in
  (lookups_succeed fails_relinking_marty /\
   merge_plan em ph store_reached = Some (doc, [marty]) /\
   forallb (resolves fails_relinking_marty) [marty] = false) /\
  snd r = Reply 500 (error_json "Failed to merge contacts") /\
  map id (rows (fst r)) = map id (rows store_reached) /\
  forall d c', In d [marty] ->
               fails_relinking_marty (UpdatePrecedence (id d)) = false ->
               In c' (rows (fst r)) -> id c' = id d ->
               linkPrecedence c' = secondary /\ linkedId c' = Some (id doc).
Proof.
  cbv zeta.
  assert (Hplan : merge_plan (Some "doc@hillvalley.edu"%string)
                             (Some "marty-phone"%string) store_reached =
                  Some (doc, [marty])) by (vm_compute; reflexivity).
  assert (Hrej : forallb (resolves fails_relinking_marty) [marty] = false)
    by reflexivity.
  assert (Hread : lookups_succeed fails_relinking_marty)
    by (split; [reflexivity | intros k; reflexivity]).
  split; [split; [exact Hread | split; assumption]|].
  exact (failed_merge_keeps_partial_updates fails_relinking_marty 500 _ _
           store_reached doc [marty] Hread Hplan Hrej).
Defined.

(** C4 as stated fails: when re-linking the contacts of [marty] fails,
    [marty] stays demoted and [marty2] still points at it, so the table
    has changed and a [linkedId] references a secondary contact. *)
Lemma failed_merge_leaves_marty_demoted :
  let r := identify fails_relinking_marty 500
             (mkRequest (Some "doc@hillvalley.edu"%string)
                        (Some "marty-phone"%string)) store_reached in
  flat store_reached /\
  r = (mkStore [doc; doc2;
                mkContact 3 (Some "marty-phone"%string) None (Some 1) secondary
                          300 500 None;
                marty2] 4,
       Reply 500 (error_json "Failed to merge contacts")) /\
  fst r <> store_reached /\ ~ flat (fst r).
Proof.
  cbv zeta.
  assert (E : identify fails_relinking_marty 500
                (mkRequest (Some "doc@hillvalley.edu"%string)
                           (Some "marty-phone"%string)) store_reached =
              (mkStore [doc; doc2;
                        mkContact 3 (Some "marty-phone"%string) None (Some 1)
                                  secondary 300 500 None;
                        marty2] 4,
               Reply 500 (error_json "Failed to merge contacts")))
    by (vm_compute; reflexivity).
  rewrite E. cbn [fst]. split; [|split; [reflexivity|split]].
  - intros c p Hc Hp Hl. simpl in Hc, Hp.
    destruct Hp as [<- | [<- | [<- | [<- | []]]]];
      destruct Hc as [<- | [<- | [<- | [<- | []]]]];
      simpl in Hl; try reflexivity; discriminate.
  - discriminate.
  - intros Hflat.
    specialize (Hflat marty2
                  (mkContact 3 (Some "marty-phone"%string) None (Some 1)
                             secondary 300 500 None)).
    simpl in Hflat. discriminate Hflat; auto.
Qed.

(** ** Chains in a well-formed table *)

(** Every row of a chain is a live row of the table. *)
Lemma contact_chain_rows (st : Store) (fuel : nat) (frontier l : list Contact) :
  contact_chain fuel st frontier = Some l ->
  forall c, In c l -> In c frontier \/ (In c (rows st) /\ live c = true).
Proof.
  revert frontier l. induction fuel as [|n IH]; intros frontier l H c Hc.
  - destruct frontier; simpl in H; [|discriminate].
    inversion H; subst. destruct Hc.
  - destruct frontier as [|x t]; simpl in H.
    + inversion H; subst. destruct Hc.
    + destruct (contact_chain n st _) as [rest|] eqn:E; [|discriminate].
      inversion H; subst l; clear H.
      change (x :: t ++ rest) with ((x :: t) ++ rest) in Hc.
      apply in_app_or in Hc. destruct Hc as [Hc | Hc]; [now left|].
      destruct (IH _ _ E c Hc) as [Hf | Hr]; [|now right].
      right.
      change (In c (flat_map (chain_children st) (x :: t))) in Hf.
      apply in_flat_map in Hf. destruct Hf as (cc & _ & Hcc).
      unfold chain_children in Hcc. apply filter_In in Hcc.
      destruct Hcc as [Hin Hb]. apply andb_true_iff in Hb. tauto.
Qed.

Lemma chain_roots_rows (st : Store) (k : option Z) (c : Contact) :
  In c (chain_roots k st) ->
  In c (rows st) /\ live c = true /\ linkPrecedence c = primary /\
  exists k', k = Some k' /\ (id c = k' \/ linkedId c = Some k').
Proof.
  unfold chain_roots. destruct k as [k'|]; [|intros []].
  intros H. apply filter_In in H. destruct H as [Hin Hb].
  apply andb_true_iff in Hb. destruct Hb as [Hb Hp].
  apply andb_true_iff in Hb. destruct Hb as [Hk Hl].
  apply is_primary_iff in Hp. apply orb_true_iff in Hk.
  repeat split; auto. exists k'. split; [reflexivity|].
  destruct Hk as [Hk | Hk]; [left; now apply Z.eqb_eq | right; now apply linked_to_iff].
Qed.

Lemma chain_rows (st : Store) (k : option Z) (l : list Contact) (c : Contact) :
  getAllContactsInChain k st = Some l -> In c l ->
  In c (rows st) /\ live c = true.
Proof.
  unfold getAllContactsInChain.
  destruct (contact_chain _ st _) as [l0|] eqn:E; [|discriminate].
  intros H Hc. inversion H; subst l; clear H.
  apply sort_by_In in Hc.
  destruct (contact_chain_rows _ _ _ _ E c Hc) as [Hr | Hr]; [|exact Hr].
  apply chain_roots_rows in Hr. tauto.
Qed.

Section WellFormedChains.
Variable st : Store.
Hypothesis Hwf : WF st.

Lemma wf_rows_NoDup : NoDup (rows st).
Proof. apply (NoDup_map_inv id), (wf_ids st Hwf). Qed.

Lemma wf_same_id (a b : Contact) :
  In a (rows st) -> In b (rows st) -> id a = id b -> a = b.
Proof. apply same_id_same_row, (wf_ids st Hwf). Qed.

(** A link never leads to a secondary contact. *)
Lemma wf_flat : flat st.
Proof.
  intros c p Hc Hp Hl.
  destruct (linkPrecedence c) eqn:Ec.
  - rewrite (wf_primary st Hwf c Hc Ec) in Hl. discriminate.
  - destruct (wf_secondary st Hwf c Hc Ec) as (q & Hq & Hlq & Hpq & _).
    assert (q = p) by (apply wf_same_id; congruence). now subst q.
Qed.

Lemma wf_link_target (c : Contact) (k : Z) :
  In c (rows st) -> linkedId c = Some k ->
  linkPrecedence c = secondary /\
  exists p, In p (rows st) /\ id p = k /\ linkPrecedence p = primary /\
            (live c = true -> live p = true).
Proof.
  intros Hc Hl. destruct (linkPrecedence c) eqn:Ec.
  - rewrite (wf_primary st Hwf c Hc Ec) in Hl. discriminate.
  - split; [reflexivity|].
    destruct (wf_secondary st Hwf c Hc Ec) as (q & Hq & Hlq & Hpq & Hlive).
    exists q. repeat split; auto. congruence.
Qed.

Lemma chain_roots_primary (p : Contact) :
  In p (rows st) -> linkPrecedence p = primary -> live p = true ->
  chain_roots (Some (id p)) st = [p].
Proof.
  intros Hp Hprim Hlive. unfold chain_roots.
  apply filter_single; [apply wf_rows_NoDup | exact Hp | |].
  - rewrite Z.eqb_refl, Hlive, Hprim. reflexivity.
  - intros c Hc Hb.
    apply andb_true_iff in Hb. destruct Hb as [Hb Hpc].
    apply andb_true_iff in Hb. destruct Hb as [Hk _].
    apply is_primary_iff in Hpc. apply orb_true_iff in Hk.
    destruct Hk as [Hk | Hk].
    + apply Z.eqb_eq in Hk. now apply wf_same_id.
    + apply linked_to_iff in Hk.
      rewrite (wf_primary st Hwf c Hc Hpc) in Hk. discriminate.
Qed.

Lemma chain_children_In (p c : Contact) :
  In c (chain_children st p) <->
  In c (rows st) /\ linkedId c = Some (id p) /\ live c = true.
Proof.
  unfold chain_children. rewrite filter_In, andb_true_iff, linked_to_iff.
  tauto.
Qed.

Lemma chain_children_secondary (p c : Contact) :
  In c (chain_children st p) -> linkPrecedence c = secondary.
Proof.
  intros H. apply chain_children_In in H. destruct H as (Hc & Hl & _).
  destruct (linkPrecedence c) eqn:Ec; [|reflexivity].
  rewrite (wf_primary st Hwf c Hc Ec) in Hl. discriminate.
Qed.

Lemma children_of_secondary (c : Contact) :
  In c (rows st) -> linkPrecedence c = secondary -> chain_children st c = [].
Proof.
  intros Hc Hsec. unfold chain_children. apply filter_none. intros r Hr.
  destruct (linked_to (id c) r) eqn:E; [|reflexivity].
  apply linked_to_iff in E.
  assert (linkPrecedence c = primary) by (apply (wf_flat r c); assumption).
  congruence.
Qed.

Lemma chain_of_primary (p : Contact) :
  In p (rows st) -> linkPrecedence p = primary -> live p = true ->
  getAllContactsInChain (Some (id p)) st =
  Some (sort_by chain_order (p :: chain_children st p)).
Proof.
  intros Hp Hprim Hlive. unfold getAllContactsInChain.
  rewrite (chain_roots_primary p Hp Hprim Hlive).
  cbn [contact_chain flat_map]. rewrite app_nil_r.
  assert (Hkids : contact_chain (length (rows st)) st (chain_children st p) =
                  Some (chain_children st p)).
  { destruct (chain_children st p) as [|x t] eqn:E; [now destruct (length _)|].
    destruct (rows st) as [|r0 rs] eqn:Er; [destruct Hp|].
    rewrite <- Er, <- E.
    replace (length (rows st)) with (S (length rs)) by (now rewrite Er).
    assert (Hnil : flat_map (chain_children st) (chain_children st p) = []).
    { apply flat_map_none. intros c Hc. apply children_of_secondary.
      - apply chain_children_In in Hc. tauto.
      - exact (chain_children_secondary p c Hc). }
    rewrite E at 1. cbn [contact_chain]. rewrite <- E, Hnil.
    destruct (length rs); simpl; now rewrite app_nil_r. }
  rewrite Hkids. reflexivity.
Qed.

(** A chain is empty or the chain of a live primary row. *)
Lemma chain_of_key (k : option Z) (l : list Contact) :
  getAllContactsInChain k st = Some l ->
  l = [] \/
  exists p, In p (rows st) /\ linkPrecedence p = primary /\ live p = true /\
            k = Some (id p) /\
            l = sort_by chain_order (p :: chain_children st p).
Proof.
  intros H. destruct (chain_roots k st) as [|r rs] eqn:Er.
  - left. unfold getAllContactsInChain in H. rewrite Er in H. simpl in H.
    now inversion H.
  - right. assert (Hr : In r (chain_roots k st)) by (rewrite Er; now left).
    apply chain_roots_rows in Hr.
    destruct Hr as (Hin & Hlive & Hprim & k' & -> & Hk).
    destruct Hk as [Hk | Hk];
      [|rewrite (wf_primary st Hwf r Hin Hprim) in Hk; discriminate].
    subst k'. exists r. repeat split; auto.
    rewrite (chain_of_primary r Hin Hprim Hlive) in H. now inversion H.
Qed.

(** Every live row is in the chain of a live primary row. *)
Lemma chain_of_row (c : Contact) :
  In c (rows st) -> live c = true ->
  exists p, In p (rows st) /\ linkPrecedence p = primary /\ live p = true /\
            chainId_of c = Some (id p) /\ In c (p :: chain_children st p).
Proof.
  intros Hc Hlive. unfold chainId_of.
  destruct (linkPrecedence c) eqn:Ec; cbn [is_primary].
  - exists c. repeat split; auto. now left.
  - destruct (wf_secondary st Hwf c Hc Ec) as (q & Hq & Hlq & Hpq & Hlq').
    exists q. repeat split; auto. right. apply chain_children_In. auto.
Qed.

Lemma chain_member_key (p c : Contact) :
  In p (rows st) -> linkPrecedence p = primary ->
  In c (p :: chain_children st p) -> chainId_of c = Some (id p).
Proof.
  intros Hp Hprim [<- | Hc]; unfold chainId_of.
  - now rewrite Hprim.
  - rewrite (chain_children_secondary p c Hc). simpl.
    apply chain_children_In in Hc. tauto.
Qed.

Lemma chain_key_member (p c : Contact) :
  In p (rows st) -> In c (rows st) -> live c = true ->
  chainId_of c = Some (id p) -> In c (p :: chain_children st p).
Proof.
  intros Hp Hc Hlive Hk. unfold chainId_of in Hk.
  destruct (linkPrecedence c); simpl in Hk.
  - left. apply wf_same_id; congruence.
  - right. apply chain_children_In. auto.
Qed.

Lemma chain_primaries (p : Contact) :
  linkPrecedence p = primary ->
  filter (fun c => is_primary (linkPrecedence c))
         (sort_by chain_order (p :: chain_children st p)) = [p].
Proof.
  intros Hprim. apply Permutation_length_1_inv.
  eapply perm_trans;
    [|apply filter_perm, Permutation_sym, sort_by_perm].
  simpl. rewrite Hprim. simpl.
  rewrite filter_none; [apply Permutation_refl|].
  intros c Hc. now rewrite (chain_children_secondary p c Hc).
Qed.

Lemma chain_primary_found (p : Contact) :
  linkPrecedence p = primary ->
  find (fun c => is_primary (linkPrecedence c))
       (sort_by chain_order (p :: chain_children st p)) = Some p.
Proof.
  intros Hprim. apply find_unique.
  - apply sort_by_In. now left.
  - now rewrite Hprim.
  - intros c Hc Hpc. apply sort_by_In in Hc. destruct Hc as [<- | Hc]; auto.
    rewrite (chain_children_secondary p c Hc) in Hpc. discriminate.
Qed.
End WellFormedChains.

(** ** The closed form of a merge *)

Lemma existsb_eqb_In (k : Z) (ids : list Z) :
  existsb (Z.eqb k) ids = true <-> In k ids.
Proof.
  rewrite existsb_exists. split.
  - intros (x & Hx & E). apply Z.eqb_eq in E. now subst.
  - intros H. exists k. split; [exact H | apply Z.eqb_refl].
Qed.

Lemma existsb_linked_In (c : Contact) (ids : list Z) :
  existsb (fun k => linked_to k c) ids = true <->
  exists k, linkedId c = Some k /\ In k ids.
Proof.
  rewrite existsb_exists. split.
  - intros (k & Hk & E). apply linked_to_iff in E. eauto.
  - intros (k & Hl & Hk). exists k. split; [exact Hk | now apply linked_to_iff].
Qed.

Lemma merged_row_step (now o : Z) (d : Contact) (ids : list Z) (c : Contact) :
  o <> id d -> ~ In o ids ->
  merged_row now o ids (step_row never_fails now o d c) =
  merged_row now o (id d :: ids) c.
Proof.
  intros Hod Hoi.
  assert (Hno : forall c', linkedId c' = Some o ->
                existsb (fun k => linked_to k c') ids = false).
  { intros c' Hl. destruct (existsb _ ids) eqn:E; [|reflexivity].
    apply existsb_linked_In in E. destruct E as (k & Hk & Hin). congruence. }
  unfold step_row, never_fails, demote_row, reparent_row.
  destruct (id c =? id d) eqn:Eid.
  - unfold linked_to at 1. cbn [linkedId id].
    replace (o =? id d) with false by (symmetry; now apply Z.eqb_neq).
    cbn [andb]. unfold merged_row. cbn [id existsb phoneNumber email createdAt deletedAt].
    rewrite Eid. cbn [orb].
    destruct (existsb (Z.eqb (id c)) ids); [reflexivity|].
    rewrite Hno; reflexivity.
  - rewrite Eid. cbn [negb]. rewrite andb_true_r.
    destruct (linked_to (id d) c) eqn:El.
    + unfold merged_row.
      cbn [id existsb phoneNumber email createdAt deletedAt linkPrecedence].
      rewrite Eid, El. cbn [orb].
      destruct (existsb (Z.eqb (id c)) ids); [reflexivity|].
      rewrite Hno; reflexivity.
    + unfold merged_row. cbn [existsb]. rewrite Eid, El. reflexivity.
Qed.

Lemma run_row_closed (now o : Z) (ds : list Contact) (c : Contact) :
  ~ In o (map id ds) ->
  run_row never_fails now o ds c = merged_row now o (map id ds) c.
Proof.
  revert c. induction ds as [|d t IH]; intros c Ho.
  - unfold merged_row. simpl. reflexivity.
  - simpl in Ho. cbn [run_row fold_left map].
    change (fold_left (fun c0 d0 => step_row never_fails now o d0 c0) t
                      (step_row never_fails now o d c))
      with (run_row never_fails now o t (step_row never_fails now o d c)).
    rewrite IH by tauto.
    apply merged_row_step; [intros E; apply Ho; left; now symmetry | tauto].
Qed.

Lemma demote_all_closed (now o : Z) (ds : list Contact) (c : Contact) :
  fold_left (fun c d => demote_row now o (id d) c) ds c =
  if existsb (Z.eqb (id c)) (map id ds)
  then mkContact (id c) (phoneNumber c) (email c) (Some o) secondary
                 (createdAt c) now (deletedAt c)
  else c.
Proof.
  revert c. induction ds as [|d t IH]; intros c; [reflexivity|].
  cbn [fold_left map existsb]. rewrite IH. unfold demote_row.
  destruct (id c =? id d); cbn [id orb phoneNumber email createdAt deletedAt].
  - now destruct (existsb (Z.eqb (id c)) (map id t)).
  - reflexivity.
Qed.

Lemma reparent_all_closed (now o : Z) (ds : list Contact) (c : Contact) :
  ~ In o (map id ds) ->
  fold_left (fun c d => reparent_row now o (id d) c) ds c =
  if existsb (fun k => linked_to k c && negb (id c =? k)) (map id ds)
  then mkContact (id c) (phoneNumber c) (email c) (Some o) (linkPrecedence c)
                 (createdAt c) now (deletedAt c)
  else c.
Proof.
  revert c. induction ds as [|d t IH]; intros c Ho; [reflexivity|].
  simpl in Ho. cbn [fold_left map existsb]. rewrite IH by tauto.
  unfold reparent_row.
  destruct (linked_to (id d) c && negb (id c =? id d)); cbn [orb]; [|reflexivity].
  replace (existsb _ (map id t)) with false; [reflexivity|].
  symmetry. apply not_true_is_false. intros E.
  apply existsb_exists in E. destruct E as (k & Hk & E).
  apply andb_true_iff in E. destruct E as [E _].
  unfold linked_to in E. cbn [linkedId] in E. apply Z.eqb_eq in E.
  subst k. tauto.
Qed.

Lemma queued_row_closed (now o : Z) (ds : list Contact) (c : Contact) :
  ~ In o (map id ds) ->
  queued_row now o ds c = merged_row now o (map id ds) c.
Proof.
  intros Ho. unfold queued_row, merged_row.
  rewrite demote_all_closed, reparent_all_closed by exact Ho.
  destruct (existsb (Z.eqb (id c)) (map id ds)) eqn:E1.
  - replace (existsb _ (map id ds)) with false; [reflexivity|].
    symmetry. apply not_true_is_false. intros E.
    apply existsb_exists in E. destruct E as (k & Hk & E).
    apply andb_true_iff in E. destruct E as [E _].
    unfold linked_to in E. cbn [linkedId] in E. apply Z.eqb_eq in E.
    subst k. contradiction.
  - replace (existsb (fun k => linked_to k c && negb (id c =? k)) (map id ds))
      with (existsb (fun k => linked_to k c) (map id ds)); [reflexivity|].
    clear Ho. induction (map id ds) as [|k t IH]; [reflexivity|].
    cbn [existsb] in *. apply orb_false_iff in E1. destruct E1 as [Ek Et].
    rewrite Ek, IH by exact Et. cbn [negb]. now rewrite andb_true_r.
Qed.

(** The table after a merge does not depend on whether each demotion is
    followed by its re-linking or all demotions come first. *)
Lemma queued_row_run_row (now o : Z) (ds : list Contact) (c : Contact) :
  ~ In o (map id ds) ->
  queued_row now o ds c = run_row never_fails now o ds c.
Proof.
  intros Ho. now rewrite queued_row_closed, run_row_closed.
Qed.

Lemma merged_row_facts (now o : Z) (ids : list Z) (c : Contact) :
  same_facts c (merged_row now o ids c).
Proof.
  unfold merged_row, same_facts.
  destruct (existsb _ ids); [simpl; tauto|].
  destruct (existsb _ ids); simpl; tauto.
Qed.

Lemma merged_row_live (now o : Z) (ids : list Z) (c : Contact) :
  live (merged_row now o ids c) = live c.
Proof.
  unfold live. destruct (merged_row_facts now o ids c) as (_ & _ & _ & _ & ->).
  reflexivity.
Qed.

(** ** Well-formedness is kept *)

Lemma WF_empty : WF empty_store.
Proof.
  constructor; simpl; try (intros c []). constructor.
Qed.

Lemma WF_insert (now : Z) (ph em : option string) (link : option Z)
  (prec : LinkPrecedence) (st : Store) :
  WF st ->
  match prec with
  | primary => link = None
  | secondary => exists p, In p (rows st) /\ link = Some (id p) /\
                           linkPrecedence p = primary /\ live p = true
  end ->
  WF (insert_contact now (or_null ph) (or_null em) link prec st).
Proof.
  intros Hwf Hlink. unfold insert_contact.
  set (new := mkContact _ _ _ _ _ _ _ _).
  constructor; cbn [rows].
  - rewrite map_app. simpl. apply NoDup_app.
    + apply (wf_ids st Hwf).
    + repeat constructor. intros [].
    + intros k Hk [<- | []]. exact (next_id_fresh st Hk).
  - intros c Hc Hp. apply in_app_or in Hc. destruct Hc as [Hc | [<- | []]].
    + exact (wf_primary st Hwf c Hc Hp).
    + simpl in Hp. subst prec. exact Hlink.
  - intros c Hc Hs. apply in_app_or in Hc. destruct Hc as [Hc | [<- | []]].
    + destruct (wf_secondary st Hwf c Hc Hs) as (p & Hp & H).
      exists p. split; [apply in_or_app; now left | exact H].
    + simpl in Hs. subst prec. destruct Hlink as (p & Hp & Hl & Hprim & Hlive).
      exists p. split; [apply in_or_app; now left|]. simpl. auto.
  - intros c Hc. apply in_app_or in Hc. destruct Hc as [Hc | [<- | []]].
    + exact (wf_fields st Hwf c Hc).
    + simpl. split; apply or_null_nonempty.
Qed.

Section WellFormedMerge.
Variables (st : Store) (now : Z) (o : Contact) (others : list Contact).
Hypothesis Hwf : WF st.
Hypothesis Ho : In o (rows st) /\ linkPrecedence o = primary /\ live o = true.
Hypothesis Hothers : forall d, In d others ->
    In d (rows st) /\ linkPrecedence d = primary /\ live d = true.
Hypothesis Hfresh : ~ In (id o) (map id others).

Let ids := map id others.
Let F := merged_row now (id o) ids.

Lemma merged_primary_kept (c : Contact) :
  In c (rows st) -> linkPrecedence c = primary -> ~ In (id c) ids -> F c = c.
Proof.
  intros Hc Hp Hid. unfold F, merged_row.
  destruct (existsb (Z.eqb (id c)) ids) eqn:E1;
    [apply existsb_eqb_In in E1; contradiction|].
  destruct (existsb (fun k => linked_to k c) ids) eqn:E2; [|reflexivity].
  apply existsb_linked_In in E2. destruct E2 as (k & Hl & _).
  rewrite (wf_primary st Hwf c Hc Hp) in Hl. discriminate.
Qed.

Lemma merged_survivor : F o = o.
Proof. destruct Ho as (H1 & H2 & _). now apply merged_primary_kept. Qed.

Lemma merged_demoted (c : Contact) :
  In (id c) ids -> demoted_to (id o) (F c).
Proof.
  intros Hid. unfold F, merged_row.
  apply existsb_eqb_In in Hid. rewrite Hid. split; reflexivity.
Qed.

Lemma secondary_not_demoted (c : Contact) :
  In c (rows st) -> linkPrecedence c = secondary -> ~ In (id c) ids.
Proof.
  intros Hc Hs Hid. unfold ids in Hid. apply in_map_iff in Hid.
  destruct Hid as (d & Hd & Hin). destruct (Hothers d Hin) as (Hdr & Hdp & _).
  assert (d = c) by (apply (wf_same_id st Hwf); assumption).
  subst d. congruence.
Qed.

Lemma merged_relinked (c : Contact) (k : Z) :
  In c (rows st) -> linkedId c = Some k -> In k ids ->
  demoted_to (id o) (F c).
Proof.
  intros Hc Hl Hk. destruct (wf_link_target st Hwf c k Hc Hl) as (Hs & _).
  unfold F, merged_row.
  destruct (existsb (Z.eqb (id c)) ids) eqn:E1; [split; reflexivity|].
  replace (existsb (fun k0 => linked_to k0 c) ids) with true
    by (symmetry; apply existsb_linked_In; eauto).
  split; [exact Hs | reflexivity].
Qed.

Lemma merged_secondary_kept (c : Contact) (k : Z) :
  In c (rows st) -> linkedId c = Some k -> ~ In k ids -> F c = c.
Proof.
  intros Hc Hl Hk. destruct (wf_link_target st Hwf c k Hc Hl) as (Hs & _).
  unfold F, merged_row.
  destruct (existsb (Z.eqb (id c)) ids) eqn:E1.
  - apply existsb_eqb_In in E1.
    exfalso. exact (secondary_not_demoted c Hc Hs E1).
  - destruct (existsb (fun k0 => linked_to k0 c) ids) eqn:E2; [|reflexivity].
    apply existsb_linked_In in E2. destruct E2 as (k' & Hl' & Hk').
    congruence.
Qed.

(** Every row of the merged table is unchanged or a secondary of the
    survivor. *)
Lemma merged_cases (c : Contact) :
  In c (rows st) -> F c = c \/ demoted_to (id o) (F c).
Proof.
  intros Hc. destruct (in_dec Z.eq_dec (id c) ids) as [Hid | Hid].
  - right. now apply merged_demoted.
  - destruct (linkedId c) as [k|] eqn:El.
    + destruct (in_dec Z.eq_dec k ids) as [Hk | Hk].
      * right. now apply (merged_relinked c k).
      * left. now apply (merged_secondary_kept c k).
    + left. unfold F, merged_row.
      destruct (existsb (Z.eqb (id c)) ids) eqn:E1;
        [apply existsb_eqb_In in E1; contradiction|].
      destruct (existsb (fun k0 => linked_to k0 c) ids) eqn:E2; [|reflexivity].
      apply existsb_linked_In in E2. destruct E2 as (k' & Hl' & _). congruence.
Qed.

Lemma WF_merged : WF (update_rows F st).
Proof.
  assert (Hids : map id (map F (rows st)) = map id (rows st)).
  { rewrite map_map. apply map_ext. intros c.
    apply (merged_row_facts now (id o) ids c). }
  assert (HoIn : In o (map F (rows st))).
  { rewrite <- merged_survivor. apply in_map. tauto. }
  constructor; unfold update_rows; cbn [rows].
  - rewrite Hids. apply (wf_ids st Hwf).
  - intros c' Hc' Hp. apply in_map_iff in Hc'. destruct Hc' as (c & <- & Hc).
    destruct (merged_cases c Hc) as [E | [Hs _]]; [|congruence].
    rewrite E in *. exact (wf_primary st Hwf c Hc Hp).
  - intros c' Hc' Hs. apply in_map_iff in Hc'. destruct Hc' as (c & <- & Hc).
    destruct (merged_cases c Hc) as [E | [_ Hl]].
    + rewrite E in *.
      destruct (wf_secondary st Hwf c Hc Hs) as (p & Hp & Hl & Hprim & Hlive).
      exists p. repeat split; auto.
      assert (Hkeep : F p = p).
      { apply merged_primary_kept; auto. intros Hid.
        assert (Hd : demoted_to (id o) (F c))
          by (apply (merged_relinked c (id p)); assumption).
        rewrite E in Hd. destruct Hd as [_ Hd].
        rewrite Hl in Hd. inversion Hd as [Heq].
        apply Hfresh. fold ids. now rewrite <- Heq. }
      rewrite <- Hkeep. now apply in_map.
    + exists o. repeat split; try tauto.
  - intros c' Hc'. apply in_map_iff in Hc'. destruct Hc' as (c & <- & Hc).
    unfold F.
    destruct (merged_row_facts now (id o) ids c) as (_ & -> & -> & _).
    exact (wf_fields st Hwf c Hc).
Qed.
End WellFormedMerge.

(** ** The chain map *)

Lemma key_eqb_eq (a b : option Z) : key_eqb a b = true <-> a = b.
Proof.
  destruct a as [x|], b as [y|]; simpl; try (split; congruence).
  rewrite Z.eqb_eq. split; congruence.
Qed.

Lemma map_set_In (k : option Z) (v : list Contact) (m : ChainMap)
  (k' : option Z) (v' : list Contact) :
  In (k', v') (map_set k v m) -> (k' = k /\ v' = v) \/ In (k', v') m.
Proof.
  induction m as [|[k0 v0] t IH]; simpl.
  - intros [H | []]. inversion H. auto.
  - destruct (key_eqb k k0).
    + intros [H | H]; [inversion H; auto | auto].
    + intros [H | H]; [auto|]. destruct (IH H); auto.
Qed.

Lemma map_set_keys (k : option Z) (v : list Contact) (m : ChainMap) :
  map fst (map_set k v m) =
  if existsb (key_eqb k) (map fst m) then map fst m else map fst m ++ [k].
Proof.
  induction m as [|[k0 v0] t IH]; simpl; [reflexivity|].
  destruct (key_eqb k k0) eqn:E; simpl.
  - apply key_eqb_eq in E. now subst.
  - rewrite IH. now destruct (existsb (key_eqb k) (map fst t)).
Qed.

Lemma map_set_key_In (k : option Z) (v : list Contact) (m : ChainMap)
  (k' : option Z) :
  In k' (map fst (map_set k v m)) <-> k' = k \/ In k' (map fst m).
Proof.
  rewrite map_set_keys. destruct (existsb (key_eqb k) (map fst m)) eqn:E.
  - split; [auto|]. intros [-> | H]; [|exact H].
    apply existsb_exists in E. destruct E as (x & Hx & E).
    apply key_eqb_eq in E. now subst.
  - rewrite in_app_iff. simpl. intuition congruence.
Qed.

Lemma map_set_keys_NoDup (k : option Z) (v : list Contact) (m : ChainMap) :
  NoDup (map fst m) -> NoDup (map fst (map_set k v m)).
Proof.
  intros H. rewrite map_set_keys.
  destruct (existsb (key_eqb k) (map fst m)) eqn:E; [exact H|].
  apply NoDup_app; [exact H | repeat constructor; intros [] |].
  intros x Hx [<- | []].
  assert (existsb (key_eqb k) (map fst m) = true); [|congruence].
  apply existsb_exists. exists k. split; [exact Hx | now apply key_eqb_eq].
Qed.

(** What the Map holds once every lookup has returned. *)
Lemma collectChains_spec (st : Store) (l : list Contact) (m0 m : ChainMap) :
  collectChains never_fails st l m0 = Collected m ->
  (forall k v, In (k, v) m ->
     In (k, v) m0 \/
     exists c, In c l /\ chainId_of c = k /\ getAllContactsInChain k st = Some v) /\
  (forall k, In k (map fst m) <->
             In k (map fst m0) \/ exists c, In c l /\ chainId_of c = k) /\
  (NoDup (map fst m0) -> NoDup (map fst m)).
Proof.
  revert m0 m. induction l as [|c t IH]; intros m0 m H; simpl in H.
  - inversion H; subst m. repeat split; auto.
    intros [Hk | (c & [] & _)]. exact Hk.
  - destruct (getAllContactsInChain (chainId_of c) st) as [v|] eqn:Ev; [|discriminate].
    destruct (IH _ _ H) as (H1 & H2 & H3). repeat split.
    + intros k v' Hin. destruct (H1 k v' Hin) as [Hm | (c' & Hc' & Hk & Hv)].
      * apply map_set_In in Hm. destruct Hm as [[-> ->] | Hm]; [|now left].
        right. exists c. repeat split; auto. now left.
      * right. exists c'. repeat split; auto. now right.
    + intros Hk. apply H2 in Hk. destruct Hk as [Hk | (c' & Hc' & Hk)].
      * apply map_set_key_In in Hk. destruct Hk as [-> | Hk]; [|now left].
        right. exists c. split; [now left | reflexivity].
      * right. exists c'. split; [now right | exact Hk].
    + intros Hk. apply H2. destruct Hk as [Hk | (c' & [<- | Hc'] & Hk)].
      * left. apply map_set_key_In. now right.
      * left. apply map_set_key_In. now left.
      * right. eauto.
    + intros Hnd. apply H3, map_set_keys_NoDup, Hnd.
Qed.

Lemma collectChains_same_key (st : Store) (l : list Contact) (k : option Z)
  (v : list Contact) :
  (forall c, In c l -> chainId_of c = k) ->
  getAllContactsInChain k st = Some v ->
  collectChains never_fails st l [(k, v)] = Collected [(k, v)].
Proof.
  intros Hk Hv. induction l as [|c t IH]; simpl; [reflexivity|].
  rewrite (Hk c (or_introl eq_refl)), Hv. simpl.
  replace (key_eqb k k) with true by (symmetry; now apply key_eqb_eq).
  apply IH. intros c' Hc'. apply Hk. now right.
Qed.

Lemma collectChains_single (st : Store) (l : list Contact) (k : option Z)
  (v : list Contact) :
  l <> [] ->
  (forall c, In c l -> chainId_of c = k) ->
  getAllContactsInChain k st = Some v ->
  collectChains never_fails st l [] = Collected [(k, v)].
Proof.
  intros Hne Hk Hv. destruct l as [|c t]; [congruence|]. simpl.
  rewrite (Hk c (or_introl eq_refl)), Hv. simpl.
  apply collectChains_same_key; [|exact Hv].
  intros c' Hc'. apply Hk. now right.
Qed.

Lemma collectChains_total (st : Store) (l : list Contact) (m0 : ChainMap) :
  WF st ->
  (forall c, In c l -> In c (rows st) /\ live c = true) ->
  exists m, collectChains never_fails st l m0 = Collected m.
Proof.
  intros Hwf. revert m0. induction l as [|c t IH]; intros m0 Hl; simpl.
  - now exists m0.
  - destruct (Hl c (or_introl eq_refl)) as [Hc Hlive].
    destruct (chain_of_row st Hwf c Hc Hlive) as (p & Hp & Hprim & Hpl & -> & _).
    rewrite (chain_of_primary st Hwf p Hp Hprim Hpl).
    apply IH. intros c' Hc'. apply Hl. now right.
Qed.

Lemma findContacts_In (em ph : option string) (st : Store) (c : Contact) :
  In c (findContactsByEmailOrPhone em ph st) <->
  In c (rows st) /\ live c = true /\
  ((truthy em = true /\ column_is em (email c) = true) \/
   (truthy ph = true /\ column_is ph (phoneNumber c) = true)).
Proof.
  unfold findContactsByEmailOrPhone. cbv zeta.
  rewrite in_app_iff, !filter_In.
  destruct (live c), (truthy em && column_is em (email c)) eqn:E,
           (truthy ph && column_is ph (phoneNumber c)) eqn:P;
    cbn [andb negb];
    try apply andb_true_iff in E; try apply andb_true_iff in P;
    try apply andb_false_iff in E; try apply andb_false_iff in P;
    intuition congruence.
Qed.

(** The primaries found in the collected chains of a well-formed table:
    one live primary row per non-empty chain, all different. *)
Lemma implicated_primaries_spec (st : Store) (m : ChainMap) :
  WF st ->
  (forall k v, In (k, v) m -> getAllContactsInChain k st = Some v) ->
  NoDup (map fst m) ->
  NoDup (map id (implicated_primaries m)) /\
  forall p, In p (implicated_primaries m) ->
            In p (rows st) /\ linkPrecedence p = primary /\ live p = true /\
            In (Some (id p)) (map fst m).
Proof.
  intros Hwf. unfold implicated_primaries.
  induction m as [|[k v] t IH]; intros Hm Hnd.
  - simpl. split; [constructor | intros p []].
  - simpl in Hnd. inversion Hnd as [|? ? Hk Ht]; subst.
    destruct IH as [IH1 IH2]; [intros k' v' H; apply Hm; now right | exact Ht |].
    cbn [map snd concat]. rewrite filter_app.
    destruct (chain_of_key st Hwf k v (Hm k v (or_introl eq_refl)))
      as [-> | (p & Hp & Hprim & Hlive & -> & ->)].
    + simpl. split; [exact IH1|]. intros p Hp.
      destruct (IH2 p Hp) as (H1 & H2 & H3 & H4). repeat split; auto.
    + rewrite (chain_primaries st Hwf p Hprim). simpl. split.
      * constructor; [|exact IH1]. intros Hin. apply in_map_iff in Hin.
        destruct Hin as (q & Hid & Hq). apply Hk.
        destruct (IH2 q Hq) as (_ & _ & _ & H4). now rewrite <- Hid.
      * intros q [<- | Hq]; [repeat split; auto|].
        destruct (IH2 q Hq) as (H1 & H2 & H3 & H4). repeat split; auto.
Qed.

(** ** The handler keeps the table well-formed *)

Lemma resolves_never_fails (l : list Contact) :
  forallb (resolves never_fails) l = true.
Proof. induction l; simpl; auto. Qed.

Lemma collected_chains (st : Store) (l : list Contact) (m : ChainMap) :
  collectChains never_fails st l [] = Collected m ->
  (forall k v, In (k, v) m -> getAllContactsInChain k st = Some v) /\
  NoDup (map fst m).
Proof.
  intros H. destruct (collectChains_spec st l [] m H) as (H1 & _ & H3). split.
  - intros k v Hin. destruct (H1 k v Hin) as [[] | (c & _ & _ & Hv)]. exact Hv.
  - apply H3. constructor.
Qed.

(** The survivor and the demoted contacts of a merge are different live
    primary rows. *)
Lemma merge_plan_rows (st : Store) (l : list Contact) (m : ChainMap)
  (o : Contact) (others : list Contact) :
  WF st ->
  collectChains never_fails st l [] = Collected m ->
  sorted_primaries (concat (map snd m)) = o :: others ->
  Permutation (o :: others) (implicated_primaries m) /\
  (In o (rows st) /\ linkPrecedence o = primary /\ live o = true) /\
  (forall d, In d others ->
             In d (rows st) /\ linkPrecedence d = primary /\ live d = true) /\
  ~ In (id o) (map id others).
Proof.
  intros Hwf Hm Hs. destruct (collected_chains st l m Hm) as [Hv Hnd].
  destruct (implicated_primaries_spec st m Hwf Hv Hnd) as [Hids Hrows].
  assert (Hperm : Permutation (o :: others) (implicated_primaries m)).
  { rewrite <- Hs. apply sort_by_perm. }
  split; [exact Hperm|].
  assert (Hin : forall d, In d (o :: others) ->
                In d (rows st) /\ linkPrecedence d = primary /\ live d = true).
  { intros d Hd. apply (Permutation_in _ Hperm) in Hd.
    destruct (Hrows d Hd) as (H1 & H2 & H3 & _). auto. }
  split; [apply Hin; now left|]. split; [intros d Hd; apply Hin; now right|].
  assert (Hnd' : NoDup (map id (o :: others))).
  { apply (Permutation_NoDup (l := map id (implicated_primaries m)));
      [apply Permutation_map, Permutation_sym, Hperm | exact Hids]. }
  simpl in Hnd'. now inversion Hnd'.
Qed.

Lemma merged_store (st : Store) (now : Z) (o : Contact) (others : list Contact) :
  ~ In (id o) (map id others) ->
  update_rows (run_row never_fails now (id o) others) st =
  update_rows (merged_row now (id o) (map id others)) st.
Proof.
  intros H. apply update_rows_ext. intros c. now apply run_row_closed.
Qed.

Lemma WF_identify (now : Z) (req : Request) (st : Store) :
  WF st -> WF (fst (identify never_fails now req st)).
Proof.
  intros Hwf. unfold identify.
  destruct (negb _ && negb _); [exact Hwf|].
  change (never_fails FindContacts) with false. cbv iota.
  destruct (findContactsByEmailOrPhone _ _ st) as [|c0 cs] eqn:Hf.
  - cbn [never_fails fst]. now apply WF_insert.
  - destruct (collectChains never_fails st (c0 :: cs) []) as [m| |] eqn:Hm;
      [|exact Hwf|exact Hwf].
    destruct (collected_chains st _ m Hm) as [Hv _].
    unfold processContactChains.
    destruct m as [|[k v] [|e2 m']]; [exact Hwf| |].
    + destruct (negb _ || negb _); [|exact Hwf].
      destruct (find _ v) as [p|] eqn:Ep; [|exact Hwf].
      cbn [never_fails]. rewrite respond_chain_store.
      apply find_some in Ep. destruct Ep as [Hp Hprim].
      apply is_primary_iff in Hprim.
      destruct (chain_rows st k v p (Hv k v (or_introl eq_refl)) Hp)
        as [Hrow Hlive].
      apply WF_insert; [exact Hwf|]. exists p. auto.
    + destruct (sorted_primaries _) as [|o others] eqn:Hs; [exact Hwf|].
      destruct (merge_plan_rows st _ _ o others Hwf Hm Hs)
        as (_ & Ho & Hothers & Hfresh).
      assert (Hwf1 : WF (update_rows (run_row never_fails now (id o) others) st)).
      { rewrite merged_store by exact Hfresh. now apply WF_merged. }
      unfold merge_chains. rewrite run_updates_rows, resolves_never_fails.
      cbn [negb].
      destruct (_ && _); [now rewrite respond_chain_store|].
      cbn [never_fails]. rewrite respond_chain_store.
      apply WF_insert; [exact Hwf1|]. exists o.
      split; [|tauto].
      rewrite merged_store by exact Hfresh. cbn [update_rows rows].
      rewrite <- (merged_survivor st now o others Hwf Ho) at 1;
        [apply in_map; tauto | exact Hfresh].
Qed.

(** [store_reached] is the table after four requests. *)
Lemma store_reached_requests :
  store_reached =
  fst (identify never_fails 400
         (mkRequest (Some "marty@hillvalley.edu"%string)
                    (Some "marty-phone"%string))
    (fst (identify never_fails 300
            (mkRequest None (Some "marty-phone"%string))
       (fst (identify never_fails 200
               (mkRequest (Some "doc@hillvalley.edu"%string)
                          (Some "555-0456"%string))
          (fst (identify never_fails 100
                  (mkRequest (Some "doc@hillvalley.edu"%string)
                             (Some "555-0123"%string))
                  empty_store))))))).
Proof. vm_compute. reflexivity. Qed.

Lemma store_reached_WF : WF store_reached.
Proof.
  rewrite store_reached_requests. repeat apply WF_identify. apply WF_empty.
Qed.

(** ** Asking again for what a chain already holds *)





Section MergedChains.
Variables (st : Store) (now : Z) (o : Contact) (others : list Contact).
Hypothesis Hwf : WF st.
Hypothesis Ho : In o (rows st) /\ linkPrecedence o = primary /\ live o = true.
Hypothesis Hothers : forall d, In d others ->
    In d (rows st) /\ linkPrecedence d = primary /\ live d = true.
Hypothesis Hfresh : ~ In (id o) (map id others).

Let F := merged_row now (id o) (map id others).

(** After the merge every row of an implicated chain is in the
    survivor's chain. *)
Lemma merged_chainId (c q : Contact) :
  In c (rows st) -> In q (o :: others) -> chainId_of c = Some (id q) ->
  chainId_of (F c) = Some (id o).
Proof.
  intros Hc Hq Hk.
  assert (Hdem : forall x, demoted_to (id o) x -> chainId_of x = Some (id o)).
  { intros x [Hs Hl]. unfold chainId_of. now rewrite Hs. }
  unfold chainId_of in Hk. destruct (linkPrecedence c) eqn:Ec; simpl in Hk.
  - destruct Hq as [<- | Hq].
    + assert (c = o) by (apply (wf_same_id st Hwf); tauto || congruence).
      subst c. unfold F.
      rewrite (merged_survivor st now o others Hwf Ho Hfresh).
      unfold chainId_of. now rewrite Ec.
    + apply Hdem. apply merged_demoted.
      inversion Hk as [E]. rewrite E. now apply in_map.
  - destruct Hq as [<- | Hq].
    + unfold F.
      rewrite (merged_secondary_kept st now o others Hwf Hothers c (id o) Hc Hk Hfresh).
      unfold chainId_of. now rewrite Ec.
    + apply Hdem.
      apply (merged_relinked st now o others Hwf c (id q) Hc Hk).
      now apply in_map.
Qed.
End MergedChains.

Lemma collected_chain_of (st : Store) (l : list Contact) (m : ChainMap)
  (c : Contact) (v : list Contact) :
  collectChains never_fails st l [] = Collected m -> In c l ->
  getAllContactsInChain (chainId_of c) st = Some v ->
  In (chainId_of c, v) m.
Proof.
  intros Hm Hc Hv.
  destruct (collectChains_spec st l [] m Hm) as (_ & Hkeys & _).
  assert (Hin : In (chainId_of c) (map fst m)).
  { apply Hkeys. right. exists c. split; [exact Hc | reflexivity]. }
  apply in_map_iff in Hin. destruct Hin as ([k v'] & Ek & Hkv). simpl in Ek. subst k.
  destruct (collected_chains st l m Hm) as [Hall _].
  pose proof (Hall _ _ Hkv) as Hv'. rewrite Hv in Hv'. inversion Hv'. now subst.
Qed.

Lemma chain_primary_implicated (st : Store) (l : list Contact) (m : ChainMap)
  (c q : Contact) :
  WF st -> collectChains never_fails st l [] = Collected m -> In c l ->
  In q (rows st) -> linkPrecedence q = primary -> live q = true ->
  chainId_of c = Some (id q) ->
  In q (implicated_primaries m).
Proof.
  intros Hwf Hm Hc Hq Hprim Hlive Hk.
  pose proof (chain_of_primary st Hwf q Hq Hprim Hlive) as Hchain.
  rewrite <- Hk in Hchain.
  pose proof (collected_chain_of st l m c _ Hm Hc Hchain) as Hkv.
  unfold implicated_primaries. apply filter_In. split.
  - apply in_concat. exists (sort_by chain_order (q :: chain_children st q)).
    split; [exact (in_map snd m _ Hkv)|].
    apply sort_by_In. now left.
  - now rewrite Hprim.
Qed.

(** Every match of the request lies in the chain of a primary of the
    merge plan. *)
Lemma matches_in_plan (st : Store) (l : list Contact) (m : ChainMap)
  (o : Contact) (others : list Contact) (c : Contact) :
  WF st ->
  collectChains never_fails st l [] = Collected m ->
  sorted_primaries (concat (map snd m)) = o :: others ->
  In c l -> In c (rows st) -> live c = true ->
  exists q, In q (o :: others) /\ chainId_of c = Some (id q).
Proof.
  intros Hwf Hm Hs Hcl Hc Hlive.
  destruct (chain_of_row st Hwf c Hc Hlive) as (q & Hq & Hprim & Hql & Hk & _).
  exists q. split; [|exact Hk].
  destruct (merge_plan_rows st l m o others Hwf Hm Hs) as (Hperm & _).
  apply (Permutation_in _ (Permutation_sym Hperm)).
  now apply (chain_primary_implicated st l m c q).
Qed.



(** ** The order of a chain *)

Lemma chain_order_secondaries (a b : Contact) :
  linkPrecedence a = secondary -> linkPrecedence b = secondary ->
  chain_order a b = (createdAt a <=? createdAt b).
Proof. intros Ha Hb. unfold chain_order. now rewrite Ha, Hb. Qed.

Lemma chain_order_primary_last (p c : Contact) :
  linkPrecedence p = primary -> linkPrecedence c = secondary ->
  chain_order p c = false /\ chain_order c p = true.
Proof. intros Hp Hc. unfold chain_order. rewrite Hp, Hc. split; reflexivity. Qed.

Lemma insert_by_ext {A : Type} (le1 le2 : A -> A -> bool) (x : A) (l : list A) :
  (forall y, In y l -> le1 x y = le2 x y) ->
  insert_by le1 x l = insert_by le2 x l.
Proof.
  induction l as [|y t IH]; intros H; simpl; [reflexivity|].
  rewrite (H y (or_introl eq_refl)). destruct (le2 x y); [reflexivity|].
  f_equal. apply IH. intros z Hz. apply H. now right.
Qed.

Lemma sort_by_ext {A : Type} (le1 le2 : A -> A -> bool) (l : list A) :
  (forall x y, In x l -> In y l -> le1 x y = le2 x y) ->
  sort_by le1 l = sort_by le2 l.
Proof.
  induction l as [|x t IH]; intros H; simpl; [reflexivity|].
  rewrite IH by (intros a b Ha Hb; apply H; now right).
  apply insert_by_ext. intros y Hy. apply sort_by_In in Hy.
  apply H; [now left | now right].
Qed.

Lemma insert_by_last {A : Type} (le : A -> A -> bool) (x : A) (l : list A) :
  (forall y, In y l -> le x y = false) -> insert_by le x l = l ++ [x].
Proof.
  induction l as [|y t IH]; intros H; simpl; [reflexivity|].
  rewrite (H y (or_introl eq_refl)). f_equal. apply IH.
  intros z Hz. apply H. now right.
Qed.

(** What resolving a chain returns in a well-formed table: the live
    secondaries of the primary by [createdAt], oldest first, and the
    primary after them. *)
Lemma chain_secondaries_then_primary (st : Store) (p : Contact) :
  WF st -> In p (rows st) -> linkPrecedence p = primary -> live p = true ->
  getAllContactsInChain (Some (id p)) st =
  Some (sort_by (fun a b => createdAt a <=? createdAt b) (chain_children st p)
        ++ [p]).
Proof.
  intros Hwf Hp Hprim Hlive. rewrite (chain_of_primary st Hwf p Hp Hprim Hlive).
  f_equal. cbn [sort_by fold_right].
  change (fold_right (insert_by chain_order) [] (chain_children st p))
    with (sort_by chain_order (chain_children st p)).
  rewrite insert_by_last.
  - f_equal. apply sort_by_ext. intros a b Ha Hb.
    apply chain_order_secondaries;
      eapply (chain_children_secondary st Hwf p); eassumption.
  - intros c Hc. apply sort_by_In in Hc.
    apply (chain_order_primary_last p c Hprim).
    exact (chain_children_secondary st Hwf p c Hc).
Qed.

(** ** Soft-deleted contacts in a merge *)

(** C10: in a merge whose statements succeed, every stored contact whose
    [linkedId] is the id of a demoted primary ends with [linkedId] the
    surviving primary's id and [updatedAt] the time of the request, its
    other facts, [deletedAt] included, being kept.  This holds for
    soft-deleted contacts too, although they are neither matched by a
    request nor listed in a chain. *)
Theorem merge_relinks_deleted_contacts_too (now : Z) (em ph : option string)
  (st : Store) (o : Contact) (others : list Contact) (d c : Contact) :
  merge_plan em ph st = Some (o, others) ->
  In d others -> In c (rows st) ->
  linkedId c = Some (id d) ->
  (exists c',
     In c' (rows (fst (identify never_fails now (mkRequest em ph) st))) /\
     same_facts c c' /\ linkedId c' = Some (id o) /\ updatedAt c' = now) /\
  (live c = false ->
   ~ In c (findContactsByEmailOrPhone em ph st) /\
   forall k l, getAllContactsInChain k st = Some l -> ~ In c l).
Proof.
  intros Hplan Hd Hc Hl. split.
  - destruct (identify_merge never_fails now em ph st o others
                never_fails_lookups Hplan)
      as (m & _ & _ & ->).
    destruct (merge_chains_rows never_fails now em ph (concat (map snd m))
                                o others st) as (extra & -> & _).
    exists (run_row never_fails now (id o) others c). split.
    + apply in_or_app. left. apply in_map, Hc.
    + split; [apply run_row_facts|].
      exact (run_row_relinks now (id o) others d c Hd Hl).
  - intros Hdead. split.
    + intros Hin. apply findContacts_In in Hin. destruct Hin as (_ & Hlive & _).
      congruence.
    + intros k l Hchain Hin.
      destruct (chain_rows st k l c Hchain Hin) as [_ Hlive]. congruence.
Qed.

Lemma merge_relinks_deleted_contacts_too_witness :
  let em := Some "doc@hillvalley.edu"%string in
  let ph := Some "marty-phone"%string in
  (merge_plan em ph store_two_chains = Some (doc, [marty]) /\
   In marty [marty] /\ In marty_gone (rows store_two_chains) /\
   linkedId marty_gone = Some (id marty) /\ deletedAt marty_gone = Some 460) /\
  (exists c',
     In c' (rows (fst (identify never_fails 500 (mkRequest em ph)
                                store_two_chains))) /\
     same_facts marty_gone c' /\ linkedId c' = Some (id doc) /\
     updatedAt c' = 500) /\
  (live marty_gone = false ->
   ~ In marty_gone (findContactsByEmailOrPhone em ph store_two_chains) /\
   forall k l, getAllContactsInChain k store_two_chains = Some l ->
               ~ In marty_gone l).
Proof.
  cbv zeta.
  assert (Hplan : merge_plan (Some "doc@hillvalley.edu"%string)
                             (Some "marty-phone"%string) store_two_chains =
                  Some (doc, [marty])) by (vm_compute; reflexivity).
  assert (Hd : In marty [marty]) by (left; reflexivity).
  assert (Hc : In marty_gone (rows store_two_chains)) by (simpl; tauto).
  assert (Hl : linkedId marty_gone = Some (id marty)) by reflexivity.
  split;
    [split; [exact Hplan | split; [exact Hd | split; [exact Hc | split; [exact Hl | reflexivity]]]]|].
  exact (merge_relinks_deleted_contacts_too 500 _ _ store_two_chains
           doc [marty] marty marty_gone Hplan Hd Hc Hl).
Defined.

(** * Further properties of the handler *)

(** ** Every branch of the handler *)

Ltac identify_cases fails :=
  unfold identify;
  destruct (negb _ && negb _) eqn:Hvalid;
  [ | destruct (fails FindContacts) eqn:Hfind;
      [ | destruct (findContactsByEmailOrPhone _ _ _) as [|c0 cs] eqn:Hfound;
          [ destruct (fails InsertContact) eqn:Hins
          | destruct (collectChains _ _ _ _) as [m| |] eqn:Hm;
            [ unfold processContactChains;
              destruct m as [|[k1 v1] [|e2 m']];
              [ | destruct (negb _ || negb _) eqn:Hnew;
                  [ destruct (find _ v1) as [p1|] eqn:Hp1;
                    [ destruct (fails InsertContact) eqn:Hins | ]
                  | ]
                | destruct (sorted_primaries _) as [|o others] eqn:Hs;
                  [ | unfold merge_chains; rewrite run_updates_rows;
                      destruct (forallb (resolves fails) others) eqn:Hok;
                      cbn [negb];
                      [ destruct ((_ || _) && (_ || _)) eqn:Hknown;
                        [ | destruct (fails InsertContact) eqn:Hins ]
                      | ] ] ]
            | | ] ] ] ].

Lemma respond_chain_outcome (fails : Stmt -> bool) (msg : string) (k : Z)
  (st : Store) :
  respond_chain fails msg k st =
  (st, if fails (ChainReload k) then Reply 500 (error_json msg)
       else match getAllContactsInChain (Some k) st with
            | None => Hang
            | Some contacts => returnResponse contacts
            end).
Proof.
  unfold respond_chain. destruct (fails (ChainReload k)); [reflexivity|].
  now destruct (getAllContactsInChain (Some k) st).
Qed.

Lemma respond_chain_status (fails : Stmt -> bool) (msg : string) (k : Z)
  (st st' : Store) (status : Z) (body : json) :
  respond_chain fails msg k st = (st', Reply status body) ->
  st' = st /\
  (status = 200 \/
   (status = 500 /\ body = error_json msg /\ fails (ChainReload k) = true)).
Proof.
  unfold respond_chain. destruct (fails (ChainReload k)).
  - intros H. inversion H. auto.
  - destruct (getAllContactsInChain (Some k) st) as [l|]; [|discriminate].
    intros H. inversion H as [[Hst Hr]]. split; [reflexivity|]. left.
    now apply returnResponse_shape in Hr.
Qed.

Lemma respond_chain_success (fails : Stmt -> bool) (msg : string) (k : Z)
  (st st' : Store) (body : json) :
  respond_chain fails msg k st = (st', Reply 200 body) ->
  respond_chain never_fails msg k st = (st', Reply 200 body).
Proof.
  unfold respond_chain. destruct (fails (ChainReload k)); [discriminate|].
  cbn [never_fails]. auto.
Qed.

Lemma run_row_resolved (fails : Stmt -> bool) (now o : Z) (ds : list Contact)
  (c : Contact) :
  forallb (resolves fails) ds = true ->
  run_row fails now o ds c = run_row never_fails now o ds c.
Proof.
  revert c. induction ds as [|d t IH]; intros c H; [reflexivity|].
  simpl in H. apply andb_true_iff in H. destruct H as [Hd Ht].
  unfold resolves in Hd. apply andb_true_iff in Hd. destruct Hd as [H1 H2].
  apply negb_true_iff in H1, H2.
  cbn [run_row fold_left]. unfold step_row at 2 4. rewrite H1, H2.
  cbn [never_fails]. apply IH, Ht.
Qed.

Lemma max_rowid_ids (l l' : list Contact) :
  map id l = map id l' -> max_rowid l = max_rowid l'.
Proof.
  revert l'. induction l as [|x t IH]; intros [|y t'] H; try discriminate;
    [reflexivity|].
  simpl in H. inversion H as [[Hx Ht]]. simpl. now rewrite Hx, (IH t' Ht).
Qed.

Lemma next_id_ids (st st' : Store) :
  map id (rows st') = map id (rows st) -> seq st' = seq st ->
  next_id st' = next_id st.
Proof.
  intros Hr Hs. unfold next_id. now rewrite Hs, (max_rowid_ids _ _ Hr).
Qed.

Lemma update_rows_ids (F : Contact -> Contact) (st : Store) :
  (forall c, same_facts c (F c)) ->
  map id (rows (update_rows F st)) = map id (rows st).
Proof.
  intros HF. unfold update_rows. cbn [rows]. rewrite map_map.
  apply map_ext. intros c. apply (HF c).
Qed.

Lemma reply_400_invalid (fails : Stmt -> bool) (now : Z) (req : Request)
  (st st' : Store) (body : json) :
  identify fails now req st = (st', Reply 400 body) ->
  truthy (req_email req) || truthy (req_phoneNumber req) = false.
Proof.
  identify_cases fails; intros H;
    try (destruct (truthy (req_email req)), (truthy (req_phoneNumber req));
         simpl in Hvalid; (reflexivity || discriminate));
    try discriminate;
    try (apply respond_chain_status in H;
         destruct H as [_ [H | [H _]]]; discriminate).
  inversion H as [[Hst Hr]]. apply returnResponse_shape in Hr.
  destruct Hr as [Hr _]. discriminate.
Qed.

(** The reply is 400 exactly for the requests with no usable field; the
    table is then left alone, whatever the store does. *)
Theorem rejects_exactly_requests_without_fields (fails : Stmt -> bool)
  (now : Z) (req : Request) (st : Store) :
  (truthy (req_email req) || truthy (req_phoneNumber req) = false ->
   identify fails now req st =
   (st, Reply 400 (error_json "Either email or phoneNumber must be provided")))
  /\
  (forall st' body,
     identify fails now req st = (st', Reply 400 body) ->
     truthy (req_email req) || truthy (req_phoneNumber req) = false).
Proof.
  split.
  - intros H. apply orb_false_iff in H. destruct H as [H1 H2].
    unfold identify. now rewrite H1, H2.
  - intros st' body. apply reply_400_invalid.
Qed.

(** What the statements of a request do to the rows, whichever of them
    fail. *)
Lemma identify_rows (fails : Stmt -> bool) (now : Z) (req : Request)
  (st : Store) :
  exists F extra,
    rows (fst (identify fails now req st)) = map F (rows st) ++ extra /\
    (forall c, same_facts c (F c)) /\
    (extra = [] \/
     exists c, extra = [c] /\
               inserted_row now (req_email req) (req_phoneNumber req) st c).
Proof.
  assert (Hsame : exists F extra,
             rows st = map F (rows st) ++ extra /\
             (forall c, same_facts c (F c)) /\
             (extra = [] \/
              exists c, extra = [c] /\
                inserted_row now (req_email req) (req_phoneNumber req) st c)).
  { exists (fun c => c), []. rewrite map_id, app_nil_r.
    split; [reflexivity|]. split; [apply same_facts_refl | now left]. }
  assert (Hinsert : forall link prec,
             exists F extra,
               rows (insert_contact now (or_null (req_phoneNumber req))
                       (or_null (req_email req)) link prec st) =
               map F (rows st) ++ extra /\
               (forall c, same_facts c (F c)) /\
               (extra = [] \/
                exists c, extra = [c] /\
                  inserted_row now (req_email req) (req_phoneNumber req) st c)).
  { intros link prec. exists (fun c => c). eexists. rewrite map_id.
    split; [reflexivity|]. split; [apply same_facts_refl|]. right.
    eexists. split; [reflexivity|]. repeat split. }
  identify_cases fails; cbn [fst]; rewrite ?respond_chain_store;
    try exact Hsame; try apply Hinsert.
  - exists (run_row fails now (id o) others), []. rewrite app_nil_r.
    split; [reflexivity|]. split; [apply run_row_facts | now left].
  - exists (run_row fails now (id o) others), []. rewrite app_nil_r.
    split; [reflexivity|]. split; [apply run_row_facts | now left].
  - exists (run_row fails now (id o) others). eexists.
    split; [reflexivity|]. split; [apply run_row_facts|]. right.
    eexists. split; [reflexivity|].
    unfold inserted_row. cbn [id email phoneNumber createdAt updatedAt deletedAt].
    repeat split. apply next_id_ids; [|reflexivity].
    apply update_rows_ids, run_row_facts.
  - exists (run_row fails now (id o) others), []. rewrite app_nil_r.
    split; [reflexivity|]. split; [apply run_row_facts | now left].
Qed.

(** A request never removes a row and never changes the id, email, phone
    number, creation time or deletion mark of a stored row; it adds at
    most one row, with the next id and the fields of the request (empty
    values as NULL). *)
Theorem identify_keeps_rows (fails : Stmt -> bool) (now : Z) (req : Request)
  (st : Store) :
  exists F extra,
    rows (fst (identify fails now req st)) = map F (rows st) ++ extra /\
    (forall c, same_facts c (F c)) /\
    (extra = [] \/
     exists c, extra = [c] /\
               inserted_row now (req_email req) (req_phoneNumber req) st c).
Proof. apply identify_rows. Qed.

Lemma merge_plan_found (fails : Stmt -> bool) (st : Store)
  (em ph : option string) (c0 : Contact)
  (cs : list Contact) (e1 e2 : option Z * list Contact) (m' : ChainMap)
  (o : Contact) (others : list Contact) :
  findContactsByEmailOrPhone em ph st = c0 :: cs ->
  collectChains fails st (c0 :: cs) [] = Collected (e1 :: e2 :: m') ->
  sorted_primaries (concat (map snd (e1 :: e2 :: m'))) = o :: others ->
  merge_plan em ph st = Some (o, others).
Proof.
  intros Hf Hm Hs. apply collectChains_collected in Hm.
  unfold merge_plan, implicated_chains. now rewrite Hf, Hm, Hs.
Qed.

Lemma not_reload_error (msg : string) :
  msg <> "Failed to refresh contacts"%string ->
  msg <> "Failed to get final contacts"%string ->
  ~ reload_error (error_json msg).
Proof.
  intros H1 H2 [H | H]; inversion H; contradiction.
Qed.

Lemma insert_rows_In (now : Z) (ph em : option string) (link : option Z)
  (prec : LinkPrecedence) (st : Store) (c : Contact) :
  In c (rows st) -> In c (rows (insert_contact now ph em link prec st)).
Proof. intros H. unfold insert_contact. cbn [rows]. apply in_or_app. now left. Qed.

Lemma insert_new_In (now : Z) (ph em : option string) (link : option Z)
  (prec : LinkPrecedence) (st : Store) :
  In (mkContact (next_id st) ph em link prec now now None)
     (rows (insert_contact now ph em link prec st)).
Proof. unfold insert_contact. cbn [rows]. apply in_or_app. right. now left. Qed.

Lemma insert_ids (now : Z) (ph em : option string) (link : option Z)
  (prec : LinkPrecedence) (st : Store) :
  map id (rows (insert_contact now ph em link prec st)) =
  map id (rows st) ++ [next_id st].
Proof. unfold insert_contact. cbn [rows]. now rewrite map_app. Qed.

(** A reply that is not a success goes with no new row, unless it is one
    of the two errors of the chain query that follows the INSERT: then
    the row of the request has been added as a secondary contact.
    Without a merge and without such an error, the table is left as it
    was. *)
Theorem error_reply_tells_what_was_written (fails : Stmt -> bool) (now : Z)
  (req : Request) (st st' : Store) (status : Z) (body : json) :
  identify fails now req st = (st', Reply status body) ->
  status <> 200 ->
  (~ reload_error body ->
   map id (rows st') = map id (rows st) /\ seq st' = seq st /\
   (merge_plan (req_email req) (req_phoneNumber req) st = None -> st' = st)) /\
  (reload_error body ->
   exists c,
     map id (rows st') = map id (rows st) ++ [id c] /\ In c (rows st') /\
     inserted_row now (req_email req) (req_phoneNumber req) st c /\
     linkPrecedence c = secondary).
Proof.
  assert (Hno : forall msg : string,
            msg <> "Failed to refresh contacts"%string ->
            msg <> "Failed to get final contacts"%string ->
            forall P : Prop, reload_error (error_json msg) -> P).
  { intros msg H1 H2 P H. destruct (not_reload_error msg H1 H2 H). }
  identify_cases fails; intros H Hstatus;
    try discriminate;
    try (inversion H; subst; congruence);
    try (inversion H; subst; clear H;
         split; [intros _ | apply Hno; discriminate];
         first [ now repeat split
               | split; [apply update_rows_ids, run_row_facts|];
                 split; [reflexivity|];
                 rewrite (merge_plan_found fails st _ _ c0 cs _ _ _ o others
                            Hfound Hm Hs);
                 discriminate ]).
  - (* one chain, a secondary inserted, the chain read again *)
    apply respond_chain_status in H.
    destruct H as [-> [H | (_ & -> & _)]]; [congruence|].
    split; [intros Hn; exfalso; apply Hn; now left | intros _].
    exists (mkContact (next_id st) (or_null (req_phoneNumber req))
                      (or_null (req_email req)) (Some (id p1)) secondary
                      now now None).
    split; [apply insert_ids|]. split; [apply insert_new_In|].
    split; [repeat split | reflexivity].
  - (* one chain that holds every value *)
    inversion H as [[Hst Hr]]. apply returnResponse_shape in Hr.
    destruct Hr as [Hr _]. congruence.
  - (* several chains merged, nothing to add, the chain read again *)
    apply respond_chain_status in H.
    destruct H as [-> [H | (_ & -> & _)]]; [congruence|].
    split; [intros _ | apply Hno; discriminate].
    split; [apply update_rows_ids, run_row_facts|]. split; [reflexivity|].
    rewrite (merge_plan_found fails st _ _ c0 cs _ _ _ o others Hfound Hm Hs).
    discriminate.
  - (* several chains merged, a secondary inserted, the chain read again *)
    apply respond_chain_status in H.
    destruct H as [-> [H | (_ & -> & _)]]; [congruence|].
    split; [intros Hn; exfalso; apply Hn; now right | intros _].
    set (st1 := update_rows (run_row fails now (id o) others) st).
    exists (mkContact (next_id st1) (or_null (req_phoneNumber req))
                      (or_null (req_email req)) (Some (id o)) secondary
                      now now None).
    split.
    + rewrite insert_ids. unfold st1 at 1.
      now rewrite update_rows_ids by apply run_row_facts.
    + split; [apply insert_new_In|]. split; [|reflexivity].
      unfold inserted_row. cbn [id email phoneNumber createdAt updatedAt deletedAt].
      repeat split. apply next_id_ids; [|reflexivity].
      apply update_rows_ids, run_row_facts.
Qed.

(** A store on which only the chain query sent after the writes fails. *)
Lemma error_reply_tells_what_was_written_witness :
  let req := mkRequest (Some "doc@hillvalley.edu"%string)
                       (Some "555-0999"%string) in
  let fails := fun s => match s with ChainReload _ => true | _ => false end in
  let new := mkContact 5 (Some "555-0999"%string)
                       (Some "doc@hillvalley.edu"%string) (Some 1) secondary
                       500 500 None in
  let body := error_json "Failed to refresh contacts" in
  (identify fails 500 req store_reached =
     (mkStore [doc; doc2; marty; marty2; new] 5, Reply 500 body) /\
   500 <> 200 /\ reload_error body) /\
  exists c,
    map id [doc; doc2; marty; marty2; new] = map id (rows store_reached) ++ [id c] /\
    In c [doc; doc2; marty; marty2; new] /\
    inserted_row 500 (req_email req) (req_phoneNumber req) store_reached c /\
    linkPrecedence c = secondary.
Proof.
  cbv zeta.
  assert (H : identify
                (fun s => match s with ChainReload _ => true | _ => false end)
                500 (mkRequest (Some "doc@hillvalley.edu"%string)
                               (Some "555-0999"%string)) store_reached =
              (mkStore [doc; doc2; marty; marty2;
                        mkContact 5 (Some "555-0999"%string)
                                  (Some "doc@hillvalley.edu"%string) (Some 1)
                                  secondary 500 500 None] 5,
               Reply 500 (error_json "Failed to refresh contacts")))
    by (vm_compute; reflexivity).
  assert (Hne : 500 <> 200) by lia.
  assert (Hre : reload_error (error_json "Failed to refresh contacts"))
    by (left; reflexivity).
  split; [split; [exact H | split; [exact Hne | exact Hre]]|].
  exact (proj2 (error_reply_tells_what_was_written _ 500 _ store_reached _ 500 _
                  H Hne) Hre).
Defined.

Lemma merge_chains_success (fails : Stmt -> bool) (now : Z)
  (em ph : option string) (all : list Contact) (o : Contact)
  (others : list Contact) (st st' : Store) (body : json) :
  merge_chains fails now em ph all o others st = (st', Reply 200 body) ->
  merge_chains never_fails now em ph all o others st = (st', Reply 200 body).
Proof.
  unfold merge_chains. rewrite !run_updates_rows, resolves_never_fails.
  destruct (forallb (resolves fails) others) eqn:Hok; cbn [negb];
    [|discriminate].
  rewrite (update_rows_ext _ _ st (fun c => run_row_resolved fails now (id o)
                                              others c Hok)).
  destruct (_ && _); [apply respond_chain_success|].
  destruct (fails InsertContact); [discriminate|]. cbn [never_fails].
  apply respond_chain_success.
Qed.

Lemma identify_success_never_fails (fails : Stmt -> bool) (now : Z)
  (req : Request) (st st' : Store) (body : json) :
  identify fails now req st = (st', Reply 200 body) ->
  identify never_fails now req st = (st', Reply 200 body).
Proof.
  unfold identify.
  destruct (negb _ && negb _); [discriminate|].
  destruct (fails FindContacts); [discriminate|].
  change (never_fails FindContacts) with false. cbv iota.
  destruct (findContactsByEmailOrPhone _ _ st) as [|c0 cs].
  - destruct (fails InsertContact); [discriminate|]. cbn [never_fails]. auto.
  - destruct (collectChains fails st (c0 :: cs) []) as [m| |] eqn:Hm;
      [|discriminate|discriminate].
    rewrite (collectChains_collected fails st _ _ m Hm).
    unfold processContactChains.
    destruct m as [|[k1 v1] [|e2 m']]; [discriminate| |].
    + destruct (negb _ || negb _); [|auto].
      destruct (find _ v1) as [p1|]; [|discriminate].
      destruct (fails InsertContact); [discriminate|]. cbn [never_fails].
      apply respond_chain_success.
    + destruct (sorted_primaries _) as [|o others]; [discriminate|].
      apply merge_chains_success.
Qed.

(** A successful reply means that no call of the request failed: the
    table and the reply are those of a store that never fails. *)
Theorem success_means_no_statement_failed (fails : Stmt -> bool) (now : Z)
  (req : Request) (st st' : Store) (body : json) :
  identify fails now req st = (st', Reply 200 body) ->
  identify never_fails now req st = (st', Reply 200 body).
Proof. apply identify_success_never_fails. Qed.

Lemma success_means_no_statement_failed_witness :
  let req := mkRequest (Some "doc@hillvalley.edu"%string)
                       (Some "555-0456"%string) in
  let body := contact_json (mkBody 1 ["doc@hillvalley.edu"%string]
                              ["555-0123"%string; "555-0456"%string] [2]) in
  identify fails_relinking_marty 500 req store_reached =
    (store_reached, Reply 200 body) /\
  identify never_fails 500 req store_reached = (store_reached, Reply 200 body).
Proof.
  cbv zeta.
  assert (H : identify fails_relinking_marty 500
                (mkRequest (Some "doc@hillvalley.edu"%string)
                           (Some "555-0456"%string)) store_reached =
              (store_reached,
               Reply 200 (contact_json
                            (mkBody 1 ["doc@hillvalley.edu"%string]
                               ["555-0123"%string; "555-0456"%string] [2]))))
    by (vm_compute; reflexivity).
  split; [exact H|].
  exact (success_means_no_statement_failed _ 500 _ store_reached _ _ H).
Defined.

(** ** What a request does to a well-formed table *)

Section ConsolidatesFields.
Variables (now : Z) (em ph : option string) (st st' : Store) (out : Outcome)
          (p : Contact) (G : Contact -> Contact) (extra : list Contact).
Hypothesis Hc : consolidates now em ph st st' out p G extra.

Lemma cs_rows : rows st' = map G (rows st) ++ extra.
Proof. exact (ra_rows _ _ _ _ _ _ _ _ (cs_table _ _ _ _ _ _ _ _ _ Hc)). Qed.

Lemma cs_facts : forall c, same_facts c (G c).
Proof. exact (ra_facts _ _ _ _ _ _ _ _ (cs_table _ _ _ _ _ _ _ _ _ Hc)). Qed.

Lemma cs_wf : WF st'.
Proof. exact (ra_wf _ _ _ _ _ _ _ _ (cs_table _ _ _ _ _ _ _ _ _ Hc)). Qed.

Lemma cs_primary : In p (rows st') /\ linkPrecedence p = primary /\ live p = true.
Proof. exact (ra_primary _ _ _ _ _ _ _ _ (cs_table _ _ _ _ _ _ _ _ _ Hc)). Qed.

Lemma cs_matches : forall c, In c (findContactsByEmailOrPhone em ph st) ->
  chainId_of (G c) = Some (id p).
Proof. exact (ra_matches _ _ _ _ _ _ _ _ (cs_table _ _ _ _ _ _ _ _ _ Hc)). Qed.
End ConsolidatesFields.

Lemma column_is_or_null (v : option string) :
  truthy v = true -> column_is v (or_null v) = true.
Proof.
  intros H. unfold or_null. rewrite H. destruct v as [s|]; [|discriminate].
  simpl. apply String.eqb_refl.
Qed.

Lemma has_value_exists (v : option string) (f : Contact -> option string)
  (l : list Contact) :
  has_value v f l = true ->
  truthy v = true /\ exists c, In c l /\ column_is v (f c) = true.
Proof.
  unfold has_value. intros H. apply andb_true_iff in H. destruct H as [Ht He].
  split; [exact Ht|]. apply existsb_exists in He. exact He.
Qed.

Lemma new_Set_singleton (v : option string) :
  new_Set (filter_Boolean [or_null v]) = singleton_if v.
Proof.
  unfold or_null, singleton_if. destruct v as [s|]; [|reflexivity]. simpl.
  destruct (s =? "")%string eqn:E; simpl; [reflexivity|]. now rewrite E.
Qed.

(** Nothing is linked to an id that was never handed out. *)
Lemma no_children_of_new (st : Store) (c : Contact) :
  WF st -> In c (rows st) -> linkedId c <> Some (next_id st).
Proof.
  intros Hwf Hc Hl.
  destruct (wf_link_target st Hwf c _ Hc Hl) as (_ & p & Hp & Hid & _).
  apply (next_id_fresh st). rewrite <- Hid. now apply in_map.
Qed.

Lemma sorted_primaries_head_oldest (l : list Contact) (o d : Contact)
  (others : list Contact) :
  sorted_primaries l = o :: others -> In d others ->
  createdAt o <= createdAt d.
Proof.
  unfold sorted_primaries. intros Hs Hd.
  pose proof (sort_by_perm (fun a b => createdAt a <=? createdAt b)
                (filter (fun c => is_primary (linkPrecedence c)) l)) as Hperm.
  rewrite Hs in Hperm.
  apply sort_createdAt_head in Hs. destruct Hs as (b & a & Hl & Hb & Ha).
  assert (Hin : In d (b ++ o :: a)).
  { rewrite <- Hl. apply (Permutation_in _ Hperm). now right. }
  apply in_app_or in Hin. destruct Hin as [Hin | [<- | Hin]].
  - specialize (Hb d Hin). lia.
  - lia.
  - exact (Ha d Hin).
Qed.

Section MergedChainIds.
Variables (st : Store) (now : Z) (o : Contact) (others : list Contact).
Hypothesis Hwf : WF st.
Hypothesis Ho : In o (rows st) /\ linkPrecedence o = primary /\ live o = true.
Hypothesis Hothers : forall d, In d others ->
    In d (rows st) /\ linkPrecedence d = primary /\ live d = true.
Hypothesis Hfresh : ~ In (id o) (map id others).

Let F := merged_row now (id o) (map id others).

(** A row whose chain is demoted moves to the survivor; every other row
    is left alone. *)
Lemma merged_chainId_spec (c : Contact) :
  In c (rows st) ->
  (exists d, In d others /\ chainId_of c = Some (id d) /\
             demoted_to (id o) (F c)) \/
  ((forall d, In d others -> chainId_of c <> Some (id d)) /\ F c = c).
Proof.
  intros Hc. unfold chainId_of. destruct (linkPrecedence c) eqn:Ec; cbn [is_primary].
  - destruct (in_dec Z.eq_dec (id c) (map id others)) as [Hin | Hout].
    + left. pose proof Hin as Hin'. apply in_map_iff in Hin'.
      destruct Hin' as (d & Hid & Hd). exists d.
      split; [exact Hd|]. split; [now rewrite Hid|].
      now apply merged_demoted.
    + right. split.
      * intros d Hd E. apply Hout. inversion E as [E']. rewrite E'.
        now apply in_map.
      * now apply (merged_primary_kept st now o others Hwf).
  - destruct (wf_secondary st Hwf c Hc Ec) as (q & Hq & Hl & Hqp & _).
    destruct (in_dec Z.eq_dec (id q) (map id others)) as [Hin | Hout].
    + left. pose proof Hin as Hin'. apply in_map_iff in Hin'.
      destruct Hin' as (d & Hid & Hd). exists d.
      split; [exact Hd|]. split; [now rewrite Hl, Hid|].
      now apply (merged_relinked st now o others Hwf c (id q)).
    + right. split.
      * intros d Hd E. apply Hout. rewrite Hl in E. inversion E as [E'].
        rewrite E'. now apply in_map.
      * now apply (merged_secondary_kept st now o others Hwf Hothers c (id q)).
Qed.

Lemma merged_chainId_uniform (a b : Contact) :
  In a (rows st) -> In b (rows st) -> chainId_of a = chainId_of b ->
  chainId_of (F a) = chainId_of (F b).
Proof.
  assert (Hdem : forall x, demoted_to (id o) x -> chainId_of x = Some (id o)).
  { intros x [Hs Hl]. unfold chainId_of. now rewrite Hs. }
  intros Ha Hb E.
  destruct (merged_chainId_spec a Ha) as [(d & Hd & Hk & Hm) | [Hn Hk]];
    destruct (merged_chainId_spec b Hb) as [(d' & Hd' & Hk' & Hm') | [Hn' Hk']].
  - now rewrite (Hdem _ Hm), (Hdem _ Hm').
  - exfalso. apply (Hn' d Hd). congruence.
  - exfalso. apply (Hn d' Hd'). congruence.
  - now rewrite Hk, Hk'.
Qed.
End MergedChainIds.

Lemma chain_reply (st : Store) (p : Contact) :
  WF st -> linkPrecedence p = primary ->
  exists b,
    response_body (sort_by chain_order (p :: chain_children st p)) = Some b /\
    returnResponse (sort_by chain_order (p :: chain_children st p)) =
    Reply 200 (contact_json b).
Proof.
  intros Hwf Hprim. unfold returnResponse, response_body.
  rewrite (chain_primary_found st Hwf p Hprim).
  eexists. split; reflexivity.
Qed.

Lemma respond_chain_reply (msg : string) (st : Store) (p : Contact) :
  WF st -> In p (rows st) -> linkPrecedence p = primary -> live p = true ->
  exists b,
    snd (respond_chain never_fails msg (id p) st) = Reply 200 (contact_json b) /\
    response_body (sort_by chain_order (p :: chain_children st p)) = Some b.
Proof.
  intros Hwf Hp Hprim Hlive. rewrite respond_chain_outcome. cbn [never_fails].
  rewrite (chain_of_primary st Hwf p Hp Hprim Hlive). cbn [snd].
  destruct (chain_reply st p Hwf Hprim) as (b & Hb & Hr). now exists b.
Qed.

Section Consolidation.
Variables (now : Z) (em ph : option string) (st : Store).
Hypothesis Hwf : WF st.

Let new_row (link : option Z) (prec : LinkPrecedence) (s : Store) : Contact :=
  mkContact (next_id s) (or_null ph) (or_null em) link prec now now None.

Lemma new_row_matches (link : option Z) (prec : LinkPrecedence) (s : Store) :
  (truthy em = true -> column_is em (email (new_row link prec s)) = true) /\
  (truthy ph = true -> column_is ph (phoneNumber (new_row link prec s)) = true).
Proof. split; intros H; now apply column_is_or_null. Qed.

(** No match: a new primary is added. *)
Lemma rearranges_new :
  findContactsByEmailOrPhone em ph st = [] ->
  rearranges now em ph st
    (insert_contact now (or_null ph) (or_null em) None primary st)
    (new_row None primary st) (fun c => c) [new_row None primary st].
Proof.
  intros Hnone. constructor.
  - unfold insert_contact. cbn [rows]. now rewrite map_id.
  - intros c. apply same_facts_refl.
  - now apply WF_insert.
  - split; [apply insert_new_In | split; reflexivity].
  - rewrite Hnone. intros c [].
  - intros a b _ _ E. exact E.
  - intros c _. now left.
  - right. exists (new_row None primary st). split; [reflexivity|].
    split; [repeat split|]. split; [reflexivity | now left].
Qed.

(** The new primary is alone in its chain. *)
Lemma consolidates_new :
  findContactsByEmailOrPhone em ph st = [] ->
  let st1 := insert_contact now (or_null ph) (or_null em) None primary st in
  consolidates now em ph st st1
    (Reply 200 (contact_json (mkBody (seq st1) (singleton_if em)
                                     (singleton_if ph) [])))
    (new_row None primary st) (fun c => c) [new_row None primary st].
Proof.
  intros Hnone st1.
  assert (Hkids : chain_children st1 (new_row None primary st) = []).
  { unfold chain_children. apply filter_none. intros r Hr.
    unfold st1, insert_contact in Hr. cbn [rows] in Hr.
    apply in_app_or in Hr. destruct Hr as [Hr | [<- | []]].
    - destruct (linked_to (id (new_row None primary st)) r) eqn:E; [|reflexivity].
      apply linked_to_iff in E. exfalso.
      exact (no_children_of_new st r Hwf Hr E).
    - reflexivity. }
  constructor.
  - now apply rearranges_new.
  - rewrite Hkids. eexists. split; [reflexivity|].
    unfold new_row. cbn [sort_by fold_right insert_by]. unfold response_body.
    cbn [find filter linkPrecedence is_primary is_secondary map email
         phoneNumber id].
    rewrite !new_Set_singleton. reflexivity.
  - intros Ht. exists (new_row None primary st).
    split; [apply insert_new_In|]. split; [reflexivity|].
    split; [reflexivity|]. now apply new_row_matches.
  - intros Ht. exists (new_row None primary st).
    split; [apply insert_new_In|]. split; [reflexivity|].
    split; [reflexivity|]. now apply new_row_matches.
Qed.

Section OneChain.
Variable p : Contact.
Hypothesis Hp : In p (rows st) /\ linkPrecedence p = primary /\ live p = true.
Hypothesis Hall : forall c, In c (findContactsByEmailOrPhone em ph st) ->
    chainId_of c = Some (id p).

Let chain := sort_by chain_order (p :: chain_children st p).

Lemma chain_member_row (c : Contact) :
  In c chain -> In c (rows st) /\ live c = true /\ chainId_of c = Some (id p).
Proof.
  intros Hc. destruct Hp as (Hrow & Hprim & Hlive).
  destruct (chain_rows st _ _ c (chain_of_primary st Hwf p Hrow Hprim Hlive) Hc)
    as [H1 H2].
  split; [exact H1|]. split; [exact H2|].
  apply (chain_member_key st Hwf p c Hrow Hprim).
  exact (proj1 (sort_by_In chain_order (p :: chain_children st p) c) Hc).
Qed.

(** One chain, nothing written. *)
Lemma rearranges_known : rearranges now em ph st st p (fun c => c) [].
Proof.
  constructor.
  - now rewrite map_id, app_nil_r.
  - intros c. apply same_facts_refl.
  - exact Hwf.
  - exact Hp.
  - exact Hall.
  - intros a b _ _ E. exact E.
  - intros c _. now left.
  - now left.
Qed.

(** One chain that holds every value of the request: nothing changes. *)
Lemma consolidates_known :
  (truthy em = true -> has_value em email chain = true) ->
  (truthy ph = true -> has_value ph phoneNumber chain = true) ->
  consolidates now em ph st st (returnResponse chain) p (fun c => c) [].
Proof.
  intros He Hph. destruct Hp as (Hrow & Hprim & Hlive). constructor.
  - exact rearranges_known.
  - destruct (chain_reply st p Hwf Hprim) as (b & Hb & Hr). now exists b.
  - intros Ht. destruct (has_value_exists _ _ _ (He Ht)) as (_ & c & Hc & Hm).
    exists c. destruct (chain_member_row c Hc) as (H1 & H2 & H3). auto.
  - intros Ht. destruct (has_value_exists _ _ _ (Hph Ht)) as (_ & c & Hc & Hm).
    exists c. destruct (chain_member_row c Hc) as (H1 & H2 & H3). auto.
Qed.

(** One chain and something new: a secondary of its primary is added. *)
Lemma rearranges_extended :
  rearranges now em ph st
    (insert_contact now (or_null ph) (or_null em) (Some (id p)) secondary st)
    p (fun c => c) [new_row (Some (id p)) secondary st].
Proof.
  destruct Hp as (Hrow & Hprim & Hlive). constructor.
  - unfold insert_contact. cbn [rows]. now rewrite map_id.
  - intros c. apply same_facts_refl.
  - apply WF_insert; [exact Hwf | exists p; auto].
  - split; [now apply insert_rows_In | auto].
  - exact Hall.
  - intros a b _ _ E. exact E.
  - intros c _. now left.
  - right. exists (new_row (Some (id p)) secondary st). split; [reflexivity|].
    split; [repeat split|]. split; [reflexivity | now right].
Qed.

Lemma consolidates_extended (msg : string) :
  let st1 := insert_contact now (or_null ph) (or_null em) (Some (id p))
                            secondary st in
  consolidates now em ph st st1 (snd (respond_chain never_fails msg (id p) st1))
    p (fun c => c) [new_row (Some (id p)) secondary st].
Proof.
  intros st1. pose proof rearranges_extended as Hra.
  destruct Hp as (Hrow & Hprim & Hlive).
  constructor.
  - exact Hra.
  - apply respond_chain_reply; auto.
    + exact (ra_wf _ _ _ _ _ _ _ _ Hra).
    + now apply insert_rows_In.
  - intros Ht. exists (new_row (Some (id p)) secondary st).
    split; [apply insert_new_In|]. split; [reflexivity|].
    split; [reflexivity|]. now apply new_row_matches.
  - intros Ht. exists (new_row (Some (id p)) secondary st).
    split; [apply insert_new_In|]. split; [reflexivity|].
    split; [reflexivity|]. now apply new_row_matches.
Qed.
End OneChain.
End Consolidation.

Section MergeConsolidation.
Variables (now : Z) (em ph : option string) (st : Store) (m : ChainMap)
          (o : Contact) (others : list Contact).
Hypothesis Hwf : WF st.
Hypothesis Hm :
  collectChains never_fails st (findContactsByEmailOrPhone em ph st) [] =
  Collected m.
Hypothesis Hs : sorted_primaries (concat (map snd m)) = o :: others.

Let F := merged_row now (id o) (map id others).
Let st1 := update_rows F st.
Let M := findContactsByEmailOrPhone em ph st.

Lemma merge_facts :
  (In o (rows st) /\ linkPrecedence o = primary /\ live o = true) /\
  (forall d, In d others ->
             In d (rows st) /\ linkPrecedence d = primary /\ live d = true) /\
  ~ In (id o) (map id others) /\
  WF st1 /\ In o (rows st1).
Proof.
  destruct (merge_plan_rows st M m o others Hwf Hm Hs)
    as (_ & Ho & Hothers & Hfresh).
  split; [exact Ho|]. split; [exact Hothers|]. split; [exact Hfresh|].
  split; [now apply WF_merged|].
  unfold st1, update_rows. cbn [rows].
  rewrite <- (merged_survivor st now o others Hwf Ho Hfresh) at 1.
  apply in_map. tauto.
Qed.

Lemma merge_moves_matches (c : Contact) :
  In c M -> chainId_of (F c) = Some (id o).
Proof.
  intros Hc. destruct merge_facts as (Ho & Hothers & Hfresh & _).
  pose proof Hc as Hc'. apply findContacts_In in Hc'.
  destruct Hc' as (Hrow & Hlive & _).
  destruct (matches_in_plan st M m o others c Hwf Hm Hs Hc Hrow Hlive)
    as (q & Hq & Hk).
  now apply (merged_chainId st now o others Hwf Ho Hothers Hfresh c q).
Qed.

Lemma merge_moves_chains (c : Contact) :
  In c (concat (map snd m)) ->
  In c (rows st) /\ live c = true /\ chainId_of (F c) = Some (id o).
Proof.
  intros Hc. destruct merge_facts as (Ho & Hothers & Hfresh & _).
  apply in_concat in Hc. destruct Hc as (v & Hv & Hc).
  apply in_map_iff in Hv. destruct Hv as ([k v'] & E & Hkv). simpl in E. subst v'.
  destruct (collected_chains st M m Hm) as [Hall _].
  pose proof (Hall k v Hkv) as Hchain.
  destruct (chain_rows st k v c Hchain Hc) as [Hrow Hlive].
  split; [exact Hrow|]. split; [exact Hlive|].
  destruct (chain_of_key st Hwf k v Hchain)
    as [-> | (q & Hq & Hprim & Hql & -> & ->)]; [destruct Hc|].
  assert (Hqin : In q (o :: others)).
  { destruct (merge_plan_rows st M m o others Hwf Hm Hs) as (Hperm & _).
    apply (Permutation_in _ (Permutation_sym Hperm)).
    unfold implicated_primaries. apply filter_In. split.
    - apply in_concat. exists (sort_by chain_order (q :: chain_children st q)).
      split; [exact (in_map snd m _ Hkv)|]. apply sort_by_In. now left.
    - now rewrite Hprim. }
  apply (merged_chainId st now o others Hwf Ho Hothers Hfresh c q Hrow Hqin).
  apply (chain_member_key st Hwf q c Hq Hprim). now apply sort_by_In in Hc.
Qed.

Lemma merge_moved (c : Contact) :
  In c (rows st) ->
  F c = c \/
  (demoted_to (id o) (F c) /\ In o (rows st) /\
   exists d, In d (rows st) /\ linkPrecedence d = primary /\
             chainId_of c = Some (id d) /\ createdAt o <= createdAt d).
Proof.
  intros Hc. destruct merge_facts as (Ho & Hothers & Hfresh & _).
  destruct (merged_chainId_spec st now o others Hwf Hothers c Hc)
    as [(d & Hd & Hk & Hdem) | [_ Hk]]; [right | now left].
  split; [exact Hdem|]. split; [tauto|]. exists d.
  destruct (Hothers d Hd) as (H1 & H2 & _).
  split; [exact H1|]. split; [exact H2|]. split; [exact Hk|].
  exact (sorted_primaries_head_oldest _ o d others Hs Hd).
Qed.

Lemma merge_value_kept (v : option string) (f : Contact -> option string) :
  (forall c, f (F c) = f c) ->
  has_value v f (concat (map snd m)) = true ->
  exists c, In c (rows st1) /\ live c = true /\
            chainId_of c = Some (id o) /\ column_is v (f c) = true.
Proof.
  intros Hf Hv. destruct (has_value_exists _ _ _ Hv) as (_ & c & Hc & Hcol).
  destruct (merge_moves_chains c Hc) as (Hrow & Hlive & Hk).
  exists (F c). split; [unfold st1, update_rows; cbn [rows]; now apply in_map|].
  split; [unfold F; now rewrite merged_row_live|].
  split; [exact Hk | now rewrite Hf].
Qed.

Lemma F_email (c : Contact) : email (F c) = email c.
Proof. apply (merged_row_facts now (id o) (map id others) c). Qed.

Lemma F_phoneNumber (c : Contact) : phoneNumber (F c) = phoneNumber c.
Proof. apply (merged_row_facts now (id o) (map id others) c). Qed.

(** Several chains: they are merged into the chain of the survivor. *)
Lemma rearranges_merged : rearranges now em ph st st1 o F [].
Proof.
  destruct merge_facts as (Ho & Hothers & Hfresh & Hwf1 & Ho1).
  constructor.
  - now rewrite app_nil_r.
  - intros c. apply merged_row_facts.
  - exact Hwf1.
  - tauto.
  - exact merge_moves_matches.
  - exact (merged_chainId_uniform st now o others Hwf Hothers).
  - exact merge_moved.
  - now left.
Qed.

(** Several chains holding every value of the request: they are merged
    and nothing is added. *)
Lemma consolidates_merged (msg : string) :
  (truthy em = true -> has_value em email (concat (map snd m)) = true) ->
  (truthy ph = true -> has_value ph phoneNumber (concat (map snd m)) = true) ->
  consolidates now em ph st st1 (snd (respond_chain never_fails msg (id o) st1))
    o F [].
Proof.
  intros He Hph. destruct merge_facts as (Ho & Hothers & Hfresh & Hwf1 & Ho1).
  constructor.
  - exact rearranges_merged.
  - apply respond_chain_reply; tauto.
  - intros Ht. exact (merge_value_kept em email F_email (He Ht)).
  - intros Ht. exact (merge_value_kept ph phoneNumber F_phoneNumber (Hph Ht)).
Qed.

(** Several chains and something new: they are merged and a secondary of
    the survivor is added. *)
Lemma rearranges_merged_extended :
  rearranges now em ph st
    (insert_contact now (or_null ph) (or_null em) (Some (id o)) secondary st1)
    o F
    [mkContact (next_id st1) (or_null ph) (or_null em) (Some (id o))
               secondary now now None].
Proof.
  destruct merge_facts as (Ho & Hothers & Hfresh & Hwf1 & Ho1).
  constructor.
  - reflexivity.
  - intros c. apply merged_row_facts.
  - apply WF_insert; [exact Hwf1|]. exists o. tauto.
  - split; [now apply insert_rows_In | tauto].
  - exact merge_moves_matches.
  - exact (merged_chainId_uniform st now o others Hwf Hothers).
  - exact merge_moved.
  - right. eexists. split; [reflexivity|]. split.
    + unfold inserted_row.
      cbn [id email phoneNumber createdAt updatedAt deletedAt].
      repeat split. apply next_id_ids; [|reflexivity].
      apply update_rows_ids. intros c. apply merged_row_facts.
    + split; [reflexivity | now right].
Qed.

Lemma consolidates_merged_extended (msg : string) :
  let new := mkContact (next_id st1) (or_null ph) (or_null em) (Some (id o))
                       secondary now now None in
  let st2 := insert_contact now (or_null ph) (or_null em) (Some (id o))
                            secondary st1 in
  consolidates now em ph st st2 (snd (respond_chain never_fails msg (id o) st2))
    o F [new].
Proof.
  intros new st2. pose proof rearranges_merged_extended as Hra.
  destruct merge_facts as (Ho & Hothers & Hfresh & Hwf1 & Ho1).
  assert (Hnew : In new (rows st2)) by apply insert_new_In.
  constructor.
  - exact Hra.
  - apply respond_chain_reply; try tauto.
    + exact (ra_wf _ _ _ _ _ _ _ _ Hra).
    + now apply insert_rows_In.
  - intros Ht. exists new. split; [exact Hnew|]. split; [reflexivity|].
    split; [reflexivity|]. now apply column_is_or_null.
  - intros Ht. exists new. split; [exact Hnew|]. split; [reflexivity|].
    split; [reflexivity|]. now apply column_is_or_null.
Qed.
End MergeConsolidation.

Section MatchedChains.
Variables (em ph : option string) (st : Store) (c0 : Contact)
          (cs : list Contact) (m : ChainMap).
Hypothesis Hwf : WF st.
Hypothesis Hf : findContactsByEmailOrPhone em ph st = c0 :: cs.
Hypothesis Hm : collectChains never_fails st (c0 :: cs) [] = Collected m.

Lemma matched_rows (c : Contact) :
  In c (c0 :: cs) -> In c (rows st) /\ live c = true.
Proof. intros Hc. rewrite <- Hf in Hc. apply findContacts_In in Hc. tauto. Qed.

(** The Map is not empty. *)
Lemma matched_some_chain : m <> [].
Proof.
  intros ->. destruct (collectChains_spec st (c0 :: cs) [] [] Hm) as (_ & Hkeys & _).
  assert (H : In (chainId_of c0) (map fst (@nil (option Z * list Contact)))).
  { apply Hkeys. right. exists c0. split; [now left | reflexivity]. }
  destruct H.
Qed.

(** With one entry, it is the chain of a live primary which every match
    belongs to. *)
Lemma matched_one_chain (k1 : option Z) (v1 : list Contact) :
  m = [(k1, v1)] ->
  exists p0,
    (In p0 (rows st) /\ linkPrecedence p0 = primary /\ live p0 = true) /\
    k1 = Some (id p0) /\
    v1 = sort_by chain_order (p0 :: chain_children st p0) /\
    forall c, In c (findContactsByEmailOrPhone em ph st) ->
              chainId_of c = Some (id p0).
Proof.
  intros ->.
  destruct (collectChains_spec st (c0 :: cs) [] _ Hm) as (_ & Hkeys & _).
  destruct (collected_chains st (c0 :: cs) _ Hm) as [Hchains _].
  destruct (matched_rows c0 (or_introl eq_refl)) as [Hrow0 Hlive0].
  destruct (chain_of_row st Hwf c0 Hrow0 Hlive0)
    as (p0 & Hp0 & Hprim0 & Hpl0 & Hk0 & _).
  assert (Hone : forall c, In c (c0 :: cs) -> chainId_of c = k1).
  { intros c Hc. assert (H : In (chainId_of c) (map fst [(k1, v1)])).
    { apply Hkeys. right. now exists c. }
    destruct H as [H | []]. now symmetry. }
  assert (Hk1 : k1 = Some (id p0)).
  { rewrite <- (Hone c0 (or_introl eq_refl)). exact Hk0. }
  exists p0. split; [auto|]. split; [exact Hk1|]. split.
  - pose proof (Hchains _ _ (or_introl eq_refl)) as H. rewrite Hk1 in H.
    rewrite (chain_of_primary st Hwf p0 Hp0 Hprim0 Hpl0) in H.
    now inversion H.
  - intros c Hc. rewrite Hf in Hc. rewrite <- Hk1. now apply Hone.
Qed.

(** The collected chains hold a primary. *)
Lemma matched_primaries :
  sorted_primaries (concat (map snd m)) <> [].
Proof.
  intros Hs.
  destruct (matched_rows c0 (or_introl eq_refl)) as [Hrow0 Hlive0].
  destruct (chain_of_row st Hwf c0 Hrow0 Hlive0)
    as (p0 & Hp0 & Hprim0 & Hpl0 & Hk0 & _).
  assert (Hin : In p0 (implicated_primaries m)).
  { apply (chain_primary_implicated st (c0 :: cs) m c0 p0); auto. now left. }
  apply sort_by_nil in Hs. unfold implicated_primaries in Hin.
  rewrite Hs in Hin. destruct Hin.
Qed.
End MatchedChains.

(** On a well-formed table and a store that never fails, every request
    with a usable field ends in one of the five ways above. *)
Lemma identify_consolidates (now : Z) (em ph : option string) (st : Store) :
  WF st -> truthy em || truthy ph = true ->
  exists p G extra,
    consolidates now em ph st
      (fst (identify never_fails now (mkRequest em ph) st))
      (snd (identify never_fails now (mkRequest em ph) st)) p G extra.
Proof.
  intros Hwf Htruthy. unfold identify. cbn [req_email req_phoneNumber].
  replace (negb (truthy em) && negb (truthy ph)) with false
    by (destruct (truthy em), (truthy ph); simpl in *; congruence).
  change (never_fails FindContacts) with false. cbv iota.
  destruct (findContactsByEmailOrPhone em ph st) as [|c0 cs] eqn:Hf.
  - cbn [never_fails fst snd]. do 3 eexists. now apply consolidates_new.
  - destruct (collectChains_total st (c0 :: cs) []
                Hwf (matched_rows em ph st c0 cs Hf)) as [m Hm].
    rewrite Hm.
    assert (Hm' : collectChains never_fails st
                    (findContactsByEmailOrPhone em ph st) [] = Collected m)
      by (now rewrite Hf).
    unfold processContactChains.
    destruct m as [|[k1 v1] [|e2 m']].
    + destruct (matched_some_chain st c0 cs [] Hm eq_refl).
    + destruct (matched_one_chain em ph st c0 cs _ Hwf Hf Hm k1 v1 eq_refl)
        as (p0 & Hp0 & -> & -> & Hall).
      destruct (negb _ || negb _) eqn:Hnew.
      * rewrite (chain_primary_found st Hwf p0) by tauto. cbn [never_fails].
        rewrite respond_chain_store. do 3 eexists.
        apply (consolidates_extended now em ph st Hwf p0); auto.
      * cbn [fst snd]. apply orb_false_iff in Hnew. destruct Hnew as [H1 H2].
        apply negb_false_iff in H1, H2. do 3 eexists.
        apply (consolidates_known now em ph st Hwf p0); auto.
    + set (m := (k1, v1) :: e2 :: m') in *.
      destruct (sorted_primaries (concat (map snd m))) as [|o others] eqn:Hs.
      { destruct (matched_primaries em ph st c0 cs m Hwf Hf Hm Hs). }
      destruct (merge_facts now em ph st m o others Hwf Hm' Hs)
        as (_ & _ & Hfresh & _).
      unfold merge_chains.
      rewrite run_updates_rows, resolves_never_fails, merged_store
        by exact Hfresh.
      cbn [negb].
      destruct ((_ || _) && (_ || _)) eqn:Hknown.
      * rewrite respond_chain_store. do 3 eexists.
        apply andb_true_iff in Hknown. destruct Hknown as [H1 H2].
        apply (consolidates_merged now em ph st m o others Hwf Hm' Hs).
        -- intros Ht. rewrite Ht in H1. exact H1.
        -- intros Ht. rewrite Ht in H2. exact H2.
      * cbn [never_fails]. rewrite respond_chain_store. do 3 eexists.
        apply (consolidates_merged_extended now em ph st m o others Hwf Hm' Hs).
Qed.

(** On a well-formed table, whichever calls fail, a request leaves the
    table as it was, or stops in the middle of a merge, or rearranges the
    table as a request that meets no failure does. *)
Lemma identify_rearranges (fails : Stmt -> bool) (now : Z)
  (em ph : option string) (st : Store) :
  WF st ->
  fst (identify fails now (mkRequest em ph) st) = st \/
  merge_failed (snd (identify fails now (mkRequest em ph) st)) \/
  exists p G extra,
    rearranges now em ph st (fst (identify fails now (mkRequest em ph) st))
               p G extra.
Proof.
  intros Hwf. unfold identify. cbn [req_email req_phoneNumber].
  destruct (negb (truthy em) && negb (truthy ph)); [now left|].
  destruct (fails FindContacts); [now left|].
  destruct (findContactsByEmailOrPhone em ph st) as [|c0 cs] eqn:Hf.
  - destruct (fails InsertContact); [now left|]. right. right. cbn [fst].
    do 3 eexists. now apply rearranges_new.
  - destruct (collectChains fails st (c0 :: cs) []) as [m| |] eqn:Hm0;
      [|now left|now left].
    pose proof (collectChains_collected fails st _ _ m Hm0) as Hm.
    assert (Hm' : collectChains never_fails st
                    (findContactsByEmailOrPhone em ph st) [] = Collected m)
      by (now rewrite Hf).
    unfold processContactChains.
    destruct m as [|[k1 v1] [|e2 m']]; [now left| |].
    + destruct (matched_one_chain em ph st c0 cs _ Hwf Hf Hm k1 v1 eq_refl)
        as (p0 & Hp0 & -> & -> & Hall).
      destruct (negb _ || negb _); [|now left].
      rewrite (chain_primary_found st Hwf p0) by tauto.
      destruct (fails InsertContact); [now left|].
      rewrite respond_chain_store. right. right. do 3 eexists.
      now apply (rearranges_extended now em ph st Hwf p0).
    + set (m := (k1, v1) :: e2 :: m') in *.
      destruct (sorted_primaries (concat (map snd m))) as [|o others] eqn:Hs;
        [now left|].
      destruct (merge_facts now em ph st m o others Hwf Hm' Hs)
        as (_ & _ & Hfresh & _).
      unfold merge_chains. rewrite run_updates_rows.
      destruct (forallb (resolves fails) others) eqn:Hok; cbn [negb];
        [|right; left; reflexivity].
      rewrite (update_rows_ext _ _ st
                 (fun c => run_row_resolved fails now (id o) others c Hok)).
      rewrite merged_store by exact Hfresh.
      right. right.
      destruct ((_ || _) && (_ || _)).
      * rewrite respond_chain_store. do 3 eexists.
        exact (rearranges_merged now em ph st m o others Hwf Hm' Hs).
      * destruct (fails InsertContact).
        -- cbn [fst]. do 3 eexists.
           exact (rearranges_merged now em ph st m o others Hwf Hm' Hs).
        -- rewrite respond_chain_store. do 3 eexists.
           exact (rearranges_merged_extended now em ph st m o others Hwf Hm' Hs).
Qed.

(** ** The reply and the stored chain *)

Lemma filter_all {A : Type} (f : A -> bool) (l : list A) :
  (forall x, In x l -> f x = true) -> filter f l = l.
Proof.
  induction l as [|x t IH]; intros H; simpl; [reflexivity|].
  rewrite (H x (or_introl eq_refl)). f_equal. apply IH.
  intros y Hy. apply H. now right.
Qed.

Lemma fold_set_add_complete (l s : list string) (x : string) :
  In x s \/ In x l -> In x (fold_left set_add l s).
Proof.
  revert s. induction l as [|y t IH]; intros s H; simpl.
  - destruct H as [H | []]. exact H.
  - apply IH. unfold set_add.
    destruct (existsb (String.eqb y) s) eqn:E.
    + destruct H as [H | [<- | H]]; auto.
      left. apply existsb_exists in E. destruct E as (z & Hz & E).
      apply String.eqb_eq in E. now subst.
    + destruct H as [H | [<- | H]]; auto.
      * left. apply in_or_app. now left.
      * left. apply in_or_app. right. now left.
Qed.

Lemma new_Set_complete (l : list string) (x : string) :
  In x l -> In x (new_Set l).
Proof. intros H. apply fold_set_add_complete. now right. Qed.

Lemma filter_Boolean_complete (l : list (option string)) (e : string) :
  In (Some e) l -> e <> ""%string -> In e (filter_Boolean l).
Proof.
  intros Hin Hne. induction l as [|[s|] t IH]; simpl in *.
  - destruct Hin.
  - destruct Hin as [E | Hin].
    + inversion E; subst. apply String.eqb_neq in Hne. rewrite Hne. now left.
    + destruct (s =? "")%string; [auto | right; auto].
  - destruct Hin as [E | Hin]; [discriminate | auto].
Qed.

Lemma column_is_eq (v col : option string) :
  column_is v col = true -> col = v /\ v <> None.
Proof.
  destruct v as [s|], col as [t|]; simpl; try discriminate.
  intros H. apply String.eqb_eq in H. subst. split; [reflexivity | discriminate].
Qed.

(** The body built from the chain of a live primary of a well-formed
    table. *)
Lemma chain_body (st : Store) (p : Contact) :
  WF st -> In p (rows st) -> linkPrecedence p = primary -> live p = true ->
  let secs := sort_by (fun a b => createdAt a <=? createdAt b)
                      (chain_children st p) in
  response_body (sort_by chain_order (p :: chain_children st p)) =
  Some (mkBody (id p)
          (new_Set (filter_Boolean (email p :: map email secs)))
          (new_Set (filter_Boolean (phoneNumber p :: map phoneNumber secs)))
          (map id secs)).
Proof.
  intros Hwf Hp Hprim Hlive secs.
  assert (Hsecs : forall c, In c secs -> linkPrecedence c = secondary).
  { intros c Hc. apply sort_by_In in Hc.
    exact (chain_children_secondary st Hwf p c Hc). }
  unfold response_body. rewrite (chain_primary_found st Hwf p Hprim).
  assert (E : sort_by chain_order (p :: chain_children st p) = secs ++ [p]).
  { pose proof (chain_of_primary st Hwf p Hp Hprim Hlive) as H1.
    pose proof (chain_secondaries_then_primary st p Hwf Hp Hprim Hlive) as H2.
    unfold secs. congruence. }
  rewrite E, filter_app. cbn [filter]. rewrite Hprim. cbn [is_secondary].
  rewrite app_nil_r, filter_all; [reflexivity|].
  intros c Hc. now rewrite (Hsecs c Hc).
Qed.

Lemma identify_success_valid (fails : Stmt -> bool) (now : Z) (req : Request)
  (st st' : Store) (body : json) :
  identify fails now req st = (st', Reply 200 body) ->
  truthy (req_email req) || truthy (req_phoneNumber req) = true.
Proof.
  unfold identify.
  destruct (truthy (req_email req)), (truthy (req_phoneNumber req));
    try reflexivity.
  simpl. discriminate.
Qed.

Lemma identify_success_consolidates (fails : Stmt -> bool) (now : Z)
  (req : Request) (st st' : Store) (body : json) :
  WF st ->
  identify fails now req st = (st', Reply 200 body) ->
  exists p G extra,
    consolidates now (req_email req) (req_phoneNumber req) st st'
                 (Reply 200 body) p G extra.
Proof.
  intros Hwf H.
  pose proof (identify_success_valid fails now req st st' body H) as Hvalid.
  apply identify_success_never_fails in H.
  destruct (identify_consolidates now (req_email req) (req_phoneNumber req)
              st Hwf Hvalid) as (p & G & extra & Hc).
  replace (mkRequest (req_email req) (req_phoneNumber req)) with req in Hc
    by (now destruct req).
  rewrite H in Hc. cbn [fst snd] in Hc. eauto.
Qed.

(** On a well-formed table, a successful reply is the view of a chain of
    the table as stored after the request: its primary id is the id of a
    live primary row, its secondary ids are those of the live rows linked
    to that row, oldest first, and its body is the one built from that
    chain. *)
Theorem reply_is_view_of_stored_chain (fails : Stmt -> bool) (now : Z)
  (req : Request) (st st' : Store) (body : json) :
  WF st ->
  identify fails now req st = (st', Reply 200 body) ->
  exists p b chain,
    In p (rows st') /\ linkPrecedence p = primary /\ live p = true /\
    body = contact_json b /\
    getAllContactsInChain (Some (id p)) st' = Some chain /\
    response_body chain = Some b /\
    primaryContatctId b = id p /\
    secondaryContactIds b =
    map id (sort_by (fun x y => createdAt x <=? createdAt y)
                    (chain_children st' p)).
Proof.
  intros Hwf H.
  destruct (identify_success_consolidates fails now req st st' body Hwf H)
    as (p & G & extra & Hc).
  destruct (cs_primary _ _ _ _ _ _ _ _ _ Hc) as (Hp & Hprim & Hlive).
  pose proof (cs_wf _ _ _ _ _ _ _ _ _ Hc) as Hwf'.
  destruct (cs_reply _ _ _ _ _ _ _ _ _ Hc) as (b & Hb & Hbody).
  inversion Hb as [Hb'].
  exists p, b, (sort_by chain_order (p :: chain_children st' p)).
  repeat (split; [assumption || reflexivity|]).
  split; [now apply chain_of_primary|]. split; [exact Hbody|].
  rewrite (chain_body st' p Hwf' Hp Hprim Hlive) in Hbody.
  inversion Hbody. split; reflexivity.
Qed.

Lemma reply_is_view_of_stored_chain_witness :
  let req := mkRequest (Some "doc@hillvalley.edu"%string)
                       (Some "marty-phone"%string) in
  let st' := mkStore [doc; doc2;
                      mkContact 3 (Some "marty-phone"%string) None (Some 1)
                                secondary 300 500 None;
                      mkContact 4 (Some "marty-phone"%string)
                                (Some "marty@hillvalley.edu"%string) (Some 1)
                                secondary 400 500 None] 4 in
  let body := contact_json
                (mkBody 1 ["doc@hillvalley.edu"; "marty@hillvalley.edu"]%string
                        ["555-0123"; "555-0456"; "marty-phone"]%string [2; 3; 4]) in
  (WF store_reached /\
   identify never_fails 500 req store_reached = (st', Reply 200 body)) /\
  exists p b chain,
    In p (rows st') /\ linkPrecedence p = primary /\ live p = true /\
    body = contact_json b /\
    getAllContactsInChain (Some (id p)) st' = Some chain /\
    response_body chain = Some b /\
    primaryContatctId b = id p /\
    secondaryContactIds b =
    map id (sort_by (fun x y => createdAt x <=? createdAt y)
                    (chain_children st' p)).
Proof.
  cbv zeta.
  pose proof store_reached_WF as Hwf.
  assert (H : identify never_fails 500
                (mkRequest (Some "doc@hillvalley.edu"%string)
                           (Some "marty-phone"%string)) store_reached =
              (mkStore [doc; doc2;
                        mkContact 3 (Some "marty-phone"%string) None (Some 1)
                                  secondary 300 500 None;
                        mkContact 4 (Some "marty-phone"%string)
                                  (Some "marty@hillvalley.edu"%string) (Some 1)
                                  secondary 400 500 None] 4,
               Reply 200
                 (contact_json
                    (mkBody 1
                       ["doc@hillvalley.edu"; "marty@hillvalley.edu"]%string
                       ["555-0123"; "555-0456"; "marty-phone"]%string
                       [2; 3; 4]))))
    by (vm_compute; reflexivity).
  split; [split; assumption|].
  exact (reply_is_view_of_stored_chain never_fails 500 _ store_reached _ _ Hwf H).
Defined.

Lemma chain_body_values (st : Store) (p c : Contact) (b : ContactBody) :
  WF st -> In p (rows st) -> linkPrecedence p = primary -> live p = true ->
  response_body (sort_by chain_order (p :: chain_children st p)) = Some b ->
  In c (p :: chain_children st p) ->
  (id c = primaryContatctId b \/ In (id c) (secondaryContactIds b)) /\
  (forall e, email c = Some e -> e <> ""%string -> In e (emails b)) /\
  (forall n, phoneNumber c = Some n -> n <> ""%string -> In n (phoneNumbers b)).
Proof.
  intros Hwf Hp Hprim Hlive Hb Hc.
  pose proof (chain_body st p Hwf Hp Hprim Hlive) as Hcb. cbv zeta in Hcb.
  rewrite Hb in Hcb.
  set (secs := sort_by (fun a b => createdAt a <=? createdAt b)
                       (chain_children st p)) in *.
  assert (Eb : b = mkBody (id p)
                     (new_Set (filter_Boolean (email p :: map email secs)))
                     (new_Set (filter_Boolean
                                 (phoneNumber p :: map phoneNumber secs)))
                     (map id secs)) by congruence.
  rewrite Eb. cbn [primaryContatctId secondaryContactIds emails phoneNumbers].
  assert (Hin : c = p \/ In c secs).
  { destruct Hc as [<- | Hc]; [now left | right]. now apply sort_by_In. }
  split; [|split].
  - destruct Hin as [-> | Hin]; [now left | right; now apply in_map].
  - intros e He Hne. apply new_Set_complete.
    apply (filter_Boolean_complete (email p :: map email secs)); [|exact Hne].
    destruct Hin as [-> | Hin]; [left; exact He | right].
    rewrite <- He. now apply in_map.
  - intros n Hn Hne. apply new_Set_complete.
    apply (filter_Boolean_complete (phoneNumber p :: map phoneNumber secs));
      [|exact Hne].
    destruct Hin as [-> | Hin]; [left; exact Hn | right].
    rewrite <- Hn. now apply in_map.
Qed.

(** On a well-formed table, a successful reply gathers what the request
    touches: it lists the email and the phone number of the request, and
    every stored contact that matched the request is its primary or one
    of its secondaries. *)
Theorem reply_gathers_request_and_matches (fails : Stmt -> bool) (now : Z)
  (req : Request) (st st' : Store) (body : json) :
  WF st ->
  identify fails now req st = (st', Reply 200 body) ->
  exists b,
    body = contact_json b /\
    (forall e, req_email req = Some e -> e <> ""%string -> In e (emails b)) /\
    (forall n, req_phoneNumber req = Some n -> n <> ""%string ->
               In n (phoneNumbers b)) /\
    (forall c,
       In c (findContactsByEmailOrPhone (req_email req) (req_phoneNumber req) st) ->
       id c = primaryContatctId b \/ In (id c) (secondaryContactIds b)).
Proof.
  intros Hwf H.
  destruct (identify_success_consolidates fails now req st st' body Hwf H)
    as (p & G & extra & Hc).
  destruct (cs_primary _ _ _ _ _ _ _ _ _ Hc) as (Hp & Hprim & Hlive).
  pose proof (cs_wf _ _ _ _ _ _ _ _ _ Hc) as Hwf'.
  destruct (cs_reply _ _ _ _ _ _ _ _ _ Hc) as (b & Hb & Hbody).
  inversion Hb as [Hb']. exists b. split; [reflexivity|].
  assert (Hvalue : forall (v : option string) (f : Contact -> option string) s,
             v = Some s -> s <> ""%string ->
             (exists c, In c (rows st') /\ live c = true /\
                        chainId_of c = Some (id p) /\
                        column_is v (f c) = true) ->
             exists c, In c (p :: chain_children st' p) /\ f c = Some s).
  { intros v f s Hv Hs (c & Hrow & Hlc & Hk & Hcol).
    exists c. split; [now apply (chain_key_member st' Hwf')|].
    apply column_is_eq in Hcol. destruct Hcol as [-> _]. exact Hv. }
  assert (Htruthy : forall s, s <> ""%string -> truthy (Some s) = true).
  { intros s Hs. simpl. now apply negb_true_iff, String.eqb_neq. }
  split; [|split].
  - intros e He Hne.
    destruct (Hvalue _ email e He Hne) as (c & Hin & Hce).
    { apply (cs_email _ _ _ _ _ _ _ _ _ Hc). rewrite He. now apply Htruthy. }
    now apply (chain_body_values st' p c b Hwf' Hp Hprim Hlive Hbody Hin).
  - intros n Hn Hne.
    destruct (Hvalue _ phoneNumber n Hn Hne) as (c & Hin & Hcn).
    { apply (cs_phone _ _ _ _ _ _ _ _ _ Hc). rewrite Hn. now apply Htruthy. }
    now apply (chain_body_values st' p c b Hwf' Hp Hprim Hlive Hbody Hin).
  - intros c Hm.
    pose proof (cs_matches _ _ _ _ _ _ _ _ _ Hc c Hm) as Hk.
    apply findContacts_In in Hm. destruct Hm as (Hrow & Hlc & _).
    destruct (cs_facts _ _ _ _ _ _ _ _ _ Hc c) as (Hid & _ & _ & _ & Hdel).
    assert (Hin : In (G c) (p :: chain_children st' p)).
    { apply (chain_key_member st' Hwf'); auto.
      - rewrite (cs_rows _ _ _ _ _ _ _ _ _ Hc). apply in_or_app. left.
        now apply in_map.
      - unfold live in *. now rewrite Hdel. }
    rewrite <- Hid.
    now apply (chain_body_values st' p (G c) b Hwf' Hp Hprim Hlive Hbody Hin).
Qed.

Lemma reply_gathers_request_and_matches_witness :
  let req := mkRequest (Some "doc@hillvalley.edu"%string)
                       (Some "marty-phone"%string) in
  let st' := mkStore [doc; doc2;
                      mkContact 3 (Some "marty-phone"%string) None (Some 1)
                                secondary 300 500 None;
                      mkContact 4 (Some "marty-phone"%string)
                                (Some "marty@hillvalley.edu"%string) (Some 1)
                                secondary 400 500 None] 4 in
  let body := contact_json
                (mkBody 1 ["doc@hillvalley.edu"; "marty@hillvalley.edu"]%string
                        ["555-0123"; "555-0456"; "marty-phone"]%string [2; 3; 4]) in
  (WF store_reached /\
   identify never_fails 500 req store_reached = (st', Reply 200 body)) /\
  exists b,
    body = contact_json b /\
    (forall e, req_email req = Some e -> e <> ""%string -> In e (emails b)) /\
    (forall n, req_phoneNumber req = Some n -> n <> ""%string ->
               In n (phoneNumbers b)) /\
    (forall c,
       In c (findContactsByEmailOrPhone (req_email req) (req_phoneNumber req)
                                        store_reached) ->
       id c = primaryContatctId b \/ In (id c) (secondaryContactIds b)).
Proof.
  cbv zeta.
  pose proof store_reached_WF as Hwf.
  assert (H : identify never_fails 500
                (mkRequest (Some "doc@hillvalley.edu"%string)
                           (Some "marty-phone"%string)) store_reached =
              (mkStore [doc; doc2;
                        mkContact 3 (Some "marty-phone"%string) None (Some 1)
                                  secondary 300 500 None;
                        mkContact 4 (Some "marty-phone"%string)
                                  (Some "marty@hillvalley.edu"%string) (Some 1)
                                  secondary 400 500 None] 4,
               Reply 200
                 (contact_json
                    (mkBody 1
                       ["doc@hillvalley.edu"; "marty@hillvalley.edu"]%string
                       ["555-0123"; "555-0456"; "marty-phone"]%string
                       [2; 3; 4]))))
    by (vm_compute; reflexivity).
  split; [split; assumption|].
  exact (reply_gathers_request_and_matches never_fails 500 _ store_reached _ _
           Hwf H).
Defined.

(** On a well-formed table whose ids JavaScript holds exactly, and a
    store none of whose calls fails, every request with a usable field is
    answered with a success (the handler neither throws nor waits for
    ever), and the table stays well-formed. *)
Theorem wellformed_request_succeeds (now : Z) (req : Request) (st : Store) :
  WF st -> exact_ids st ->
  truthy (req_email req) || truthy (req_phoneNumber req) = true ->
  WF (fst (identify never_fails now req st)) /\
  exists b, snd (identify never_fails now req st) = Reply 200 (contact_json b).
Proof.
  intros Hwf _ Hvalid.
  destruct (identify_consolidates now (req_email req) (req_phoneNumber req)
              st Hwf Hvalid) as (p & G & extra & Hc).
  replace (mkRequest (req_email req) (req_phoneNumber req)) with req in Hc
    by (now destruct req).
  split; [exact (cs_wf _ _ _ _ _ _ _ _ _ Hc)|].
  destruct (cs_reply _ _ _ _ _ _ _ _ _ Hc) as (b & Hb & _). now exists b.
Qed.

Lemma wellformed_request_succeeds_witness :
  let req := mkRequest None (Some "555-0456"%string) in
  (WF store_reached /\ exact_ids store_reached /\
   truthy (req_email req) || truthy (req_phoneNumber req) = true) /\
  WF (fst (identify never_fails 500 req store_reached)) /\
  exists b, snd (identify never_fails 500 req store_reached) =
            Reply 200 (contact_json b).
Proof.
  cbv zeta.
  pose proof store_reached_WF as Hwf.
  assert (Hvalid : truthy (req_email (mkRequest None (Some "555-0456"%string)))
                   || truthy (req_phoneNumber
                                (mkRequest None (Some "555-0456"%string))) = true)
    by reflexivity.
  assert (Hids : exact_ids store_reached).
  { split; [|vm_compute; discriminate].
    intros c Hc. simpl in Hc.
    destruct Hc as [<- | [<- | [<- | [<- | []]]]]; vm_compute; discriminate. }
  split; [split; [exact Hwf | split; [exact Hids | exact Hvalid]]|].
  exact (wellformed_request_succeeds 500 _ store_reached Hwf Hids Hvalid).
Defined.

(** ** The primary that a merge keeps *)

Lemma implicated_chains_collected (em ph : option string) (st : Store)
  (m : ChainMap) :
  implicated_chains em ph st = Some m ->
  collectChains never_fails st (findContactsByEmailOrPhone em ph st) [] =
  Collected m.
Proof.
  unfold implicated_chains.
  destruct (collectChains never_fails st _ []); congruence.
Qed.

(** C2, as the code has it: when a request touches two chains or more of
    a well-formed table and is answered with a success, the primary it
    keeps is one of the oldest primaries of these chains: none of them
    has a smaller [createdAt].  It stays a primary contact of the table
    and is the primary of the reply, and every other primary of these
    chains is stored as a secondary contact linked to it.  Ids are not
    compared. *)
Theorem merge_keeps_an_oldest_primary (fails : Stmt -> bool) (now : Z)
  (em ph : option string) (st st' : Store) (m : ChainMap) (body : json) :
  WF st ->
  implicated_chains em ph st = Some m -> (2 <= length m)%nat ->
  identify fails now (mkRequest em ph) st = (st', Reply 200 body) ->
  exists o b,
    In o (implicated_primaries m) /\
    (forall p, In p (implicated_primaries m) -> createdAt o <= createdAt p) /\
    In o (rows st') /\ linkPrecedence o = primary /\
    body = contact_json b /\ primaryContatctId b = id o /\
    forall p, In p (implicated_primaries m) -> id p <> id o ->
      exists p', In p' (rows st') /\ same_facts p p' /\ demoted_to (id o) p'.
Proof.
  intros Hwf Him Hlen H.
  apply identify_success_never_fails in H.
  pose proof (implicated_chains_collected em ph st m Him) as Hm.
  destruct m as [|e1 [|e2 m']]; try (simpl in Hlen; lia).
  set (m := e1 :: e2 :: m') in *.
  destruct (findContactsByEmailOrPhone em ph st) as [|c0 cs] eqn:Hf;
    [discriminate|].
  assert (Hm' : collectChains never_fails st
                  (findContactsByEmailOrPhone em ph st) [] = Collected m)
    by (now rewrite Hf).
  destruct (sorted_primaries (concat (map snd m))) as [|o others] eqn:Hs.
  { destruct (matched_primaries em ph st c0 cs m Hwf Hf Hm Hs). }
  assert (Hplan : merge_plan em ph st = Some (o, others)).
  { unfold merge_plan. rewrite Him. unfold m in Hs |- *. now rewrite Hs. }
  destruct (identify_merge never_fails now em ph st o others
              never_fails_lookups Hplan) as (m0 & Hm0 & _ & E).
  rewrite Him in Hm0. inversion Hm0; subst m0; clear Hm0.
  rewrite E in H. clear E.
  destruct (merge_plan_rows st _ m o others Hwf Hm' Hs)
    as (Hperm & Ho & Hothers & Hfresh).
  assert (Hc : exists extra,
             consolidates now em ph st st' (Reply 200 body) o
               (merged_row now (id o) (map id others)) extra).
  { revert H. unfold merge_chains.
    rewrite run_updates_rows, resolves_never_fails, merged_store
      by exact Hfresh.
    cbn [negb never_fails].
    destruct ((_ || _) && (_ || _)) eqn:Hknown; intros H.
    - apply andb_true_iff in Hknown. destruct Hknown as [H1 H2].
      exists [].
      pose proof (consolidates_merged now em ph st m o others Hwf Hm' Hs
                    "Failed to get merged contacts"%string) as Hc.
      rewrite H in Hc. cbn [snd] in Hc.
      pose proof (f_equal fst H) as Hst.
      rewrite respond_chain_store in Hst. cbn [fst] in Hst. rewrite <- Hst.
      apply Hc; intros Ht.
      + rewrite Ht in H1. exact H1.
      + rewrite Ht in H2. exact H2.
    - eexists.
      pose proof (consolidates_merged_extended now em ph st m o others Hwf
                    Hm' Hs "Failed to get final contacts"%string) as Hc.
      cbv zeta in Hc. rewrite H in Hc. cbn [snd] in Hc.
      pose proof (f_equal fst H) as Hst.
      rewrite respond_chain_store in Hst. cbn [fst] in Hst. rewrite <- Hst.
      exact Hc. }
  destruct Hc as (extra & Hc).
  destruct (cs_primary _ _ _ _ _ _ _ _ _ Hc) as (Ho' & Hprim & Hlive).
  pose proof (cs_wf _ _ _ _ _ _ _ _ _ Hc) as Hwf'.
  destruct (cs_reply _ _ _ _ _ _ _ _ _ Hc) as (b & Hb & Hbody).
  inversion Hb as [Hb'].
  assert (Hin : forall p, In p (implicated_primaries m) -> In p (o :: others)).
  { intros p Hp. exact (Permutation_in _ (Permutation_sym Hperm) Hp). }
  exists o, b.
  split; [apply (Permutation_in _ Hperm); now left|].
  split.
  { intros p Hp. destruct (Hin p Hp) as [<- | Hd]; [lia|].
    exact (sorted_primaries_head_oldest _ o p others Hs Hd). }
  split; [exact Ho'|]. split; [exact Hprim|]. split; [reflexivity|].
  split.
  { rewrite (chain_body st' o Hwf' Ho' Hprim Hlive) in Hbody.
    now inversion Hbody. }
  intros p Hp Hne. destruct (Hin p Hp) as [<- | Hd]; [congruence|].
  exists (merged_row now (id o) (map id others) p).
  split.
  { rewrite (cs_rows _ _ _ _ _ _ _ _ _ Hc). apply in_or_app. left.
    apply in_map. exact (proj1 (Hothers p Hd)). }
  split; [apply merged_row_facts|].
  apply merged_demoted. now apply in_map.
Qed.

Lemma merge_keeps_an_oldest_primary_witness :
  let em := Some "doc@hillvalley.edu"%string in
  let ph := Some "marty-phone"%string in
  let m := [(Some 1, [doc2; doc]); (Some 3, [marty2; marty])] in
  let body := contact_json
                (mkBody 1 ["doc@hillvalley.edu"; "marty@hillvalley.edu"]%string
                        ["555-0123"; "555-0456"; "marty-phone"]%string [2; 3; 4]) in
  (WF store_reached /\
   implicated_chains em ph store_reached = Some m /\ (2 <= length m)%nat /\
   identify never_fails 500 (mkRequest em ph) store_reached =
     (store_merged, Reply 200 body)) /\
  exists o b,
    In o (implicated_primaries m) /\
    (forall p, In p (implicated_primaries m) -> createdAt o <= createdAt p) /\
    In o (rows store_merged) /\ linkPrecedence o = primary /\
    body = contact_json b /\ primaryContatctId b = id o /\
    forall p, In p (implicated_primaries m) -> id p <> id o ->
      exists p', In p' (rows store_merged) /\ same_facts p p' /\
                 demoted_to (id o) p'.
Proof.
  cbv zeta.
  pose proof store_reached_WF as Hwf.
  assert (Hm : implicated_chains (Some "doc@hillvalley.edu"%string)
                                 (Some "marty-phone"%string) store_reached =
               Some [(Some 1, [doc2; doc]); (Some 3, [marty2; marty])])
    by (vm_compute; reflexivity).
  assert (Hlen : (2 <= length [(Some 1, [doc2; doc]);
                               (Some 3, [marty2; marty])])%nat)
    by (simpl; lia).
  assert (H : identify never_fails 500
                (mkRequest (Some "doc@hillvalley.edu"%string)
                           (Some "marty-phone"%string)) store_reached =
              (store_merged,
               Reply 200
                 (contact_json
                    (mkBody 1
                       ["doc@hillvalley.edu"; "marty@hillvalley.edu"]%string
                       ["555-0123"; "555-0456"; "marty-phone"]%string
                       [2; 3; 4]))))
    by (vm_compute; reflexivity).
  split; [split; [exact Hwf | split; [exact Hm | split; [exact Hlen | exact H]]]|].
  exact (merge_keeps_an_oldest_primary never_fails 500 _ _ store_reached _ _ _
           Hwf Hm Hlen H).
Defined.

Lemma store_tie_requests :
  store_tie =
  fst (identify never_fails 0 (mkRequest (Some "b"%string) (Some "y"%string))
    (fst (identify never_fails 0
            (mkRequest (Some "a"%string) (Some "x"%string)) empty_store))).
Proof. vm_compute. reflexivity. Qed.

(** C2 as stated fails: [tie_a] and [tie_b] were created by two requests
    of the same second.  The request with the email of [tie_b] and the
    phone number of [tie_a] finds [tie_b] first; both are equally old,
    and the merge keeps [tie_b], whose id is the larger one: [tie_a]
    becomes its secondary and the reply names contact 2 as primary. *)
Lemma tie_survivor_has_larger_id :
  WF store_tie /\
  findContactsByEmailOrPhone (Some "b"%string) (Some "x"%string) store_tie =
    [tie_b; tie_a] /\
  implicated_chains (Some "b"%string) (Some "x"%string) store_tie =
    Some [(Some 2, [tie_b]); (Some 1, [tie_a])] /\
  identify never_fails 5 (mkRequest (Some "b"%string) (Some "x"%string))
           store_tie =
    (mkStore [tie_a_demoted; tie_b] 2,
     Reply 200 (contact_json (mkBody 2 ["b"; "a"]%string ["y"; "x"]%string [1])))
  /\
  createdAt tie_a = createdAt tie_b /\ id tie_a < id tie_b.
Proof.
  split.
  { rewrite store_tie_requests. repeat apply WF_identify. apply WF_empty. }
  vm_compute. repeat split; reflexivity.
Qed.

(** ** Invariants of the reachable tables *)

Lemma or_null_Some (v : option string) (s : string) :
  or_null v = Some s -> v = Some s /\ truthy v = true.
Proof.
  unfold or_null. destruct (truthy v) eqn:E; [|discriminate]. auto.
Qed.

Lemma column_is_refl (s : string) : column_is (Some s) (Some s) = true.
Proof. simpl. apply String.eqb_refl. Qed.

Lemma share_value_sym (a b : Contact) : share_value a b -> share_value b a.
Proof. unfold share_value. intros [(e & H1 & H2) | (n & H1 & H2)]; eauto. Qed.

Lemma share_value_facts (a a' b b' : Contact) :
  same_facts a a' -> same_facts b b' -> share_value a' b' -> share_value a b.
Proof.
  intros (_ & Ea & Pa & _) (_ & Eb & Pb & _). unfold share_value.
  rewrite Ea, Eb, Pa, Pb. auto.
Qed.

(** A stored live row that shares a value with the row a request adds
    was matched by the request. *)
Lemma shares_with_new_matches (now : Z) (em ph : option string) (st : Store)
  (a new : Contact) :
  In a (rows st) -> live a = true ->
  inserted_row now em ph st new -> share_value a new ->
  In a (findContactsByEmailOrPhone em ph st).
Proof.
  intros Ha Hlive (_ & He & Hp & _) Hshare. apply findContacts_In.
  split; [exact Ha|]. split; [exact Hlive|].
  destruct Hshare as [(e & H1 & H2) | (n & H1 & H2)].
  - left. rewrite He in H2. apply or_null_Some in H2. destruct H2 as [-> Ht].
    split; [exact Ht|]. rewrite H1. apply column_is_refl.
  - right. rewrite Hp in H2. apply or_null_Some in H2. destruct H2 as [-> Ht].
    split; [exact Ht|]. rewrite H1. apply column_is_refl.
Qed.

Section RearrangedInvariants.
Variables (now : Z) (em ph : option string) (st st' : Store)
          (p : Contact) (G : Contact -> Contact) (extra : list Contact).
Hypothesis Hr : rearranges now em ph st st' p G extra.
Hypothesis Hwf : WF st.

Lemma rearranged_row (c' : Contact) :
  In c' (rows st') ->
  (exists c, In c (rows st) /\ c' = G c) \/
  (extra = [c'] /\ inserted_row now em ph st c' /\
   chainId_of c' = Some (id p) /\ (c' = p \/ linkedId c' = Some (id p))).
Proof.
  intros Hin. rewrite (ra_rows _ _ _ _ _ _ _ _ Hr) in Hin.
  apply in_app_or in Hin. destruct Hin as [Hin | Hin].
  - left. apply in_map_iff in Hin. destruct Hin as (c & E & Hin). eauto.
  - right. destruct (ra_extra _ _ _ _ _ _ _ _ Hr) as [E | (c & E & H)].
    + rewrite E in Hin. destruct Hin.
    + rewrite E in Hin. destruct Hin as [<- | []]. tauto.
Qed.

Lemma rearranged_live :
  (forall c, In c (rows st) -> live c = true) ->
  forall c', In c' (rows st') -> live c' = true.
Proof.
  intros Hall c' Hin.
  destruct (rearranged_row c' Hin) as [(c & Hrow & ->) | (_ & Hnew & _)].
  - destruct (ra_facts _ _ _ _ _ _ _ _ Hr c) as (_ & _ & _ & _ & Hdel).
    unfold live. rewrite Hdel. exact (Hall c Hrow).
  - destruct Hnew as (_ & _ & _ & _ & _ & Hdel). unfold live. now rewrite Hdel.
Qed.

Lemma rearranged_linked_up :
  (forall c, In c (rows st) -> live c = true) ->
  linked_up st -> linked_up st'.
Proof.
  intros Hall Hup a' b' Ha' Hb' Hshare.
  assert (Hnew : forall a n, In a (rows st) -> inserted_row now em ph st n ->
                   chainId_of n = Some (id p) -> share_value (G a) n ->
                   chainId_of (G a) = chainId_of n).
  { intros a n Ha Hn Hk Hs. rewrite Hk.
    apply (ra_matches _ _ _ _ _ _ _ _ Hr).
    apply (shares_with_new_matches now em ph st a n Ha (Hall a Ha) Hn).
    destruct Hs as [(e & H1 & H2) | (m & H1 & H2)];
      destruct (ra_facts _ _ _ _ _ _ _ _ Hr a) as (_ & Ea & Pa & _);
      [left; exists e | right; exists m]; split; congruence. }
  destruct (rearranged_row a' Ha') as [(a & Ha & ->) | (Ea & Hna & Hka & _)];
    destruct (rearranged_row b' Hb') as [(b & Hb & ->) | (Eb & Hnb & Hkb & _)].
  - apply (ra_uniform _ _ _ _ _ _ _ _ Hr a b Ha Hb). apply Hup; auto.
    exact (share_value_facts a (G a) b (G b)
             (ra_facts _ _ _ _ _ _ _ _ Hr a)
             (ra_facts _ _ _ _ _ _ _ _ Hr b) Hshare).
  - now apply Hnew.
  - symmetry. apply Hnew; auto. now apply share_value_sym.
  - congruence.
Qed.

Lemma rearranged_created (t : Z) :
  t <= now ->
  (forall c, In c (rows st) -> createdAt c <= t) ->
  forall c', In c' (rows st') -> createdAt c' <= now.
Proof.
  intros Ht Hall c' Hin.
  destruct (rearranged_row c' Hin) as [(c & Hrow & ->) | (_ & Hnew & _)].
  - destruct (ra_facts _ _ _ _ _ _ _ _ Hr c) as (_ & _ & _ & Hcr & _).
    rewrite Hcr. specialize (Hall c Hrow). lia.
  - destruct Hnew as (_ & _ & _ & Hcr & _). lia.
Qed.

Lemma rearranged_primary_oldest (t : Z) :
  t <= now ->
  (forall c, In c (rows st) -> createdAt c <= t) ->
  primary_oldest st -> primary_oldest st'.
Proof.
  intros Ht Hall Hold c' q' Hc' Hq' Hl.
  pose proof (ra_wf _ _ _ _ _ _ _ _ Hr) as Hwf'.
  destruct (ra_primary _ _ _ _ _ _ _ _ Hr) as (Hp' & _).
  destruct (rearranged_row c' Hc') as [(c & Hrow & ->) | (_ & Hnew & _)].
  - destruct (ra_facts _ _ _ _ _ _ _ _ Hr c) as (_ & _ & _ & Hcr & _).
    rewrite Hcr.
    destruct (ra_moved _ _ _ _ _ _ _ _ Hr c Hrow)
      as [E | ([_ Hlp] & _ & d & Hd & Hdp & Hk & Hod)].
    + rewrite E in Hl.
      destruct (rearranged_row q' Hq') as [(q & Hq & ->) | (_ & Hn & _)].
      * destruct (ra_facts _ _ _ _ _ _ _ _ Hr q) as (Hid & _ & _ & Hcq & _).
        rewrite Hcq. apply (Hold c q Hrow Hq). now rewrite <- Hid.
      * exfalso. destruct Hn as (Hid & _). rewrite Hid in Hl.
        exact (no_children_of_new st c Hwf Hrow Hl).
    + assert (q' = p) by (apply (wf_same_id st' Hwf'); congruence).
      subst q'.
      assert (createdAt d <= createdAt c); [|lia].
      unfold chainId_of in Hk. destruct (linkPrecedence c) eqn:Ec; simpl in Hk.
      * assert (c = d) by (apply (wf_same_id st Hwf); congruence).
        subst. lia.
      * exact (Hold c d Hrow Hd Hk).
  - destruct Hnew as (_ & _ & _ & Hcr & _). rewrite Hcr.
    exact (rearranged_created t Ht Hall q' Hq').
Qed.
End RearrangedInvariants.

Lemma identify_invalid (fails : Stmt -> bool) (now : Z) (req : Request)
  (st : Store) :
  truthy (req_email req) || truthy (req_phoneNumber req) = false ->
  identify fails now req st =
  (st, Reply 400 (error_json "Either email or phoneNumber must be provided")).
Proof.
  intros H. apply orb_false_iff in H. destruct H as [H1 H2].
  unfold identify. now rewrite H1, H2.
Qed.

Lemma identify_consolidates_req (now : Z) (req : Request) (st : Store) :
  WF st ->
  truthy (req_email req) || truthy (req_phoneNumber req) = true ->
  exists p G extra,
    consolidates now (req_email req) (req_phoneNumber req) st
      (fst (identify never_fails now req st))
      (snd (identify never_fails now req st)) p G extra.
Proof.
  intros Hwf Hvalid.
  destruct (identify_consolidates now (req_email req) (req_phoneNumber req)
              st Hwf Hvalid) as (p & G & extra & Hc).
  replace (mkRequest (req_email req) (req_phoneNumber req)) with req in Hc
    by (now destruct req).
  eauto.
Qed.

(** On a well-formed table a request that meets no failure is not
    answered with the error of a merge. *)
Lemma unfailing_request_intact (now : Z) (req : Request) (st : Store) :
  WF st -> ~ merge_failed (snd (identify never_fails now req st)).
Proof.
  intros Hwf. unfold merge_failed.
  destruct (truthy (req_email req) || truthy (req_phoneNumber req)) eqn:Hvalid.
  - destruct (identify_consolidates_req now req st Hwf Hvalid)
      as (p & G & extra & Hc).
    destruct (cs_reply _ _ _ _ _ _ _ _ _ Hc) as (b & -> & _). discriminate.
  - rewrite (identify_invalid never_fails now req st Hvalid). discriminate.
Qed.

(** What every request keeps on a well-formed table, unless its merge
    stops partway: the table stays well-formed; no row is marked deleted
    and rows that share a value stay in one chain; with a clock that does
    not go back, no row is dated after the request and primaries stay the
    oldest of their chains. *)
Lemma identify_invariants (fails : Stmt -> bool) (now : Z) (req : Request)
  (st : Store) :
  WF st -> ~ merge_failed (snd (identify fails now req st)) ->
  let st' := fst (identify fails now req st) in
  WF st' /\
  ((forall c, In c (rows st) -> live c = true) ->
   (forall c, In c (rows st') -> live c = true) /\
   (linked_up st -> linked_up st')) /\
  (forall t, t <= now -> (forall c, In c (rows st) -> createdAt c <= t) ->
     (forall c, In c (rows st') -> createdAt c <= now) /\
     (primary_oldest st -> primary_oldest st')).
Proof.
  intros Hwf Hok st'. subst st'. destruct req as [em ph].
  destruct (identify_rearranges fails now em ph st Hwf)
    as [E | [Hfail | (p & G & extra & Hr)]].
  - rewrite E. split; [exact Hwf|]. split; [auto|].
    intros t Ht Hle. split; [|auto].
    intros c Hc. specialize (Hle c Hc). lia.
  - contradiction.
  - split; [exact (ra_wf _ _ _ _ _ _ _ _ Hr)|]. split.
    + intros Hlive. split.
      * exact (rearranged_live _ _ _ _ _ _ _ _ Hr Hlive).
      * exact (rearranged_linked_up _ _ _ _ _ _ _ _ Hr Hlive).
    + intros t Ht Hle. split.
      * exact (rearranged_created _ _ _ _ _ _ _ _ Hr t Ht Hle).
      * exact (rearranged_primary_oldest _ _ _ _ _ _ _ _ Hr Hwf t Ht Hle).
Qed.

Lemma WF_cleared (n : Z) : WF (mkStore [] n).
Proof. constructor; simpl; try (intros c []). constructor. Qed.

Lemma reachable_intact_invariant (st : Store) :
  reachable_intact st ->
  WF st /\ (forall c, In c (rows st) -> live c = true) /\ linked_up st.
Proof.
  induction 1 as [|st fails now req _ (Hwf & Hlive & Hup) Hok|st failed _ IH].
  - split; [apply WF_empty|]. split; [intros c []|]. intros a b [].
  - destruct (identify_invariants fails now req st Hwf Hok) as (H1 & H2 & _).
    destruct (H2 Hlive) as [H3 H4]. auto.
  - unfold clearContacts. destruct failed; [exact IH|]. cbn [fst].
    split; [apply WF_cleared|]. split; [intros c []|]. intros a b [].
Qed.

Lemma reachable_at_invariant (t : Z) (st : Store) :
  reachable_at t st ->
  WF st /\ (forall c, In c (rows st) -> createdAt c <= t) /\ primary_oldest st.
Proof.
  induction 1 as [t|t st fails now req _ (Hwf & Hle & Hold) Ht Hok
                  |t st failed _ IH].
  - split; [apply WF_empty|]. split; [intros c []|]. intros c p [].
  - destruct (identify_invariants fails now req st Hwf Hok) as (H1 & _ & H2).
    destruct (H2 t Ht Hle) as [H3 H4]. auto.
  - unfold clearContacts. destruct failed; [exact IH|]. cbn [fst].
    split; [apply WF_cleared|]. split; [intros c []|]. intros c p [].
Qed.

(** No statement of the service stores an empty string, whatever
    fails. *)
Lemma reachable_fields (st : Store) :
  reachable st ->
  forall c, In c (rows st) ->
            email c <> Some ""%string /\ phoneNumber c <> Some ""%string.
Proof.
  induction 1 as [|st fails now req _ IH|st failed _ IH]; intros c Hc.
  - destruct Hc.
  - destruct (identify_rows fails now req st)
      as (F & extra & Hrows & Hfacts & Hextra).
    rewrite Hrows in Hc. apply in_app_or in Hc. destruct Hc as [Hc | Hc].
    + apply in_map_iff in Hc. destruct Hc as (c0 & <- & Hc0).
      destruct (Hfacts c0) as (_ & -> & -> & _). exact (IH c0 Hc0).
    + destruct Hextra as [-> | (n & -> & Hn)]; [destruct Hc|].
      destruct Hc as [<- | []]. destruct Hn as (_ & -> & -> & _).
      split; apply or_null_nonempty.
  - unfold clearContacts in Hc. destruct failed; [exact (IH c Hc)|].
    destruct Hc.
Qed.

Lemma reachable_intact_reachable (st : Store) :
  reachable_intact st -> reachable st.
Proof.
  induction 1; [apply reachable_empty | now apply reachable_identify
               | now apply reachable_clear].
Qed.

Lemma reachable_intact_step (now : Z) (req : Request) (st : Store) :
  reachable_intact st ->
  reachable_intact (fst (identify never_fails now req st)).
Proof.
  intros H. apply reachable_intact_identify; [exact H|].
  apply unfailing_request_intact. now apply reachable_intact_invariant.
Qed.

Lemma reachable_at_step (t now : Z) (req : Request) (st : Store) :
  reachable_at t st -> t <= now ->
  reachable_at now (fst (identify never_fails now req st)).
Proof.
  intros H Ht. apply (reachable_at_identify t); [exact H | exact Ht |].
  apply unfailing_request_intact.
  exact (proj1 (reachable_at_invariant t st H)).
Qed.

Lemma store_reached_intact : reachable_intact store_reached.
Proof.
  rewrite store_reached_requests. repeat apply reachable_intact_step.
  apply reachable_intact_empty.
Qed.

Lemma store_half_merged_reachable : reachable store_half_merged.
Proof.
  assert (E : store_half_merged =
              fst (identify fails_relinking_marty 500
                     (mkRequest (Some "doc@hillvalley.edu"%string)
                                (Some "marty-phone"%string)) store_reached))
    by (vm_compute; reflexivity).
  rewrite E. apply reachable_identify, reachable_intact_reachable.
  exact store_reached_intact.
Qed.

(** C5, as the code has it: in every state reached from the empty table
    by requests none of which was answered with the error of a failed
    merge, no [linkedId] references a secondary contact; and when the
    statements of a merge succeed, every stored contact linked to a
    demoted primary is afterwards linked to the surviving primary. *)
Theorem reachable_links_lead_to_primaries (st : Store) :
  reachable_intact st ->
  flat st /\
  forall fails now em ph o others d c,
    lookups_succeed fails ->
    merge_plan em ph st = Some (o, others) ->
    forallb (resolves fails) others = true ->
    In d others -> In c (rows st) -> linkedId c = Some (id d) ->
    let st' := fst (identify fails now (mkRequest em ph) st) in
    (exists c', In c' (rows st') /\ id c' = id c) /\
    (forall c', In c' (rows st') -> id c' = id c -> linkedId c' = Some (id o)).
Proof.
  intros Hreach.
  destruct (reachable_intact_invariant st Hreach) as (Hwf & _).
  split; [now apply wf_flat|].
  intros fails now em ph o others d c Hread Hplan Hok Hd Hc Hl st'. subst st'.
  destruct (identify_merge fails now em ph st o others Hread Hplan)
    as (m & Hm & Hs & ->).
  destruct (merge_chains_rows fails now em ph (concat (map snd m))
                              o others st) as (extra & -> & Hextra).
  assert (Hrow : forall x, run_row fails now (id o) others x =
                           run_row never_fails now (id o) others x)
    by (intros x; now apply run_row_resolved).
  pose proof (run_row_relinks now (id o) others d c Hd Hl) as [Hrel _].
  split.
  - exists (run_row fails now (id o) others c). split.
    + apply in_or_app. left. now apply in_map.
    + apply (run_row_facts fails now (id o) others c).
  - intros c' Hc' Hid'. apply in_app_or in Hc'. destruct Hc' as [Hc' | Hc'].
    + apply in_map_iff in Hc'. destruct Hc' as (c0 & <- & Hc0).
      assert (c0 = c); [|subst c0; now rewrite Hrow].
      apply (wf_same_id st Hwf); auto.
      destruct (run_row_facts fails now (id o) others c0) as (E & _).
      congruence.
    + exfalso. apply (Hextra c' Hc'). rewrite Hid'. now apply in_map.
Qed.

Lemma reachable_links_lead_to_primaries_witness :
  let em := Some "doc@hillvalley.edu"%string in
  let ph := Some "marty-phone"%string in
  let st' := fst (identify never_fails 500 (mkRequest em ph) store_reached) in
  (reachable_intact store_reached /\
   lookups_succeed never_fails /\
   merge_plan em ph store_reached = Some (doc, [marty]) /\
   forallb (resolves never_fails) [marty] = true /\
   In marty2 (rows store_reached) /\ linkedId marty2 = Some (id marty)) /\
  flat store_reached /\
  (exists c', In c' (rows st') /\ id c' = id marty2) /\
  (forall c', In c' (rows st') -> id c' = id marty2 ->
              linkedId c' = Some (id doc)).
Proof.
  cbv zeta.
  assert (Hplan : merge_plan (Some "doc@hillvalley.edu"%string)
                             (Some "marty-phone"%string) store_reached =
                  Some (doc, [marty])) by (vm_compute; reflexivity).
  assert (Hread : lookups_succeed never_fails)
    by (split; [reflexivity | intros k; reflexivity]).
  assert (Hok : forallb (resolves never_fails) [marty] = true) by reflexivity.
  assert (Hc : In marty2 (rows store_reached)) by (simpl; tauto).
  assert (Hl : linkedId marty2 = Some (id marty)) by reflexivity.
  split;
    [split; [exact store_reached_intact
            | split; [exact Hread
                     | split; [exact Hplan
                              | split; [exact Hok | split; [exact Hc | exact Hl]]]]]|].
  destruct (reachable_links_lead_to_primaries store_reached
              store_reached_intact) as [Hflat Hmerge].
  split; [exact Hflat|].
  exact (Hmerge never_fails 500 _ _ doc [marty] marty marty2 Hread Hplan Hok
                (or_introl eq_refl) Hc Hl).
Defined.

(** C5 as stated fails: the request that merges the chains of [doc] and
    [marty] is answered, with status 500, when re-linking the contacts of
    [marty] fails; in the table it leaves, [marty2] is still linked to
    [marty], which is now a secondary contact. *)
Lemma answered_request_leaves_link_to_secondary :
  reachable store_reached /\
  identify fails_relinking_marty 500
    (mkRequest (Some "doc@hillvalley.edu"%string) (Some "marty-phone"%string))
    store_reached =
  (store_half_merged, Reply 500 (error_json "Failed to merge contacts")) /\
  reachable store_half_merged /\
  In marty2 (rows store_half_merged) /\
  In marty_demoted (rows store_half_merged) /\
  linkedId marty2 = Some (id marty_demoted) /\
  linkPrecedence marty_demoted = secondary /\
  ~ flat store_half_merged.
Proof.
  split; [exact (reachable_intact_reachable _ store_reached_intact)|].
  split; [vm_compute; reflexivity|].
  split; [exact store_half_merged_reachable|].
  assert (H1 : In marty2 (rows store_half_merged)) by (simpl; tauto).
  assert (H2 : In marty_demoted (rows store_half_merged)) by (simpl; tauto).
  repeat (split; [assumption || reflexivity|]).
  intros Hflat. specialize (Hflat marty2 marty_demoted H1 H2 eq_refl).
  discriminate Hflat.
Qed.

(** C7: in every table the service can hold, whatever failed on the way,
    the body built from a resolved chain holds no email and no phone
    number twice, and the primary contact's email (phone number), when it
    is not NULL, is the first element of its list. *)
Theorem response_lists_distinct_primary_first (st : Store) (k : option Z)
  (contacts : list Contact) (b : ContactBody) :
  reachable st ->
  getAllContactsInChain k st = Some contacts ->
  response_body contacts = Some b ->
  NoDup (emails b) /\ NoDup (phoneNumbers b) /\
  exists p,
    find (fun c => is_primary (linkPrecedence c)) contacts = Some p /\
    primaryContatctId b = id p /\
    (forall e, email p = Some e -> hd_error (emails b) = Some e) /\
    (forall n, phoneNumber p = Some n -> hd_error (phoneNumbers b) = Some n).
Proof.
  intros Hreach Hchain Hb.
  destruct (response_lists contacts b Hb) as (H1 & H2 & p & Hp & Hid & He & Hn).
  split; [exact H1|]. split; [exact H2|]. exists p.
  split; [exact Hp|]. split; [exact Hid|].
  apply find_some in Hp. destruct Hp as [Hin _].
  destruct (chain_rows st k contacts p Hchain Hin) as [Hrow _].
  destruct (reachable_fields st Hreach p Hrow) as [Hne Hnn].
  split.
  - intros e E. apply He; [exact E | congruence].
  - intros n E. apply Hn; [exact E | congruence].
Qed.

Lemma response_lists_distinct_primary_first_witness :
  let contacts := [doc2; marty_demoted; marty2; doc] in
  let b := mkBody 1 ["doc@hillvalley.edu"%string; "marty@hillvalley.edu"%string]
                  ["555-0123"%string; "555-0456"%string; "marty-phone"%string]
                  [2; 3; 4] in
  (reachable store_half_merged /\
   getAllContactsInChain (Some 1) store_half_merged = Some contacts /\
   response_body contacts = Some b) /\
  NoDup (emails b) /\ NoDup (phoneNumbers b) /\
  exists p,
    find (fun c => is_primary (linkPrecedence c)) contacts = Some p /\
    primaryContatctId b = id p /\
    (forall e, email p = Some e -> hd_error (emails b) = Some e) /\
    (forall n, phoneNumber p = Some n -> hd_error (phoneNumbers b) = Some n).
Proof.
  cbv zeta.
  assert (Hchain : getAllContactsInChain (Some 1) store_half_merged =
                   Some [doc2; marty_demoted; marty2; doc]) by (vm_compute; reflexivity).
  assert (Hb : response_body [doc2; marty_demoted; marty2; doc] =
               Some (mkBody 1 ["doc@hillvalley.edu"%string;
                               "marty@hillvalley.edu"%string]
                            ["555-0123"%string; "555-0456"%string;
                             "marty-phone"%string] [2; 3; 4]))
    by reflexivity.
  split; [split; [exact store_half_merged_reachable | split; assumption]|].
  exact (response_lists_distinct_primary_first store_half_merged (Some 1) _ _
           store_half_merged_reachable Hchain Hb).
Defined.

(** In every table produced by requests none of which was answered with
    the error of a failed merge, with or without the admin page's
    clearing between them, no row is marked deleted, no link leads to a
    secondary contact, and two rows that share an email or a phone number
    are always in the same chain. *)
Theorem reachable_rows_sharing_a_value_are_linked (st : Store) :
  reachable_intact st ->
  (forall c, In c (rows st) -> deletedAt c = None) /\
  flat st /\
  forall a b, In a (rows st) -> In b (rows st) -> share_value a b ->
              chainId_of a = chainId_of b.
Proof.
  intros H. destruct (reachable_intact_invariant st H) as (Hwf & Hlive & Hup).
  split; [|split; [now apply wf_flat | exact Hup]].
  intros c Hc. specialize (Hlive c Hc). unfold live in Hlive.
  now destruct (deletedAt c).
Qed.

Lemma reachable_rows_sharing_a_value_are_linked_witness :
  (reachable_intact store_reached /\
   In doc (rows store_reached) /\ In doc2 (rows store_reached) /\
   share_value doc doc2) /\
  (forall c, In c (rows store_reached) -> deletedAt c = None) /\
  flat store_reached /\
  chainId_of doc = chainId_of doc2.
Proof.
  assert (Hr : reachable_intact store_reached) by exact store_reached_intact.
  assert (Ha : In doc (rows store_reached)) by (simpl; tauto).
  assert (Hb : In doc2 (rows store_reached)) by (simpl; tauto).
  assert (Hs : share_value doc doc2)
    by (left; exists "doc@hillvalley.edu"%string; split; reflexivity).
  split; [split; [exact Hr | split; [exact Ha | split; [exact Hb | exact Hs]]]|].
  destruct (reachable_rows_sharing_a_value_are_linked store_reached Hr)
    as (H1 & H2 & H3).
  split; [exact H1|]. split; [exact H2|]. exact (H3 doc doc2 Ha Hb Hs).
Defined.

(** When no request was answered with the error of a failed merge and the
    timestamps of the requests never go back, the primary of a chain is
    its oldest contact: no contact was created before the primary it is
    linked to. *)
Theorem primary_is_oldest_of_its_chain (t : Z) (st : Store) :
  reachable_at t st ->
  forall c p, In c (rows st) -> In p (rows st) ->
    linkedId c = Some (id p) ->
    linkPrecedence p = primary /\ createdAt p <= createdAt c.
Proof.
  intros H c p Hc Hp Hl.
  destruct (reachable_at_invariant t st H) as (Hwf & _ & Hold).
  split; [exact (wf_flat st Hwf c p Hc Hp Hl) | exact (Hold c p Hc Hp Hl)].
Qed.

Lemma store_merged_reachable_at : reachable_at 500 store_merged.
Proof.
  assert (E : store_merged =
              fst (identify never_fails 500
                     (mkRequest (Some "doc@hillvalley.edu"%string)
                                (Some "marty-phone"%string))
                (fst (identify never_fails 400
                        (mkRequest (Some "marty@hillvalley.edu"%string)
                                   (Some "marty-phone"%string))
                   (fst (identify never_fails 300
                           (mkRequest None (Some "marty-phone"%string))
                      (fst (identify never_fails 200
                              (mkRequest (Some "doc@hillvalley.edu"%string)
                                         (Some "555-0456"%string))
                         (fst (identify never_fails 100
                                 (mkRequest (Some "doc@hillvalley.edu"%string)
                                            (Some "555-0123"%string))
                                 empty_store))))))))))
    by (vm_compute; reflexivity).
  rewrite E.
  apply (reachable_at_step 400); [|lia].
  apply (reachable_at_step 300); [|lia].
  apply (reachable_at_step 200); [|lia].
  apply (reachable_at_step 100); [|lia].
  apply (reachable_at_step 0); [|lia].
  apply reachable_at_empty.
Qed.

Lemma primary_is_oldest_of_its_chain_witness :
  (reachable_at 500 store_merged /\
   In marty_demoted (rows store_merged) /\ In doc (rows store_merged) /\
   linkedId marty_demoted = Some (id doc)) /\
  linkPrecedence doc = primary /\ createdAt doc <= createdAt marty_demoted.
Proof.
  assert (Hc : In marty_demoted (rows store_merged)) by (simpl; tauto).
  assert (Hp : In doc (rows store_merged)) by (simpl; tauto).
  assert (Hl : linkedId marty_demoted = Some (id doc)) by reflexivity.
  split;
    [split; [exact store_merged_reachable_at
            | split; [exact Hc | split; [exact Hp | exact Hl]]]|].
  exact (primary_is_oldest_of_its_chain 500 store_merged
           store_merged_reachable_at marty_demoted doc Hc Hp Hl).
Defined.

(** * The helper, the other endpoints and the admin page *)

(** ** [getPrimaryContact] *)

Lemma find_live_row (st : Store) (c : Contact) :
  WF st -> In c (rows st) -> live c = true ->
  find (fun r => (id r =? id c) && live r) (rows st) = Some c.
Proof.
  intros Hwf Hc Hlive. apply find_unique; [exact Hc | |].
  - now rewrite Z.eqb_refl, Hlive.
  - intros r Hr Hb. apply andb_true_iff in Hb. destruct Hb as [Hid _].
    apply Z.eqb_eq in Hid. now apply (wf_same_id st Hwf).
Qed.

(** In a well-formed table [getPrimaryContact] finds, for the id of a
    live contact, the primary of its chain, the one that
    [getAllContactsInChain] lists for that chain; for an id with no live
    row it finds nothing. *)
Theorem getPrimaryContact_finds_chain_primary (st : Store) :
  WF st ->
  (forall c, In c (rows st) -> live c = true ->
     exists p chain,
       getPrimaryContact (id c) st = Some p /\
       In p (rows st) /\ linkPrecedence p = primary /\ live p = true /\
       chainId_of c = Some (id p) /\
       getAllContactsInChain (chainId_of c) st = Some chain /\
       find (fun r => is_primary (linkPrecedence r)) chain = Some p) /\
  (forall k, (forall r, In r (rows st) -> id r = k -> live r = false) ->
             getPrimaryContact k st = None).
Proof.
  intros Hwf. split.
  - intros c Hc Hlive.
    destruct (chain_of_row st Hwf c Hc Hlive)
      as (p & Hp & Hprim & Hpl & Hk & Hin).
    exists p, (sort_by chain_order (p :: chain_children st p)).
    assert (Hkey : chain_key_of_id (id c) st = Some (id p)).
    { unfold chain_key_of_id. rewrite (find_live_row st c Hwf Hc Hlive).
      unfold chainId_of in Hk. destruct (linkPrecedence c) eqn:Ec; simpl in Hk.
      - rewrite (wf_primary st Hwf c Hc Ec). exact Hk.
      - now rewrite Hk. }
    split.
    + unfold getPrimaryContact. rewrite Hkey.
      rewrite (filter_single _ (rows st) p); [reflexivity | | exact Hp | |].
      * now apply wf_rows_NoDup.
      * now rewrite Hpl, Z.eqb_refl, orb_true_r.
      * intros r Hr Hb. apply andb_true_iff in Hb. destruct Hb as [_ Hb].
        apply orb_true_iff in Hb. destruct Hb as [Hb | Hb].
        -- apply andb_true_iff in Hb. destruct Hb as [Hid Hrp].
           apply Z.eqb_eq in Hid. apply is_primary_iff in Hrp.
           assert (r = c) by (now apply (wf_same_id st Hwf)). subst r.
           unfold chainId_of in Hk. rewrite Hrp in Hk. simpl in Hk.
           apply (wf_same_id st Hwf); congruence.
        -- apply Z.eqb_eq in Hb. now apply (wf_same_id st Hwf).
    + repeat (split; [assumption|]). rewrite Hk. split.
      * now apply chain_of_primary.
      * now apply chain_primary_found.
  - intros k Hdead. unfold getPrimaryContact.
    rewrite filter_none; [reflexivity|].
    intros r Hr. destruct (live r) eqn:Hlive; [|reflexivity]. cbn [andb].
    assert (Hid : (id r =? k) = false).
    { apply Z.eqb_neq. intros E. rewrite (Hdead r Hr E) in Hlive. discriminate. }
    rewrite Hid. cbn [andb orb].
    unfold chain_key_of_id.
    destruct (find _ (rows st)) as [c|] eqn:Ef; [|reflexivity].
    apply find_some in Ef. destruct Ef as [Hc Hb].
    apply andb_true_iff in Hb. destruct Hb as [Hck Hcl].
    apply Z.eqb_eq in Hck. rewrite (Hdead c Hc Hck) in Hcl. discriminate.
Qed.

Lemma getPrimaryContact_finds_chain_primary_witness :
  WF store_two_chains /\
  (exists p chain,
     getPrimaryContact (id marty2) store_two_chains = Some p /\
     In p (rows store_two_chains) /\ linkPrecedence p = primary /\
     live p = true /\ chainId_of marty2 = Some (id p) /\
     getAllContactsInChain (chainId_of marty2) store_two_chains = Some chain /\
     find (fun r => is_primary (linkPrecedence r)) chain = Some p) /\
  getPrimaryContact (id marty_gone) store_two_chains = None.
Proof.
  assert (Hwf : WF store_two_chains).
  { constructor.
    - simpl. repeat constructor; simpl; intuition discriminate.
    - intros c Hc Hp. simpl in Hc.
      destruct Hc as [<- | [<- | [<- | [<- | [<- | []]]]]];
        try reflexivity; discriminate.
    - intros c Hc Hs. simpl in Hc.
      destruct Hc as [<- | [<- | [<- | [<- | [<- | []]]]]]; try discriminate;
        [exists doc | exists marty | exists marty]; simpl; intuition.
    - intros c Hc. simpl in Hc.
      destruct Hc as [<- | [<- | [<- | [<- | [<- | []]]]]];
        split; discriminate. }
  destruct (getPrimaryContact_finds_chain_primary store_two_chains Hwf)
    as [Hlive Hdead].
  split; [exact Hwf|]. split.
  - apply Hlive; [simpl; tauto | reflexivity].
  - apply Hdead. intros r Hr Hid. simpl in Hr.
    destruct Hr as [<- | [<- | [<- | [<- | [<- | []]]]]];
      try discriminate; reflexivity.
Defined.

(** ** [DELETE /contacts] *)

Lemma max_rowid_nonneg (l : list Contact) : 0 <= max_rowid l.
Proof. induction l as [|c t IH]; simpl; lia. Qed.

(** Clearing the table reports how many rows it held and does not give
    their ids out again: the request that follows creates a primary whose
    id is larger than every id the table held, and is answered with that
    id alone. *)
Theorem clear_then_identify_starts_afresh (now : Z) (req : Request)
  (st : Store) :
  truthy (req_email req) || truthy (req_phoneNumber req) = true ->
  let new := mkContact (next_id st) (or_null (req_phoneNumber req))
                       (or_null (req_email req)) None primary now now None in
  snd (clearContacts false st) = Some (Z.of_nat (length (rows st))) /\
  identify never_fails now req (fst (clearContacts false st)) =
  (mkStore [new] (next_id st),
   Reply 200 (contact_json (mkBody (next_id st) (singleton_if (req_email req))
                                   (singleton_if (req_phoneNumber req)) []))) /\
  forall c, In c (rows st) -> id c < next_id st.
Proof.
  intros Hvalid new. split; [reflexivity|]. split.
  - unfold identify, clearContacts. cbn [fst].
    replace (negb (truthy (req_email req)) && negb (truthy (req_phoneNumber req)))
      with false
      by (destruct (truthy (req_email req)), (truthy (req_phoneNumber req));
          simpl in *; congruence).
    unfold findContactsByEmailOrPhone. cbn [rows filter never_fails].
    unfold insert_contact, next_id. cbn [rows seq max_rowid fold_right app].
    pose proof (max_rowid_nonneg (rows st)) as H0.
    replace (Z.max (Z.max (seq st) (max_rowid (rows st))) 0)
      with (Z.max (seq st) (max_rowid (rows st))) by lia.
    reflexivity.
  - intros c Hc. apply max_rowid_ge in Hc. unfold next_id. lia.
Qed.

Lemma clear_then_identify_starts_afresh_witness :
  let req := mkRequest (Some "doc@hillvalley.edu"%string) None in
  truthy (req_email req) || truthy (req_phoneNumber req) = true /\
  snd (clearContacts false store_reached) = Some 4 /\
  identify never_fails 900 req (fst (clearContacts false store_reached)) =
  (mkStore [mkContact 5 None (Some "doc@hillvalley.edu"%string) None primary
                      900 900 None] 5,
   Reply 200 (contact_json (mkBody 5 ["doc@hillvalley.edu"%string] [] []))) /\
  forall c, In c (rows store_reached) -> id c < 5.
Proof.
  cbv zeta.
  assert (Hvalid : truthy (req_email
                             (mkRequest (Some "doc@hillvalley.edu"%string) None))
                   || truthy (req_phoneNumber
                                (mkRequest (Some "doc@hillvalley.edu"%string)
                                           None)) = true) by reflexivity.
  split; [exact Hvalid|].
  exact (clear_then_identify_starts_afresh 900 _ store_reached Hvalid).
Defined.

(** ** The form of the admin page *)

(** The page posts a request exactly when a field of the form is filled;
    the body never carries an empty string, and the server never answers
    it with the 400 of a request without fields. *)
Theorem page_requests_pass_validation (emailField phoneField : string) :
  (handleIdentify_body emailField phoneField = None <->
   emailField = ""%string /\ phoneField = ""%string) /\
  forall req, handleIdentify_body emailField phoneField = Some req ->
    req_email req <> Some ""%string /\
    req_phoneNumber req <> Some ""%string /\
    forall fails now st st' body,
      identify fails now req st <> (st', Reply 400 body).
Proof.
  unfold handleIdentify_body, or_undefined. split.
  - destruct (String.eqb_spec emailField ""), (String.eqb_spec phoneField "");
      simpl; split; try discriminate; intuition.
  - intros req Hreq.
    assert (Hvalid : truthy (req_email req) || truthy (req_phoneNumber req) = true
                     /\ req_email req <> Some ""%string
                     /\ req_phoneNumber req <> Some ""%string).
    { destruct (String.eqb_spec emailField ""),
               (String.eqb_spec phoneField "");
        simpl in Hreq; inversion Hreq; subst req; simpl;
        repeat split; try discriminate; try congruence;
        try (apply String.eqb_neq in n; rewrite n; reflexivity);
        try (apply String.eqb_neq in n0; rewrite n0; simpl;
             now rewrite ?orb_true_r). }
    destruct Hvalid as (Hvalid & He & Hp).
    split; [exact He|]. split; [exact Hp|].
    intros fails now st st' body H.
    pose proof (reply_400_invalid fails now req st st' body H). congruence.
Qed.

Lemma page_requests_pass_validation_witness :
  handleIdentify_body "doc@hillvalley.edu" "" =
    Some (mkRequest (Some "doc@hillvalley.edu"%string) None) /\
  handleIdentify_body "" "" = None /\
  forall fails now st st' body,
    identify fails now (mkRequest (Some "doc@hillvalley.edu"%string) None) st
    <> (st', Reply 400 body).
Proof.
  destruct (page_requests_pass_validation "doc@hillvalley.edu" "") as [_ H].
  split; [reflexivity|]. split; [reflexivity|].
  exact (proj2 (proj2 (H _ eq_refl))).
Defined.

(** ** Sorting on the precedence first *)

Section TwoClasses.
Context {A : Type} (le le2 : A -> A -> bool) (first : A -> bool).
Hypothesis Hle : forall a b,
  le a b = if first a then (if first b then le2 a b else true)
           else (if first b then false else le2 a b).

Lemma insert_first_class (x : A) (l1 l2 : list A) :
  first x = true ->
  (forall y, In y l1 -> first y = true) ->
  (forall y, In y l2 -> first y = false) ->
  insert_by le x (l1 ++ l2) = insert_by le2 x l1 ++ l2.
Proof.
  intros Hx H1 H2. induction l1 as [|y t IH]; simpl.
  - destruct l2 as [|z l2]; [reflexivity|]. simpl.
    now rewrite Hle, Hx, (H2 z (or_introl eq_refl)).
  - rewrite Hle, Hx, (H1 y (or_introl eq_refl)).
    destruct (le2 x y); [reflexivity|]. simpl. f_equal. apply IH.
    intros z Hz. apply H1. now right.
Qed.

Lemma insert_second_class (x : A) (l1 l2 : list A) :
  first x = false ->
  (forall y, In y l1 -> first y = true) ->
  (forall y, In y l2 -> first y = false) ->
  insert_by le x (l1 ++ l2) = l1 ++ insert_by le2 x l2.
Proof.
  intros Hx H1 H2. induction l1 as [|y t IH]; simpl.
  - apply insert_by_ext. intros y Hy. now rewrite Hle, Hx, (H2 y Hy).
  - rewrite Hle, Hx, (H1 y (or_introl eq_refl)). f_equal. apply IH.
    intros z Hz. apply H1. now right.
Qed.

(** A stable sort on the class first and [le2] second puts the sorted
    first class before the sorted second class. *)
Lemma sort_two_classes (l : list A) :
  sort_by le l =
  sort_by le2 (filter first l) ++ sort_by le2 (filter (fun x => negb (first x)) l).
Proof.
  induction l as [|x t IH]; [reflexivity|].
  cbn [sort_by fold_right filter].
  change (fold_right (insert_by le) [] t) with (sort_by le t). rewrite IH.
  assert (H1 : forall y, In y (sort_by le2 (filter first t)) -> first y = true).
  { intros y Hy. apply sort_by_In, filter_In in Hy. tauto. }
  assert (H2 : forall y, In y (sort_by le2 (filter (fun x => negb (first x)) t)) ->
                         first y = false).
  { intros y Hy. apply sort_by_In, filter_In in Hy.
    destruct Hy as [_ Hy]. now apply negb_true_iff. }
  destruct (first x) eqn:Hx; cbn [negb].
  - now rewrite insert_first_class.
  - now rewrite insert_second_class.
Qed.
End TwoClasses.

Lemma chain_order_classes (a b : Contact) :
  chain_order a b =
  if is_secondary (linkPrecedence a)
  then (if is_secondary (linkPrecedence b) then createdAt a <=? createdAt b
        else true)
  else (if is_secondary (linkPrecedence b) then false
        else createdAt a <=? createdAt b).
Proof.
  unfold chain_order. destruct (linkPrecedence a), (linkPrecedence b); reflexivity.
Qed.

Lemma client_order_classes (a b : Contact) :
  client_order a b =
  if is_primary (linkPrecedence a)
  then (if is_primary (linkPrecedence b) then createdAt a <=? createdAt b
        else true)
  else (if is_primary (linkPrecedence b) then false
        else createdAt a <=? createdAt b).
Proof.
  unfold client_order. destruct (linkPrecedence a), (linkPrecedence b); reflexivity.
Qed.

Lemma negb_is_secondary (c : Contact) :
  negb (is_secondary (linkPrecedence c)) = is_primary (linkPrecedence c).
Proof. now destruct (linkPrecedence c). Qed.

Lemma negb_is_primary (c : Contact) :
  negb (is_primary (linkPrecedence c)) = is_secondary (linkPrecedence c).
Proof. now destruct (linkPrecedence c). Qed.

Lemma insert_by_createdAt (x : Contact) (l : list Contact) :
  by_createdAt l ->
  by_createdAt (insert_by (fun a b => createdAt a <=? createdAt b) x l).
Proof.
  induction l as [|y t IH]; intros Hl; simpl.
  - split; [intros y []|exact I].
  - destruct Hl as [Hy Ht]. destruct (createdAt x <=? createdAt y) eqn:E.
    + apply Z.leb_le in E. split; [|split; assumption].
      intros z [<- | Hz]; [exact E|]. specialize (Hy z Hz). lia.
    + apply Z.leb_gt in E. split; [|now apply IH].
      intros z Hz.
      apply (Permutation_in _ (insert_by_perm _ x t)) in Hz.
      destruct Hz as [<- | Hz]; [lia | now apply Hy].
Qed.

Lemma sort_by_createdAt (l : list Contact) :
  by_createdAt (sort_by (fun a b => createdAt a <=? createdAt b) l).
Proof.
  induction l as [|x t IH]; simpl; [exact I|]. now apply insert_by_createdAt.
Qed.

(** ** [GET /contacts] *)

(** The listing holds the rows that are not marked deleted: first the
    secondary contacts, oldest first, then the primary contacts, oldest
    first. *)
Theorem listing_puts_secondaries_first (st : Store) :
  let oldest_first := sort_by (fun a b => createdAt a <=? createdAt b) in
  listContacts st =
  oldest_first (filter (fun c => is_secondary (linkPrecedence c))
                       (filter live (rows st))) ++
  oldest_first (filter (fun c => is_primary (linkPrecedence c))
                       (filter live (rows st))) /\
  by_createdAt (oldest_first (filter (fun c => is_secondary (linkPrecedence c))
                                     (filter live (rows st)))) /\
  by_createdAt (oldest_first (filter (fun c => is_primary (linkPrecedence c))
                                     (filter live (rows st)))) /\
  forall c, In c (listContacts st) <-> In c (rows st) /\ deletedAt c = None.
Proof.
  intros oldest_first. split; [|split; [|split]].
  - unfold listContacts.
    rewrite (sort_two_classes chain_order
               (fun a b => createdAt a <=? createdAt b)
               (fun c => is_secondary (linkPrecedence c)) chain_order_classes).
    unfold oldest_first. f_equal. f_equal.
    apply filter_ext. intros c. apply negb_is_secondary.
  - apply sort_by_createdAt.
  - apply sort_by_createdAt.
  - intros c. unfold listContacts. rewrite sort_by_In, filter_In. unfold live.
    destruct (deletedAt c); intuition discriminate.
Qed.

(** ** The chains of the admin page *)

Lemma chains_push_keys (k : option Z) (c : Contact) (m : ChainMap) :
  map fst (chains_push k c m) =
  if existsb (key_eqb k) (map fst m) then map fst m else map fst m ++ [k].
Proof.
  induction m as [|[k0 v0] t IH]; simpl; [reflexivity|].
  destruct (key_eqb k k0) eqn:E; simpl; [reflexivity|].
  rewrite IH. now destruct (existsb (key_eqb k) (map fst t)).
Qed.

Lemma existsb_key_In (k : option Z) (keys : list (option Z)) :
  existsb (key_eqb k) keys = true <-> In k keys.
Proof.
  rewrite existsb_exists. split.
  - intros (x & Hx & E). apply key_eqb_eq in E. now subst.
  - intros H. exists k. split; [exact H | now apply key_eqb_eq].
Qed.

Lemma chains_push_key_In (k : option Z) (c : Contact) (m : ChainMap)
  (k' : option Z) :
  In k' (map fst (chains_push k c m)) <-> k' = k \/ In k' (map fst m).
Proof.
  rewrite chains_push_keys. destruct (existsb (key_eqb k) (map fst m)) eqn:E.
  - apply existsb_key_In in E. split; [auto | intros [-> | H]; auto].
  - rewrite in_app_iff. simpl. intuition congruence.
Qed.

Lemma chains_push_NoDup (k : option Z) (c : Contact) (m : ChainMap) :
  NoDup (map fst m) -> NoDup (map fst (chains_push k c m)).
Proof.
  intros H. rewrite chains_push_keys.
  destruct (existsb (key_eqb k) (map fst m)) eqn:E; [exact H|].
  apply NoDup_app; [exact H | repeat constructor; intros [] |].
  intros x Hx [<- | []].
  apply existsb_key_In in Hx. congruence.
Qed.

Lemma chains_push_In (k : option Z) (c : Contact) (m : ChainMap)
  (k' : option Z) (v' : list Contact) :
  NoDup (map fst m) ->
  In (k', v') (chains_push k c m) ->
  (k' = k /\ ((exists v, In (k, v) m /\ v' = v ++ [c]) \/
              (~ In k (map fst m) /\ v' = [c]))) \/
  (k' <> k /\ In (k', v') m).
Proof.
  induction m as [|[k0 v0] t IH]; intros Hnd Hin; simpl in *.
  - destruct Hin as [E | []]. inversion E; subst. left. split; [reflexivity|].
    right. split; [tauto | reflexivity].
  - inversion Hnd as [|? ? Hk0 Ht]; subst.
    destruct (key_eqb k k0) eqn:E.
    + apply key_eqb_eq in E. subst k0. destruct Hin as [E | Hin].
      * inversion E; subst. left. split; [reflexivity|]. left. eauto.
      * right. split; [|now right]. intros ->. apply Hk0.
        now apply (in_map fst) in Hin.
    + destruct Hin as [E' | Hin].
      * inversion E'; subst. right. split; [|now left]. intros ->.
        assert (key_eqb k k = true) by (now apply key_eqb_eq). congruence.
      * destruct (IH Ht Hin) as [[-> [(v & Hv & ->) | [Hn ->]]] | [Hne Hin']].
        -- left. split; [reflexivity|]. left. exists v. auto.
        -- left. split; [reflexivity|]. right. split; [|reflexivity].
           intros [-> | H]; [|contradiction].
           assert (key_eqb k k = true) by (now apply key_eqb_eq). congruence.
        -- right. auto.
Qed.

Lemma chains_push_perm (k : option Z) (c : Contact) (m : ChainMap) :
  Permutation (concat (map snd (chains_push k c m)))
              (concat (map snd m) ++ [c]).
Proof.
  induction m as [|[k0 v0] t IH]; simpl; [apply Permutation_refl|].
  destruct (key_eqb k k0); simpl.
  - rewrite <- !app_assoc. apply Permutation_app_head, Permutation_app_comm.
  - rewrite <- app_assoc. now apply Permutation_app_head.
Qed.

Lemma groups_of_push (seen : list Contact) (m : ChainMap) (c : Contact) :
  groups_of seen m ->
  groups_of (seen ++ [c]) (chains_push (chainId_of c) c m).
Proof.
  intros (Hv & Hnd & Hk). split; [|split].
  - intros k v Hin. rewrite filter_app. cbn [filter].
    destruct (chains_push_In _ c m k v Hnd Hin)
      as [[-> [(v0 & Hv0 & ->) | [Hn ->]]] | [Hne Hin']].
    + destruct (Hv _ _ Hv0) as [E _].
      replace (key_eqb (chainId_of c) (chainId_of c)) with true
        by (symmetry; now apply key_eqb_eq).
      split; [now rewrite <- E | now destruct v0].
    + replace (key_eqb (chainId_of c) (chainId_of c)) with true
        by (symmetry; now apply key_eqb_eq).
      split; [|discriminate].
      rewrite filter_none; [reflexivity|].
      intros x Hx. destruct (key_eqb (chainId_of x) (chainId_of c)) eqn:E;
        [|reflexivity].
      apply key_eqb_eq in E. exfalso. apply Hn. rewrite <- E. now apply Hk.
    + destruct (Hv _ _ Hin') as [E Hne'].
      replace (key_eqb (chainId_of c) k) with false.
      * rewrite app_nil_r. auto.
      * symmetry. apply not_true_is_false. intros E'.
        apply key_eqb_eq in E'. congruence.
  - now apply chains_push_NoDup.
  - intros x Hx. apply chains_push_key_In. apply in_app_or in Hx.
    destruct Hx as [Hx | [<- | []]]; [right; now apply Hk | now left].
Qed.

Lemma groups_of_fold (l seen : list Contact) (m : ChainMap) :
  groups_of seen m ->
  groups_of (seen ++ l)
            (fold_left (fun m c => chains_push (chainId_of c) c m) l m).
Proof.
  revert seen m. induction l as [|c t IH]; intros seen m H; simpl.
  - now rewrite app_nil_r.
  - replace (seen ++ c :: t) with ((seen ++ [c]) ++ t)
      by (now rewrite <- app_assoc).
    apply IH, groups_of_push, H.
Qed.

Lemma chains_fold_perm (l : list Contact) (m : ChainMap) :
  Permutation
    (concat (map snd (fold_left (fun m c => chains_push (chainId_of c) c m) l m)))
    (concat (map snd m) ++ l).
Proof.
  revert m. induction l as [|c t IH]; intros m; simpl.
  - now rewrite app_nil_r.
  - eapply perm_trans; [apply IH|].
    eapply perm_trans; [apply Permutation_app_tail, chains_push_perm|].
    now rewrite <- app_assoc.
Qed.

Lemma concat_map_perm {A B : Type} (f g : A -> list B) (l : list A) :
  (forall x, Permutation (f x) (g x)) ->
  Permutation (concat (map f l)) (concat (map g l)).
Proof.
  intros H. induction l as [|x t IH]; simpl; [constructor|].
  now apply Permutation_app.
Qed.

Section PageChains.
Variable st : Store.
Hypothesis Hwf : WF st.

Let L := listContacts st.
Let m := fold_left (fun m c => chains_push (chainId_of c) c m) L [].

Lemma listed_iff (c : Contact) : In c L <-> In c (rows st) /\ live c = true.
Proof. unfold L, listContacts. now rewrite sort_by_In, filter_In. Qed.

Lemma listed_NoDup : NoDup L.
Proof.
  apply (Permutation_NoDup (l := filter live (rows st))).
  - apply Permutation_sym, sort_by_perm.
  - apply NoDup_filter, (wf_rows_NoDup st Hwf).
Qed.

Lemma page_groups : groups_of L m.
Proof.
  apply (groups_of_fold L [] []).
  split; [intros k v []|]. split; [constructor | intros c []].
Qed.

(** Each entry of the Map is the chain of a live primary, and sorting it
    puts that primary first. *)
Lemma page_group_shape (k : option Z) (v : list Contact) :
  In (k, v) m ->
  exists p secs,
    k = Some (id p) /\ sort_by client_order v = p :: secs /\
    In p (rows st) /\ linkPrecedence p = primary /\ live p = true /\
    Permutation secs (chain_children st p) /\ by_createdAt secs.
Proof.
  intros Hin. destruct page_groups as (Hv & _ & _).
  destruct (Hv k v Hin) as [Ev Hne].
  assert (Hmem : forall x, In x v <-> In x L /\ chainId_of x = k).
  { intros x. rewrite Ev, filter_In, key_eqb_eq. tauto. }
  destruct v as [|c0 v0] eqn:Evv; [congruence|]. rewrite <- Evv in *.
  assert (Hc0 : In c0 v) by (rewrite Evv; now left).
  apply Hmem in Hc0. destruct Hc0 as [Hl0 Hk0].
  apply listed_iff in Hl0. destruct Hl0 as [Hrow0 Hlive0].
  destruct (chain_of_row st Hwf c0 Hrow0 Hlive0)
    as (p & Hp & Hprim & Hpl & Hkp & _).
  assert (Hk : k = Some (id p)) by congruence.
  assert (Hpv : In p v).
  { apply Hmem. split; [apply listed_iff; auto|].
    unfold chainId_of. rewrite Hprim. simpl. now symmetry. }
  assert (Hnd : NoDup v) by (rewrite Ev; apply NoDup_filter, listed_NoDup).
  assert (Hprims : filter (fun c => is_primary (linkPrecedence c)) v = [p]).
  { apply filter_single; [exact Hnd | exact Hpv | now rewrite Hprim |].
    intros x Hx Hxp. apply is_primary_iff in Hxp.
    apply Hmem in Hx. destruct Hx as [Hxl Hxk].
    apply listed_iff in Hxl. destruct Hxl as [Hxrow _].
    apply (wf_same_id st Hwf); auto.
    unfold chainId_of in Hxk. rewrite Hxp in Hxk. simpl in Hxk. congruence. }
  set (rest := filter (fun c => negb (is_primary (linkPrecedence c))) v).
  exists p, (sort_by (fun a b => createdAt a <=? createdAt b) rest).
  split; [exact Hk|]. split.
  - rewrite (sort_two_classes client_order
               (fun a b => createdAt a <=? createdAt b)
               (fun c => is_primary (linkPrecedence c)) client_order_classes).
    now rewrite Hprims.
  - repeat (split; [assumption|]). split; [|apply sort_by_createdAt].
    eapply perm_trans; [apply sort_by_perm|].
    apply NoDup_Permutation.
    + now apply NoDup_filter.
    + apply NoDup_filter, (wf_rows_NoDup st Hwf).
    + intros x. unfold rest. rewrite filter_In, Hmem, listed_iff.
      rewrite negb_is_primary, is_secondary_iff, chain_children_In.
      split.
      * intros (((Hxr & Hxl) & Hxk) & Hxs).
        unfold chainId_of in Hxk. rewrite Hxs in Hxk. simpl in Hxk.
        repeat split; auto. congruence.
      * intros (Hxr & Hxk & Hxl).
        destruct (wf_link_target st Hwf x _ Hxr Hxk) as (Hxs & _).
        repeat split; auto. unfold chainId_of. rewrite Hxs. simpl. congruence.
Qed.
End PageChains.

(** On a well-formed table, the chains the admin page shows for the
    server's listing are the chains of the table: each holds a live
    primary first and then exactly its live secondaries, oldest first;
    every live primary heads one of them, and every listed contact is in
    one of them. *)
Theorem page_chains_put_primary_first (st : Store) :
  WF st ->
  let chains := getContactChains (listContacts st) in
  Forall (fun g => exists p secs,
            g = p :: secs /\
            In p (rows st) /\ linkPrecedence p = primary /\ live p = true /\
            Permutation secs (chain_children st p) /\ by_createdAt secs)
         chains /\
  (forall p, In p (rows st) -> linkPrecedence p = primary -> live p = true ->
             exists g, In g chains /\ hd_error g = Some p) /\
  Permutation (concat chains) (filter live (rows st)).
Proof.
  intros Hwf chains. unfold chains, getContactChains.
  set (m := fold_left (fun m c => chains_push (chainId_of c) c m)
                      (listContacts st) []).
  split; [|split].
  - apply Forall_forall. intros g Hg. apply in_map_iff in Hg.
    destruct Hg as ([k v] & <- & Hkv).
    destruct (page_group_shape st Hwf k v Hkv) as (p & secs & _ & E & H).
    exists p, secs. split; [exact E | exact H].
  - intros p Hp Hprim Hlive.
    destruct (page_groups st) as (_ & _ & Hkeys).
    assert (Hin : In (chainId_of p) (map fst m)).
    { apply Hkeys. now apply listed_iff. }
    apply in_map_iff in Hin. destruct Hin as ([k v] & Ek & Hkv). simpl in Ek.
    destruct (page_group_shape st Hwf k v Hkv)
      as (p' & secs & Hk' & E & Hp' & _).
    exists (sort_by client_order v). split.
    + apply in_map_iff. exists (k, v). split; [reflexivity | exact Hkv].
    + rewrite E. simpl. f_equal. apply (wf_same_id st Hwf); auto.
      unfold chainId_of in Ek. rewrite Hprim in Ek. simpl in Ek. congruence.
  - eapply perm_trans;
      [apply (concat_map_perm _ snd); intros [k v]; apply sort_by_perm|].
    eapply perm_trans; [apply chains_fold_perm|]. simpl.
    apply sort_by_perm.
Qed.

Lemma page_chains_put_primary_first_witness :
  WF store_merged /\
  getContactChains (listContacts store_merged) =
    [[doc; doc2; marty_demoted; marty2_moved]] /\
  listContacts store_merged = [doc2; marty_demoted; marty2_moved; doc] /\
  Forall (fun g => exists p secs,
            g = p :: secs /\
            In p (rows store_merged) /\ linkPrecedence p = primary /\
            live p = true /\
            Permutation secs (chain_children store_merged p) /\
            by_createdAt secs)
         (getContactChains (listContacts store_merged)).
Proof.
  assert (Hwf : WF store_merged)
    by exact (proj1 (reachable_at_invariant 500 store_merged
                       store_merged_reachable_at)).
  split; [exact Hwf|]. split; [vm_compute; reflexivity|].
  split; [vm_compute; reflexivity|].
  exact (proj1 (page_chains_put_primary_first store_merged Hwf)).
Defined.

(** * More on what a request adds, and on a deleted primary *)

(** On a well-formed table, the row a successful request adds, if any,
    belongs to the chain it replies: it is the replied primary itself,
    with no link, or a secondary linked to the replied primary and listed
    among the secondary ids; it carries the fields of the request. *)
Theorem added_row_is_in_replied_chain (fails : Stmt -> bool) (now : Z)
  (req : Request) (st st' : Store) (body : json) (c : Contact) :
  WF st ->
  identify fails now req st = (st', Reply 200 body) ->
  In c (rows st') -> ~ In (id c) (map id (rows st)) ->
  inserted_row now (req_email req) (req_phoneNumber req) st c /\
  exists b,
    body = contact_json b /\
    ((linkPrecedence c = primary /\ linkedId c = None /\
      id c = primaryContatctId b) \/
     (linkPrecedence c = secondary /\
      linkedId c = Some (primaryContatctId b) /\
      In (id c) (secondaryContactIds b))).
Proof.
  intros Hwf H Hc Hnew.
  destruct (identify_success_consolidates fails now req st st' body Hwf H)
    as (p & G & extra & Hcs).
  destruct (cs_primary _ _ _ _ _ _ _ _ _ Hcs) as (Hp & Hprim & Hlive).
  pose proof (cs_wf _ _ _ _ _ _ _ _ _ Hcs) as Hwf'.
  destruct (cs_reply _ _ _ _ _ _ _ _ _ Hcs) as (b & Hb & Hbody).
  inversion Hb as [Hb'].
  destruct (rearranged_row _ _ _ _ _ _ _ _ (cs_table _ _ _ _ _ _ _ _ _ Hcs)
              c Hc)
    as [(c0 & Hrow & ->) | (_ & Hins & Hk & Hlink)].
  - exfalso. apply Hnew.
    destruct (cs_facts _ _ _ _ _ _ _ _ _ Hcs c0) as (-> & _).
    now apply in_map.
  - split; [exact Hins|]. exists b. split; [reflexivity|].
    assert (Hpid : primaryContatctId b = id p).
    { rewrite (chain_body st' p Hwf' Hp Hprim Hlive) in Hbody.
      now inversion Hbody. }
    destruct Hlink as [-> | Hl].
    + left. split; [exact Hprim|].
      split; [exact (wf_primary st' Hwf' p Hp Hprim) | now symmetry].
    + right. destruct (wf_link_target st' Hwf' c _ Hc Hl) as (Hs & _).
      split; [exact Hs|]. split; [now rewrite Hpid|].
      assert (Hin : In c (p :: chain_children st' p)).
      { right. apply chain_children_In. split; [exact Hc|]. split; [exact Hl|].
        destruct Hins as (_ & _ & _ & _ & _ & Hdel). unfold live.
        now rewrite Hdel. }
      destruct (chain_body_values st' p c b Hwf' Hp Hprim Hlive Hbody Hin)
        as ([E | Hsec] & _); [|exact Hsec].
      exfalso. rewrite Hpid in E.
      assert (c = p) by (now apply (wf_same_id st' Hwf')). subst c. congruence.
Qed.

Lemma added_row_is_in_replied_chain_witness :
  let req := mkRequest (Some "doc@hillvalley.edu"%string)
                       (Some "555-0999"%string) in
  let new := mkContact 5 (Some "555-0999"%string)
                       (Some "doc@hillvalley.edu"%string) (Some 1) secondary
                       500 500 None in
  let st' := mkStore [doc; doc2; marty; marty2; new] 5 in
  let body := contact_json
                (mkBody 1 ["doc@hillvalley.edu"%string]
                        ["555-0123"; "555-0456"; "555-0999"]%string [2; 5]) in
  (WF store_reached /\
   identify never_fails 500 req store_reached = (st', Reply 200 body) /\
   In new (rows st') /\ ~ In (id new) (map id (rows store_reached))) /\
  inserted_row 500 (req_email req) (req_phoneNumber req) store_reached new /\
  exists b,
    body = contact_json b /\
    ((linkPrecedence new = primary /\ linkedId new = None /\
      id new = primaryContatctId b) \/
     (linkPrecedence new = secondary /\
      linkedId new = Some (primaryContatctId b) /\
      In (id new) (secondaryContactIds b))).
Proof.
  cbv zeta.
  pose proof store_reached_WF as Hwf.
  set (new := mkContact 5 (Some "555-0999"%string)
                        (Some "doc@hillvalley.edu"%string) (Some 1) secondary
                        500 500 None).
  assert (H : identify never_fails 500
                (mkRequest (Some "doc@hillvalley.edu"%string)
                           (Some "555-0999"%string)) store_reached =
              (mkStore [doc; doc2; marty; marty2; new] 5,
               Reply 200
                 (contact_json
                    (mkBody 1 ["doc@hillvalley.edu"%string]
                            ["555-0123"; "555-0456"; "555-0999"]%string [2; 5]))))
    by (vm_compute; reflexivity).
  assert (Hin : In new (rows (mkStore [doc; doc2; marty; marty2; new] 5)))
    by (simpl; tauto).
  assert (Hnew : ~ In (id new) (map id (rows store_reached)))
    by (simpl; intuition discriminate).
  split; [split; [exact Hwf | split; [exact H | split; [exact Hin | exact Hnew]]]|].
  exact (added_row_is_in_replied_chain never_fails 500 _ store_reached _ _ new
           Hwf H Hin Hnew).
Defined.

(** When every contact a request matches is linked to an id under which
    no live primary is stored (its primary was marked deleted, say), and
    the lookups of the request succeed, the handler throws while it reads
    the id of the missing primary: the client gets no reply, and the
    table is left as it was. *)
Theorem request_on_chain_without_primary_throws (fails : Stmt -> bool)
  (now : Z) (req : Request) (st : Store) (k : Z) :
  lookups_succeed fails ->
  findContactsByEmailOrPhone (req_email req) (req_phoneNumber req) st <> [] ->
  (forall c,
     In c (findContactsByEmailOrPhone (req_email req) (req_phoneNumber req) st) ->
     chainId_of c = Some k) ->
  (forall r, In r (rows st) -> live r = true -> linkPrecedence r = primary ->
             id r <> k /\ linkedId r <> Some k) ->
  identify fails now req st = (st, Crash).
Proof.
  intros [Hfind Hlook] Hne Hall Hnone.
  assert (Hchain : getAllContactsInChain (Some k) st = Some []).
  { unfold getAllContactsInChain, chain_roots.
    rewrite filter_none; [reflexivity|].
    intros r Hr. destruct (live r) eqn:Hl; [|apply andb_false_iff; left;
                                              apply andb_false_r].
    destruct (is_primary (linkPrecedence r)) eqn:Hp; [|apply andb_false_r].
    apply is_primary_iff in Hp. destruct (Hnone r Hr Hl Hp) as [H1 H2].
    apply Z.eqb_neq in H1. rewrite H1.
    destruct (linked_to k r) eqn:E; [|reflexivity].
    apply linked_to_iff in E. contradiction. }
  unfold identify.
  destruct (negb _ && negb _) eqn:Hvalid.
  { exfalso. apply Hne. apply andb_true_iff in Hvalid.
    destruct Hvalid as [H1 H2]. apply negb_true_iff in H1, H2.
    now apply findContacts_invalid. }
  rewrite Hfind.
  destruct (findContactsByEmailOrPhone _ _ st) as [|c0 cs] eqn:Hf; [congruence|].
  rewrite (collectChains_succeed fails st _ _ Hlook).
  rewrite (collectChains_single st (c0 :: cs) (Some k) [] Hne Hall Hchain).
  unfold processContactChains, has_value. cbn [existsb find].
  now rewrite !andb_false_r.
Qed.

Lemma request_on_chain_without_primary_throws_witness :
  let gone := mkContact 1 (Some "555-0123"%string)
                        (Some "doc@hillvalley.edu"%string) None primary
                        100 100 (Some 150) in
  let st := mkStore [gone; doc2] 2 in
  let req := mkRequest None (Some "555-0456"%string) in
  (lookups_succeed never_fails /\
   findContactsByEmailOrPhone (req_email req) (req_phoneNumber req) st = [doc2] /\
   chainId_of doc2 = Some 1) /\
  identify never_fails 500 req st = (st, Crash).
Proof.
  cbv zeta.
  assert (Hread : lookups_succeed never_fails)
    by (split; [reflexivity | intros k; reflexivity]).
  split; [split; [exact Hread | split; reflexivity]|].
  apply (request_on_chain_without_primary_throws never_fails 500 _ _ 1).
  - exact Hread.
  - discriminate.
  - intros c [<- | []]. reflexivity.
  - intros r [<- | [<- | []]]; simpl; discriminate.
Defined.

Lemma rejects_exactly_requests_without_fields_witness :
  identify never_fails 500 (mkRequest (Some ""%string) None) store_reached =
  (store_reached,
   Reply 400 (error_json "Either email or phoneNumber must be provided")).
Proof.
  apply (proj1 (rejects_exactly_requests_without_fields never_fails 500
                  (mkRequest (Some ""%string) None) store_reached)).
  reflexivity.
Defined.
